(** * Route generation of the data store (src/store/dataStore.ts)

    A shallow embedding of the zustand data store: the four collections, the
    create/update/delete actions and [generateRoutes]; of what the pages
    derive from the collections (the serving warehouse of a store, the pie
    chart of the stores per warehouse, the grouping of the reports page); and
    of the forms that write to the store.  The properties follow: first
    those of the route assignment engine and of the route repository, then
    those of the other actions, of the pages and of the forms.

    JavaScript numbers are IEEE 754 binary64 values, modelled by Rocq's
    primitive floats.  The parts of the JavaScript runtime the store calls
    ([Math.sin], [Math.cos], [Math.atan2], the random identifier expression
    and the clock) are gathered in a [Runtime] record, over which every
    definition of the engine is parameterised; the conversions the forms
    call ([Number], [trim]) are gathered in a [Conversions] record. *)

From Stdlib Require Import Floats ZArith NArith List Bool String Ascii Arith Lia.
From Stdlib Require Import Permutation Sorted.
Import ListNotations.

Set Implicit Arguments.

(** Decimal literals stand for the nearest binary64 value, as in JavaScript. *)
Set Warnings "-inexact-float".

(* ================================================================== *)
(** ** Numbers *)

(** The JavaScript type [number]. *)
Abbreviation number := float (only parsing).

(** [Math.PI], the binary64 value nearest to pi. *)
Definition Math_PI : number := 0x1.921fb54442d18p+1%float.

(** [parseFloat(x.toFixed(2))].

    [Number.prototype.toFixed(2)] prints a finite [x] below 10^21 as the
    decimal [n / 100], where [n] is the integer nearest to [100 * |x|] (the
    larger one on a tie), with the sign of [x] in front; any other value is
    printed as [String(x)].  [parseFloat] reads the decimal back as the nearest
    binary64 value.  [x = m * 2^e] exactly, so [n] is computed on integers. *)
Definition round_half_up_scaled (m : positive) (e : Z) : Z :=
  match e with
  | Zneg k => ((200 * Zpos m + 2 ^ Zpos k) / 2 ^ (Zpos k + 1))%Z
  | _ => (100 * Zpos m * 2 ^ e)%Z
  end.

Definition hundredths (s : bool) (n : Z) : number :=
  match n with
  | Zpos p => SF2Prim (SFdiv prec emax (S754_finite s p 0) (S754_finite false 100 0))
  | _ => if s then (-0)%float else 0%float
  end.

Definition toFixed2 (x : number) : number :=
  match Prim2SF x with
  | S754_finite s m e =>
      if (1e21 <=? abs x)%float then x
      else hundredths s (round_half_up_scaled m e)
  | S754_zero _ => 0%float
  | _ => x
  end.

(* ================================================================== *)
(** ** Entities (src/types/index.ts) *)

(** One field of [{ ...base, ...data }]: the value [data] holds under the key
    when it has the key, the value of [base] otherwise.  In [Partial<T>] and
    [Omit<T, 'id'>] below a key that is present holds a value of its declared
    type. *)
Definition spread_field {A} (given : option A) (base : A) : A :=
  match given with Some a => a | None => base end.

Module Location.
Record t := { lat : number; lng : number }.
End Location.

Module Warehouse.
Record t := {
  id : string;
  name : string;
  location : Location.t;
  capacity : number;
  address : string
}.

(** [Partial<Warehouse>] *)
Record partial := {
  p_id : option string;
  p_name : option string;
  p_location : option Location.t;
  p_capacity : option number;
  p_address : option string
}.

(** [Omit<Warehouse, 'id'>] *)
Record without_id := {
  n_name : string;
  n_location : Location.t;
  n_capacity : number;
  n_address : string
}.

(** [{ ...warehouse, ...data }] *)
Definition spread (warehouse : t) (data : partial) : t :=
  {| id := spread_field (p_id data) (id warehouse);
     name := spread_field (p_name data) (name warehouse);
     location := spread_field (p_location data) (location warehouse);
     capacity := spread_field (p_capacity data) (capacity warehouse);
     address := spread_field (p_address data) (address warehouse) |}.

(** [{ ...warehouse, id: newId }] *)
Definition with_id (warehouse : without_id) (newId : string) : t :=
  {| id := newId;
     name := n_name warehouse;
     location := n_location warehouse;
     capacity := n_capacity warehouse;
     address := n_address warehouse |}.
End Warehouse.

Module TimeWindow.
Record t := { start : string; end_ : string }.
End TimeWindow.

Module Store.
Record t := {
  id : string;
  name : string;
  location : Location.t;
  demand : number;
  address : string;
  timeWindow : option TimeWindow.t
}.

(** [Partial<Store>].  [timeWindow] is optional in [Store] itself, so the key
    can be present and hold [undefined] ([Some None]); the spread then
    replaces the time window of the store by [undefined]. *)
Record partial := {
  p_id : option string;
  p_name : option string;
  p_location : option Location.t;
  p_demand : option number;
  p_address : option string;
  p_timeWindow : option (option TimeWindow.t)
}.

(** [Omit<Store, 'id'>] *)
Record without_id := {
  n_name : string;
  n_location : Location.t;
  n_demand : number;
  n_address : string;
  n_timeWindow : option TimeWindow.t
}.

(** [{ ...store, ...data }] *)
Definition spread (store : t) (data : partial) : t :=
  {| id := spread_field (p_id data) (id store);
     name := spread_field (p_name data) (name store);
     location := spread_field (p_location data) (location store);
     demand := spread_field (p_demand data) (demand store);
     address := spread_field (p_address data) (address store);
     timeWindow := spread_field (p_timeWindow data) (timeWindow store) |}.

(** [{ ...store, id: newId }] *)
Definition with_id (store : without_id) (newId : string) : t :=
  {| id := newId;
     name := n_name store;
     location := n_location store;
     demand := n_demand store;
     address := n_address store;
     timeWindow := n_timeWindow store |}.
End Store.

Module Truck.
Record t := {
  id : string;
  name : string;
  capacity : number;
  speed : number;
  warehouseId : string
}.

(** [Partial<Truck>] *)
Record partial := {
  p_id : option string;
  p_name : option string;
  p_capacity : option number;
  p_speed : option number;
  p_warehouseId : option string
}.

(** [Omit<Truck, 'id'>] *)
Record without_id := {
  n_name : string;
  n_capacity : number;
  n_speed : number;
  n_warehouseId : string
}.

(** [{ ...truck, ...data }] *)
Definition spread (truck : t) (data : partial) : t :=
  {| id := spread_field (p_id data) (id truck);
     name := spread_field (p_name data) (name truck);
     capacity := spread_field (p_capacity data) (capacity truck);
     speed := spread_field (p_speed data) (speed truck);
     warehouseId := spread_field (p_warehouseId data) (warehouseId truck) |}.

(** [{ ...truck, id: newId }] *)
Definition with_id (truck : without_id) (newId : string) : t :=
  {| id := newId;
     name := n_name truck;
     capacity := n_capacity truck;
     speed := n_speed truck;
     warehouseId := n_warehouseId truck |}.
End Truck.

Module Route.
Record t := {
  id : string;
  warehouseId : string;
  truckId : string;
  stores : list string;
  distance : number;
  estimatedTime : number;
  created : string
}.

(** [Partial<Route>]: every field optional. *)
Record partial := {
  p_id : option string;
  p_warehouseId : option string;
  p_truckId : option string;
  p_stores : option (list string);
  p_distance : option number;
  p_estimatedTime : option number;
  p_created : option string
}.

(** [Omit<Route, 'id'>]. *)
Record without_id := {
  n_warehouseId : string;
  n_truckId : string;
  n_stores : list string;
  n_distance : number;
  n_estimatedTime : number;
  n_created : string
}.

Definition or_else {A} (o : option A) (d : A) : A :=
  match o with Some a => a | None => d end.

(** [{ ...route, ...data }] *)
Definition spread (route : t) (data : partial) : t :=
  {| id := or_else (p_id data) (id route);
     warehouseId := or_else (p_warehouseId data) (warehouseId route);
     truckId := or_else (p_truckId data) (truckId route);
     stores := or_else (p_stores data) (stores route);
     distance := or_else (p_distance data) (distance route);
     estimatedTime := or_else (p_estimatedTime data) (estimatedTime route);
     created := or_else (p_created data) (created route) |}.

(** [{ ...route, id: newId }] *)
Definition with_id (route : without_id) (newId : string) : t :=
  {| id := newId;
     warehouseId := n_warehouseId route;
     truckId := n_truckId route;
     stores := n_stores route;
     distance := n_distance route;
     estimatedTime := n_estimatedTime route;
     created := n_created route |}.
End Route.

(* ================================================================== *)
(** ** Arrays *)

(** [arr.find(pred)]: the first element satisfying [pred], [undefined]
    ([None]) when there is none. *)
Definition Array_find {A} (pred : A -> bool) (arr : list A) : option A :=
  List.find pred arr.

(** [arr.sort(comparefn)].  ECMAScript calls [comparefn(x, y)], reads a [NaN]
    result as [+0], and places [x] after [y] only when the result is positive;
    the sort is stable.  Whenever [comparefn] is a consistent comparator on the
    elements the result is fixed by these rules (it is the one stable
    arrangement), and this insertion sort computes it.  For an inconsistent
    comparator ECMAScript leaves the order to the implementation, and the
    arrangement below is one of those an implementation may produce, not the
    one of every engine: with [a.distance - b.distance] that is the case as
    soon as a distance is [NaN].  What is proved of the order of the sorted
    list therefore assumes that no distance is [NaN]. *)
Section Sort.
Variable A : Type.
Variable comparefn : A -> A -> number.

Definition SortCompare (x y : A) : number :=
  let v := comparefn x y in
  if is_nan v then 0%float else v.

Fixpoint sort_insert (x : A) (sorted : list A) : list A :=
  match sorted with
  | [] => [x]
  | y :: rest =>
      if (0 <? SortCompare x y)%float then y :: sort_insert x rest
      else x :: y :: rest
  end.

Definition Array_sort (arr : list A) : list A :=
  fold_right sort_insert [] arr.
End Sort.

(* ================================================================== *)
(** ** Objects used as dictionaries

    [truckAssignments] is a plain object literal ([{}]) indexed by truck
    identifiers, holding arrays of store identifiers.  Three rules of
    ECMAScript objects are visible to [generateRoutes]:
    - assigning to an existing key keeps the key's position;
    - [Object.entries] lists the own keys that are array indices (canonical
      decimal strings below 2^32 - 1) first, in ascending numeric order, and
      the other keys after them in insertion order;
    - the key ["__proto__"] is not an own property: [obj["__proto__"] = arr]
      runs the setter inherited from [Object.prototype] and makes [arr] the
      prototype of [obj]; reading [obj["__proto__"]] gives that prototype
      back, and [Object.entries] never lists it. *)

Module JSObject.
Record t (V : Type) := {
  own : list (string * V);
  proto : option V
}.
Arguments own {V} _.
Arguments proto {V} _.

Definition empty {V} : t V := {| own := []; proto := None |}.

Definition proto_key : string := "__proto__".

Fixpoint assoc_get {V} (k : string) (l : list (string * V)) : option V :=
  match l with
  | [] => None
  | (k', v) :: rest => if String.eqb k k' then Some v else assoc_get k rest
  end.

Fixpoint assoc_set {V} (k : string) (v : V) (l : list (string * V))
  : list (string * V) :=
  match l with
  | [] => [(k, v)]
  | (k', v') :: rest =>
      if String.eqb k k' then (k', v) :: rest
      else (k', v') :: assoc_set k v rest
  end.

(** [obj[k]] *)
Definition get {V} (k : string) (o : t V) : option V :=
  if String.eqb k proto_key then proto o else assoc_get k (own o).

(** [obj[k] = v] *)
Definition set {V} (k : string) (v : V) (o : t V) : t V :=
  if String.eqb k proto_key then {| own := own o; proto := Some v |}
  else {| own := assoc_set k v (own o); proto := proto o |}.

(** The array index a property key denotes, if it is one. *)
Definition digit_of (c : ascii) : option N :=
  let n := N_of_ascii c in
  if ((48 <=? n) && (n <=? 57))%N then Some (n - 48)%N else None.

Fixpoint parse_digits (acc : N) (s : string) : option N :=
  match s with
  | EmptyString => Some acc
  | String c rest =>
      match digit_of c with
      | Some d => parse_digits (10 * acc + d)%N rest
      | None => None
      end
  end.

Definition array_index (k : string) : option N :=
  match k with
  | EmptyString => None
  | String c rest =>
      if (Ascii.eqb c "0" && negb (String.eqb rest ""))%bool then None
      else match parse_digits 0 k with
           | Some n => if (n <? 4294967295)%N then Some n else None
           | None => None
           end
  end.

Section Entries.
Variable V : Type.

Fixpoint insert_by_index (e : N * (string * V)) (l : list (N * (string * V)))
  : list (N * (string * V)) :=
  match l with
  | [] => [e]
  | e' :: rest =>
      if (fst e <=? fst e')%N then e :: e' :: rest
      else e' :: insert_by_index e rest
  end.

Fixpoint index_keys (l : list (string * V)) : list (N * (string * V)) :=
  match l with
  | [] => []
  | (k, v) :: rest =>
      match array_index k with
      | Some n => (n, (k, v)) :: index_keys rest
      | None => index_keys rest
      end
  end.

Definition is_index_key (e : string * V) : bool :=
  match array_index (fst e) with Some _ => true | None => false end.

(** [Object.entries(obj)] *)
Definition entries (o : t V) : list (string * V) :=
  map snd (fold_right insert_by_index [] (index_keys (own o)))
  ++ filter (fun e => negb (is_index_key e)) (own o).
End Entries.
End JSObject.

(* ================================================================== *)
(** ** The runtime and the store monad *)

(** What [dataStore.ts] takes from the JavaScript runtime.  The store calls the
    runtime in sequence; [random_id n] and [Date_now n] are the results of the
    [n]-th call when that call is
    [Math.random().toString(36).substring(2, 9)], respectively
    [new Date().toISOString()]. *)
Record Runtime := {
  Math_sin : number -> number;
  Math_cos : number -> number;
  Math_atan2 : number -> number -> number;
  random_id : nat -> string;
  Date_now : nat -> string
}.

(** [Math.sqrt] is the IEEE 754 square root. *)
Definition Math_sqrt (x : number) : number := PrimFloat.sqrt x.

(** [interface DataState], the four collections. *)
Record DataState := {
  warehouses : list Warehouse.t;
  stores : list Store.t;
  trucks : list Truck.t;
  routes : list Route.t
}.

(** The store together with what surrounds it: the number of runtime calls
    made so far, and the states the subscribers were notified of (zustand
    calls its subscribers after every [set] with the state that [set]
    produced), oldest first. *)
Record World := {
  state : DataState;
  calls : nat;
  notified : list DataState
}.

Inductive exn := TypeError.

(** How a JavaScript evaluation ends: normally, or by a thrown exception. *)
Inductive completion (A : Type) :=
| Normal (a : A)
| Throw (e : exn).
Arguments Normal {A} a.
Arguments Throw {A} e.

Definition M (A : Type) : Type := World -> completion A * World.

Definition ret {A} (a : A) : M A := fun w => (Normal a, w).

Definition bind {A B} (m : M A) (k : A -> M B) : M B :=
  fun w =>
    match m w with
    | (Normal a, w') => k a w'
    | (Throw e, w') => (Throw e, w')
    end.

Definition lift {A} (c : completion A) : M A := fun w => (c, w).

Declare Scope store_scope.
Delimit Scope store_scope with store.
Notation "x <- m ;; k" := (bind m (fun x => k))
  (at level 61, m at next level, right associativity) : store_scope.
Notation "m ;; k" := (bind m (fun _ => k))
  (at level 61, right associativity) : store_scope.
Open Scope store_scope.

(** [get()] *)
Definition get : M DataState := fun w => (Normal (state w), w).

(** The store after a [set] that produced [st]. *)
Definition publish (st : DataState) (w : World) : World :=
  {| state := st; calls := calls w; notified := notified w ++ [st] |}.

(** [set(state => ({ routes: f(state.routes) }))]; the other collections are
    kept, as zustand merges the partial state it is given. *)
Definition set_routes (f : list Route.t -> list Route.t) : M unit :=
  fun w =>
    (Normal tt,
     publish {| warehouses := warehouses (state w);
                stores := stores (state w);
                trucks := trucks (state w);
                routes := f (routes (state w)) |} w).

(** [set(state => ({ warehouses: f(state.warehouses) }))] *)
Definition set_warehouses (f : list Warehouse.t -> list Warehouse.t) : M unit :=
  fun w =>
    (Normal tt,
     publish {| warehouses := f (warehouses (state w));
                stores := stores (state w);
                trucks := trucks (state w);
                routes := routes (state w) |} w).

(** [set(state => ({ stores: f(state.stores) }))] *)
Definition set_stores (f : list Store.t -> list Store.t) : M unit :=
  fun w =>
    (Normal tt,
     publish {| warehouses := warehouses (state w);
                stores := f (stores (state w));
                trucks := trucks (state w);
                routes := routes (state w) |} w).

(** [set(state => ({ trucks: f(state.trucks) }))] *)
Definition set_trucks (f : list Truck.t -> list Truck.t) : M unit :=
  fun w =>
    (Normal tt,
     publish {| warehouses := warehouses (state w);
                stores := stores (state w);
                trucks := f (trucks (state w));
                routes := routes (state w) |} w).

Section Store.
Variable rt : Runtime.

(** [Math.random().toString(36).substring(2, 9)] *)
Definition fresh_id : M string :=
  fun w => (Normal (random_id rt (calls w)),
            {| state := state w; calls := S (calls w);
               notified := notified w |}).

(** [new Date().toISOString()] *)
Definition now_iso : M string :=
  fun w => (Normal (Date_now rt (calls w)),
            {| state := state w; calls := S (calls w);
               notified := notified w |}).

(** [arr.forEach(f)] for a callback running in the store monad. *)
Fixpoint forEach {A} (arr : list A) (f : A -> M unit) : M unit :=
  match arr with
  | [] => ret tt
  | x :: rest => f x ;; forEach rest f
  end.

(** [arr.forEach((x, index) => ...)] for a callback that only updates local
    variables [L] (or throws); [index] is the position of the first element
    of [arr]. *)
Fixpoint forEach_local {A L} (f : L -> A -> nat -> completion L)
    (arr : list A) (index : nat) (s : L) : completion L :=
  match arr with
  | [] => Normal s
  | x :: rest =>
      match f s x index with
      | Normal s' => forEach_local f rest (S index) s'
      | Throw e => Throw e
      end
  end.

(** *** Actions on single collections *)

Definition deleteWarehouse (id : string) : M unit :=
  set_warehouses
    (filter (fun warehouse => negb (String.eqb (Warehouse.id warehouse) id))).

Definition addRoute (route : Route.without_id) : M unit :=
  newId <- fresh_id ;;
  set_routes (fun routes => routes ++ [Route.with_id route newId]).

Definition updateRoute (id : string) (data : Route.partial) : M unit :=
  set_routes
    (map (fun route =>
            if String.eqb (Route.id route) id then Route.spread route data
            else route)).

Definition deleteRoute (id : string) : M unit :=
  set_routes (filter (fun route => negb (String.eqb (Route.id route) id))).

Definition addWarehouse (warehouse : Warehouse.without_id) : M unit :=
  newId <- fresh_id ;;
  set_warehouses
    (fun warehouses => warehouses ++ [Warehouse.with_id warehouse newId]).

Definition updateWarehouse (id : string) (data : Warehouse.partial) : M unit :=
  set_warehouses
    (map (fun warehouse =>
            if String.eqb (Warehouse.id warehouse) id
            then Warehouse.spread warehouse data
            else warehouse)).

Definition addStore (store : Store.without_id) : M unit :=
  newId <- fresh_id ;;
  set_stores (fun stores => stores ++ [Store.with_id store newId]).

Definition updateStore (id : string) (data : Store.partial) : M unit :=
  set_stores
    (map (fun store =>
            if String.eqb (Store.id store) id then Store.spread store data
            else store)).

Definition deleteStore (id : string) : M unit :=
  set_stores (filter (fun store => negb (String.eqb (Store.id store) id))).

Definition addTruck (truck : Truck.without_id) : M unit :=
  newId <- fresh_id ;;
  set_trucks (fun trucks => trucks ++ [Truck.with_id truck newId]).

Definition updateTruck (id : string) (data : Truck.partial) : M unit :=
  set_trucks
    (map (fun truck =>
            if String.eqb (Truck.id truck) id then Truck.spread truck data
            else truck)).

Definition deleteTruck (id : string) : M unit :=
  set_trucks (filter (fun truck => negb (String.eqb (Truck.id truck) id))).

(** *** generateRoutes *)

Definition calculateDistance (lat1 lon1 lat2 lon2 : number) : number :=
  let R := 6371%float in
  let dLat := ((lat2 - lat1) * Math_PI / 180)%float in
  let dLon := ((lon2 - lon1) * Math_PI / 180)%float in
  let a :=
    (Math_sin rt (dLat / 2) * Math_sin rt (dLat / 2) +
     Math_cos rt (lat1 * Math_PI / 180) * Math_cos rt (lat2 * Math_PI / 180) *
     Math_sin rt (dLon / 2) * Math_sin rt (dLon / 2))%float in
  let c := (2 * Math_atan2 rt (Math_sqrt a) (Math_sqrt (1 - a)))%float in
  (R * c)%float.

(** [trucks.filter(t => t.warehouseId === warehouse.id)] *)
Definition warehouseTrucks_of (trucks : list Truck.t) (warehouse : Warehouse.t)
  : list Truck.t :=
  filter (fun t => String.eqb (Truck.warehouseId t) (Warehouse.id warehouse))
         trucks.

(** [stores.map(store => ({ ...store, distance: calculateDistance(...) }))];
    the added [distance] field is the second component. *)
Definition storesWithDistance_of (stores : list Store.t)
    (warehouse : Warehouse.t) : list (Store.t * number) :=
  map (fun store =>
         (store,
          calculateDistance
            (Location.lat (Warehouse.location warehouse))
            (Location.lng (Warehouse.location warehouse))
            (Location.lat (Store.location store))
            (Location.lng (Store.location store))))
      stores.

(** [(a, b) => a.distance - b.distance] *)
Definition by_distance (a b : Store.t * number) : number :=
  (snd a - snd b)%float.

(** [warehouseTrucks.forEach(truck => { truckAssignments[truck.id] = []; })] *)
Definition init_assignments (warehouseTrucks : list Truck.t)
  : JSObject.t (list string) :=
  fold_left (fun o truck => JSObject.set (Truck.id truck) [] o)
            warehouseTrucks JSObject.empty.

(** The body of [storesWithDistance.forEach((store, index) => ...)].
    [push] extends the array held under [truckId] in place. *)
Definition assign_store (warehouseTrucks : list Truck.t)
    (truckAssignments : JSObject.t (list string))
    (store : Store.t * number) (index : nat)
  : completion (JSObject.t (list string)) :=
  let truckIndex := index mod List.length warehouseTrucks in
  match nth_error warehouseTrucks truckIndex with
  | None => Throw TypeError
  | Some truck =>
      let truckId := Truck.id truck in
      match JSObject.get truckId truckAssignments with
      | None => Throw TypeError
      | Some arr =>
          Normal (JSObject.set truckId (arr ++ [Store.id (fst store)])
                               truckAssignments)
      end
  end.

(** The body of [storeIds.forEach(storeId => ...)]; the local variables are
    [(totalDistance, prevLat, prevLng)]. *)
Definition add_leg (stores : list Store.t)
    (acc : number * number * number) (storeId : string) (_ : nat)
  : completion (number * number * number) :=
  let '(totalDistance, prevLat, prevLng) := acc in
  match Array_find (fun s => String.eqb (Store.id s) storeId) stores with
  | None => Throw TypeError
  | Some store =>
      Normal ((totalDistance +
               calculateDistance prevLat prevLng
                 (Location.lat (Store.location store))
                 (Location.lng (Store.location store)))%float,
              Location.lat (Store.location store),
              Location.lng (Store.location store))
  end.

(** The body of [Object.entries(truckAssignments).forEach(...)]. *)
Definition create_route (warehouse : Warehouse.t) (stores : list Store.t)
    (trucks : list Truck.t) (entry : string * list string) : M unit :=
  let '(truckId, storeIds) := entry in
  if List.length storeIds =? 0 then ret tt
  else
    let wlat := Location.lat (Warehouse.location warehouse) in
    let wlng := Location.lng (Warehouse.location warehouse) in
    acc <- lift (forEach_local (add_leg stores) storeIds 0
                               (0%float, wlat, wlng)) ;;
    let '(totalDistance, prevLat, prevLng) := acc in
    let totalDistance :=
      (totalDistance + calculateDistance prevLat prevLng wlat wlng)%float in
    truck <- lift (match Array_find (fun t => String.eqb (Truck.id t) truckId)
                                    trucks with
                   | Some truck => Normal truck
                   | None => Throw TypeError
                   end) ;;
    let estimatedTime := (totalDistance / Truck.speed truck)%float in
    id <- fresh_id ;;
    created <- now_iso ;;
    let route :=
      {| Route.id := id;
         Route.warehouseId := Warehouse.id warehouse;
         Route.truckId := truckId;
         Route.stores := storeIds;
         Route.distance := toFixed2 totalDistance;
         Route.estimatedTime := toFixed2 estimatedTime;
         Route.created := created |} in
    set_routes (fun routes => routes ++ [route]).

(** The sorted [storesWithDistance] array of one warehouse. *)
Definition sorted_stores (stores : list Store.t) (warehouse : Warehouse.t)
  : list (Store.t * number) :=
  Array_sort by_distance (storesWithDistance_of stores warehouse).

(** [truckAssignments] of one warehouse once the stores are distributed. *)
Definition truckAssignments_of (stores : list Store.t) (trucks : list Truck.t)
    (warehouse : Warehouse.t) : completion (JSObject.t (list string)) :=
  let warehouseTrucks := warehouseTrucks_of trucks warehouse in
  forEach_local (assign_store warehouseTrucks) (sorted_stores stores warehouse) 0
                (init_assignments warehouseTrucks).

(** The body of [warehouses.forEach(warehouse => ...)]. *)
Definition route_warehouse (stores : list Store.t) (trucks : list Truck.t)
    (warehouse : Warehouse.t) : M unit :=
  let warehouseTrucks := warehouseTrucks_of trucks warehouse in
  if List.length warehouseTrucks =? 0 then ret tt
  else
    truckAssignments <- lift (truckAssignments_of stores trucks warehouse) ;;
    forEach (JSObject.entries truckAssignments)
            (create_route warehouse stores trucks).

Definition generateRoutes : M unit :=
  st <- get ;;
  set_routes (fun _ => []) ;;
  forEach (warehouses st) (route_warehouse (stores st) (trucks st)).

End Store.

(* ================================================================== *)
(** ** Readers of the store

    The pages take the collections from the store and derive what they
    display from them. *)

(** [arr.includes(x)] on an array of strings. *)
Definition Array_includes (x : string) (arr : list string) : bool :=
  existsb (String.eqb x) arr.

(** [new Set(arr).size] for an array of strings. *)
Definition Set_size (arr : list string) : nat :=
  List.length (nodup string_dec arr).

(** A string used as a condition: the empty string is the only falsy one. *)
Definition truthy (s : string) : bool := negb (String.eqb s "").

(** *** src/pages/stores/StoreDetailsPage.tsx *)

(** What [getServingWarehouse] returns: a warehouse, [undefined] when
    [warehouses.find] meets no warehouse of the route's [warehouseId], or
    [null] when no route lists the store. *)
Inductive serving :=
| Served (warehouse : Warehouse.t)
| Served_undefined
| Served_null.

(** [getServingWarehouse(storeId)], for the [warehouses] and [routes] the page
    took from the store; the loop returns at the first route listing the
    store. *)
Fixpoint getServingWarehouse (warehouses : list Warehouse.t)
    (routes : list Route.t) (storeId : string) : serving :=
  match routes with
  | [] => Served_null
  | route :: rest =>
      if Array_includes storeId (Route.stores route) then
        match Array_find (fun w => String.eqb (Warehouse.id w)
                                              (Route.warehouseId route))
                         warehouses with
        | Some warehouse => Served warehouse
        | None => Served_undefined
        end
      else getServingWarehouse warehouses rest storeId
  end.

(** *** src/pages/analysis/TimeAnalysisPage.tsx *)

(** [storeDistributionData], the data of the pie chart: for every warehouse
    its name and the number of different stores on the routes carrying its
    identifier. *)
Definition storeDistributionData (st : DataState) : list (string * nat) :=
  map (fun warehouse =>
         let warehouseRoutes :=
           filter (fun r => String.eqb (Route.warehouseId r)
                                       (Warehouse.id warehouse))
                  (routes st) in
         let storeCount := Set_size (flat_map Route.stores warehouseRoutes) in
         (Warehouse.name warehouse, storeCount))
      (warehouses st).

(** *** src/components/map/MapView.tsx *)

(** The props of [MapView]: [showRoutes] is [true] when it is not given,
    [selectedRoute] is a route identifier or [undefined] ([None]). *)
Record MapViewProps := {
  showRoutes : bool;
  selectedRoute : option string
}.

(** [<MapView />], as the dashboard renders it. *)
Definition default_props : MapViewProps :=
  {| showRoutes := true; selectedRoute := None |}.

(** [filteredRoutes]: the routes carrying the identifier [selectedRoute] when
    the prop is given and is not the empty string, all the routes
    otherwise. *)
Definition filteredRoutes (props : MapViewProps) (routes : list Route.t)
  : list Route.t :=
  match selectedRoute props with
  | Some id =>
      if truthy id
      then filter (fun route => String.eqb (Route.id route) id) routes
      else routes
  | None => routes
  end.

(** What the callback of [filteredRoutes.map] returns for a route: [null]
    when no warehouse carries the route's [warehouseId] or no store of the
    collection is listed by the route, and otherwise a [RouteLayer] for the
    warehouse and [routeStores], the stores of the collection that the route
    lists. *)
Definition route_layer (st : DataState) (route : Route.t)
  : option (Warehouse.t * list Store.t) :=
  match Array_find (fun w => String.eqb (Warehouse.id w)
                                        (Route.warehouseId route))
                   (warehouses st) with
  | None => None
  | Some warehouse =>
      let routeStores :=
        filter (fun s => Array_includes (Store.id s) (Route.stores route))
               (stores st) in
      if List.length routeStores =? 0 then None
      else Some (warehouse, routeStores)
  end.

(** What [MapView] renders under [Routes]: nothing when [showRoutes] is
    [false], and otherwise one child for every route of [filteredRoutes], in
    their order: [null] or a [RouteLayer]. *)
Definition route_layers (props : MapViewProps) (st : DataState)
  : list (option (Warehouse.t * list Store.t)) :=
  if showRoutes props
  then map (route_layer st) (filteredRoutes props (routes st))
  else [].

(** The [waypoints] of a [RouteLayer]: the warehouse, the stores in the
    order of the array it was given, and the warehouse again. *)
Definition waypoints (warehouse : Warehouse.t) (stores : list Store.t)
  : list Location.t :=
  [Warehouse.location warehouse]
  ++ map Store.location stores
  ++ [Warehouse.location warehouse].

(** *** ReportsPage

    [warehouseStores] starts as the object literal [{}] and is indexed by the
    [warehouseId] of the routes.  [warehouseStores[k]] is the array stored
    under [k] when [k] is an own property; otherwise it is the property that
    every object inherits from [Object.prototype] when [k] is one of the
    names below (a function, or [Object.prototype] itself for ["__proto__"]:
    a truthy value without a method [includes]), and [undefined] for every
    other [k].  The page assigns to [warehouseStores[k]] only after it has
    read a falsy value there, so the own properties are an association list
    that never holds one of these names. *)
Definition Object_prototype_names : list string :=
  ["constructor"; "hasOwnProperty"; "isPrototypeOf"; "propertyIsEnumerable";
   "toLocaleString"; "toString"; "valueOf"; "__proto__"; "__defineGetter__";
   "__defineSetter__"; "__lookupGetter__"; "__lookupSetter__"]%string.

Definition inherited (k : string) : bool :=
  existsb (String.eqb k) Object_prototype_names.

(** The body of [route.stores.forEach(storeId => ...)]: calling [includes]
    on a value that is not an array throws a [TypeError]. *)
Definition group_store (warehouseId : string)
    (warehouseStores : list (string * list string)) (storeId : string)
    (_ : nat) : completion (list (string * list string)) :=
  match JSObject.assoc_get warehouseId warehouseStores with
  | Some arr =>
      if negb (Array_includes storeId arr)
      then Normal (JSObject.assoc_set warehouseId (arr ++ [storeId])
                                      warehouseStores)
      else Normal warehouseStores
  | None => Throw TypeError
  end.

(** The body of [routes.forEach(route => ...)]. *)
Definition group_route (warehouseStores : list (string * list string))
    (route : Route.t) (_ : nat) : completion (list (string * list string)) :=
  let warehouseId := Route.warehouseId route in
  let falsy :=
    match JSObject.assoc_get warehouseId warehouseStores with
    | Some _ => false
    | None => negb (inherited warehouseId)
    end in
  let warehouseStores :=
    if falsy then JSObject.assoc_set warehouseId [] warehouseStores
    else warehouseStores in
  forEach_local (group_store warehouseId) (Route.stores route) 0
                warehouseStores.

(** [warehouseStores] once [routes.forEach] has run, as the list of its own
    properties. *)
Definition warehouseStores (routes : list Route.t)
  : completion (list (string * list string)) :=
  forEach_local group_route routes 0 [].

(* ================================================================== *)
(** ** The forms of the management page

    Every form holds the text of its input fields, checks it when it is
    submitted, and either records the error messages ([setErrors(newErrors)])
    and returns, or calls one action of the store followed by
    [onComplete()]. *)

(** What the forms take from the runtime: [Number(s)], the number a text
    stands for ([NaN] when it stands for none), and [s.trim()]. *)
Record Conversions := {
  Number : string -> number;
  String_trim : string -> string
}.

(** How [handleSubmit] ends: after [setErrors(newErrors)], or after
    [onComplete()]. *)
Inductive outcome (E : Type) :=
| Rejected (newErrors : E)
| Completed.
Arguments Rejected {E} newErrors.
Arguments Completed {E}.

(** *** TruckForm *)

Module TruckForm.
Record fields := {
  name : string;
  capacity : string;
  speed : string;
  warehouseId : string
}.

Record errors := {
  e_name : string;
  e_capacity : string;
  e_speed : string;
  e_warehouseId : string
}.

Definition set_name (e : errors) (msg : string) : errors :=
  {| e_name := msg; e_capacity := e_capacity e; e_speed := e_speed e;
     e_warehouseId := e_warehouseId e |}.
Definition set_capacity (e : errors) (msg : string) : errors :=
  {| e_name := e_name e; e_capacity := msg; e_speed := e_speed e;
     e_warehouseId := e_warehouseId e |}.
Definition set_speed (e : errors) (msg : string) : errors :=
  {| e_name := e_name e; e_capacity := e_capacity e; e_speed := msg;
     e_warehouseId := e_warehouseId e |}.
Definition set_warehouseId (e : errors) (msg : string) : errors :=
  {| e_name := e_name e; e_capacity := e_capacity e; e_speed := e_speed e;
     e_warehouseId := msg |}.

Section HandleSubmit.
Variable rt : Runtime.
Variable cv : Conversions.

(** [truckData] as the argument of [addTruck] and of [updateTruck]. *)
Definition truckData (form : fields) : Truck.without_id :=
  {| Truck.n_name := name form;
     Truck.n_capacity := Number cv (capacity form);
     Truck.n_speed := Number cv (speed form);
     Truck.n_warehouseId := warehouseId form |}.

Definition truckData_partial (form : fields) : Truck.partial :=
  {| Truck.p_id := None;
     Truck.p_name := Some (name form);
     Truck.p_capacity := Some (Number cv (capacity form));
     Truck.p_speed := Some (Number cv (speed form));
     Truck.p_warehouseId := Some (warehouseId form) |}.

(** The checks of the form: [newErrors] and [hasError] once all of them have
    run. *)
Definition validate (form : fields) : errors * bool :=
  let newErrors :=
    {| e_name := ""; e_capacity := ""; e_speed := ""; e_warehouseId := "" |} in
  let hasError := false in
  let '(newErrors, hasError) :=
    if negb (truthy (String_trim cv (name form)))
    then (set_name newErrors "Name is required", true)
    else (newErrors, hasError) in
  let '(newErrors, hasError) :=
    if negb (truthy (String_trim cv (capacity form)))
    then (set_capacity newErrors "Capacity is required", true)
    else if is_nan (Number cv (capacity form))
            || (Number cv (capacity form) <=? 0)%float
    then (set_capacity newErrors "Capacity must be a positive number", true)
    else (newErrors, hasError) in
  let '(newErrors, hasError) :=
    if negb (truthy (String_trim cv (speed form)))
    then (set_speed newErrors "Speed is required", true)
    else if is_nan (Number cv (speed form))
            || (Number cv (speed form) <=? 0)%float
    then (set_speed newErrors "Speed must be a positive number", true)
    else (newErrors, hasError) in
  let '(newErrors, hasError) :=
    if negb (truthy (warehouseId form))
    then (set_warehouseId newErrors "Please select a warehouse", true)
    else (newErrors, hasError) in
  (newErrors, hasError).

(** [handleSubmit] of a form opened for the truck [truck], or for a new
    truck. *)
Definition handleSubmit (truck : option Truck.t) (form : fields)
  : M (outcome errors) :=
  let '(newErrors, hasError) := validate form in
  if hasError then ret (Rejected newErrors)
  else
    match truck with
    | Some truck => updateTruck (Truck.id truck) (truckData_partial form)
    | None => addTruck rt (truckData form)
    end ;;
    ret Completed.
End HandleSubmit.
End TruckForm.

(** *** StoreForm *)

Module StoreForm.
Record fields := {
  name : string;
  lat : string;
  lng : string;
  demand : string;
  address : string;
  startTime : string;
  endTime : string
}.

Record errors := {
  e_name : string;
  e_lat : string;
  e_lng : string;
  e_demand : string;
  e_address : string;
  e_timeWindow : string
}.

Definition set_name (e : errors) (msg : string) : errors :=
  {| e_name := msg; e_lat := e_lat e; e_lng := e_lng e;
     e_demand := e_demand e; e_address := e_address e;
     e_timeWindow := e_timeWindow e |}.
Definition set_lat (e : errors) (msg : string) : errors :=
  {| e_name := e_name e; e_lat := msg; e_lng := e_lng e;
     e_demand := e_demand e; e_address := e_address e;
     e_timeWindow := e_timeWindow e |}.
Definition set_lng (e : errors) (msg : string) : errors :=
  {| e_name := e_name e; e_lat := e_lat e; e_lng := msg;
     e_demand := e_demand e; e_address := e_address e;
     e_timeWindow := e_timeWindow e |}.
Definition set_demand (e : errors) (msg : string) : errors :=
  {| e_name := e_name e; e_lat := e_lat e; e_lng := e_lng e;
     e_demand := msg; e_address := e_address e;
     e_timeWindow := e_timeWindow e |}.
Definition set_address (e : errors) (msg : string) : errors :=
  {| e_name := e_name e; e_lat := e_lat e; e_lng := e_lng e;
     e_demand := e_demand e; e_address := msg;
     e_timeWindow := e_timeWindow e |}.
Definition set_timeWindow (e : errors) (msg : string) : errors :=
  {| e_name := e_name e; e_lat := e_lat e; e_lng := e_lng e;
     e_demand := e_demand e; e_address := e_address e;
     e_timeWindow := msg |}.

Section HandleSubmit.
Variable rt : Runtime.
Variable cv : Conversions.

(** [startTime && endTime ? { start: startTime, end: endTime } : undefined] *)
Definition timeWindow_of (form : fields) : option TimeWindow.t :=
  if truthy (startTime form) && truthy (endTime form)
  then Some {| TimeWindow.start := startTime form;
               TimeWindow.end_ := endTime form |}
  else None.

(** [storeData] as the argument of [addStore] and of [updateStore]; the key
    [timeWindow] is always present. *)
Definition storeData (form : fields) : Store.without_id :=
  {| Store.n_name := name form;
     Store.n_location := {| Location.lat := Number cv (lat form);
                            Location.lng := Number cv (lng form) |};
     Store.n_demand := Number cv (demand form);
     Store.n_address := address form;
     Store.n_timeWindow := timeWindow_of form |}.

Definition storeData_partial (form : fields) : Store.partial :=
  {| Store.p_id := None;
     Store.p_name := Some (name form);
     Store.p_location := Some {| Location.lat := Number cv (lat form);
                                 Location.lng := Number cv (lng form) |};
     Store.p_demand := Some (Number cv (demand form));
     Store.p_address := Some (address form);
     Store.p_timeWindow := Some (timeWindow_of form) |}.

Definition validate (form : fields) : errors * bool :=
  let newErrors :=
    {| e_name := ""; e_lat := ""; e_lng := ""; e_demand := "";
       e_address := ""; e_timeWindow := "" |} in
  let hasError := false in
  let '(newErrors, hasError) :=
    if negb (truthy (String_trim cv (name form)))
    then (set_name newErrors "Name is required", true)
    else (newErrors, hasError) in
  let '(newErrors, hasError) :=
    if negb (truthy (String_trim cv (lat form)))
    then (set_lat newErrors "Latitude is required", true)
    else if is_nan (Number cv (lat form))
            || (Number cv (lat form) <? -90)%float
            || (90 <? Number cv (lat form))%float
    then (set_lat newErrors "Latitude must be between -90 and 90", true)
    else (newErrors, hasError) in
  let '(newErrors, hasError) :=
    if negb (truthy (String_trim cv (lng form)))
    then (set_lng newErrors "Longitude is required", true)
    else if is_nan (Number cv (lng form))
            || (Number cv (lng form) <? -180)%float
            || (180 <? Number cv (lng form))%float
    then (set_lng newErrors "Longitude must be between -180 and 180", true)
    else (newErrors, hasError) in
  let '(newErrors, hasError) :=
    if negb (truthy (String_trim cv (demand form)))
    then (set_demand newErrors "Demand is required", true)
    else if is_nan (Number cv (demand form))
            || (Number cv (demand form) <=? 0)%float
    then (set_demand newErrors "Demand must be a positive number", true)
    else (newErrors, hasError) in
  let '(newErrors, hasError) :=
    if negb (truthy (String_trim cv (address form)))
    then (set_address newErrors "Address is required", true)
    else (newErrors, hasError) in
  let '(newErrors, hasError) :=
    if (truthy (startTime form) && negb (truthy (endTime form)))
       || (negb (truthy (startTime form)) && truthy (endTime form))
    then (set_timeWindow newErrors "Both start and end time must be provided",
          true)
    else (newErrors, hasError) in
  (newErrors, hasError).

Definition handleSubmit (store : option Store.t) (form : fields)
  : M (outcome errors) :=
  let '(newErrors, hasError) := validate form in
  if hasError then ret (Rejected newErrors)
  else
    match store with
    | Some store => updateStore (Store.id store) (storeData_partial form)
    | None => addStore rt (storeData form)
    end ;;
    ret Completed.
End HandleSubmit.
End StoreForm.

(** *** WarehouseForm *)

Module WarehouseForm.
Record fields := {
  name : string;
  lat : string;
  lng : string;
  capacity : string;
  address : string
}.

Record errors := {
  e_name : string;
  e_lat : string;
  e_lng : string;
  e_capacity : string;
  e_address : string
}.

Definition set_name (e : errors) (msg : string) : errors :=
  {| e_name := msg; e_lat := e_lat e; e_lng := e_lng e;
     e_capacity := e_capacity e; e_address := e_address e |}.
Definition set_lat (e : errors) (msg : string) : errors :=
  {| e_name := e_name e; e_lat := msg; e_lng := e_lng e;
     e_capacity := e_capacity e; e_address := e_address e |}.
Definition set_lng (e : errors) (msg : string) : errors :=
  {| e_name := e_name e; e_lat := e_lat e; e_lng := msg;
     e_capacity := e_capacity e; e_address := e_address e |}.
Definition set_capacity (e : errors) (msg : string) : errors :=
  {| e_name := e_name e; e_lat := e_lat e; e_lng := e_lng e;
     e_capacity := msg; e_address := e_address e |}.
Definition set_address (e : errors) (msg : string) : errors :=
  {| e_name := e_name e; e_lat := e_lat e; e_lng := e_lng e;
     e_capacity := e_capacity e; e_address := msg |}.

Section HandleSubmit.
Variable rt : Runtime.
Variable cv : Conversions.

Definition warehouseData (form : fields) : Warehouse.without_id :=
  {| Warehouse.n_name := name form;
     Warehouse.n_location := {| Location.lat := Number cv (lat form);
                                Location.lng := Number cv (lng form) |};
     Warehouse.n_capacity := Number cv (capacity form);
     Warehouse.n_address := address form |}.

Definition warehouseData_partial (form : fields) : Warehouse.partial :=
  {| Warehouse.p_id := None;
     Warehouse.p_name := Some (name form);
     Warehouse.p_location := Some {| Location.lat := Number cv (lat form);
                                     Location.lng := Number cv (lng form) |};
     Warehouse.p_capacity := Some (Number cv (capacity form));
     Warehouse.p_address := Some (address form) |}.

Definition validate (form : fields) : errors * bool :=
  let newErrors :=
    {| e_name := ""; e_lat := ""; e_lng := ""; e_capacity := "";
       e_address := "" |} in
  let hasError := false in
  let '(newErrors, hasError) :=
    if negb (truthy (String_trim cv (name form)))
    then (set_name newErrors "Name is required", true)
    else (newErrors, hasError) in
  let '(newErrors, hasError) :=
    if negb (truthy (String_trim cv (lat form)))
    then (set_lat newErrors "Latitude is required", true)
    else if is_nan (Number cv (lat form))
            || (Number cv (lat form) <? -90)%float
            || (90 <? Number cv (lat form))%float
    then (set_lat newErrors "Latitude must be between -90 and 90", true)
    else (newErrors, hasError) in
  let '(newErrors, hasError) :=
    if negb (truthy (String_trim cv (lng form)))
    then (set_lng newErrors "Longitude is required", true)
    else if is_nan (Number cv (lng form))
            || (Number cv (lng form) <? -180)%float
            || (180 <? Number cv (lng form))%float
    then (set_lng newErrors "Longitude must be between -180 and 180", true)
    else (newErrors, hasError) in
  let '(newErrors, hasError) :=
    if negb (truthy (String_trim cv (capacity form)))
    then (set_capacity newErrors "Capacity is required", true)
    else if is_nan (Number cv (capacity form))
            || (Number cv (capacity form) <=? 0)%float
    then (set_capacity newErrors "Capacity must be a positive number", true)
    else (newErrors, hasError) in
  let '(newErrors, hasError) :=
    if negb (truthy (String_trim cv (address form)))
    then (set_address newErrors "Address is required", true)
    else (newErrors, hasError) in
  (newErrors, hasError).

Definition handleSubmit (warehouse : option Warehouse.t) (form : fields)
  : M (outcome errors) :=
  let '(newErrors, hasError) := validate form in
  if hasError then ret (Rejected newErrors)
  else
    match warehouse with
    | Some warehouse =>
        updateWarehouse (Warehouse.id warehouse) (warehouseData_partial form)
    | None => addWarehouse rt (warehouseData form)
    end ;;
    ret Completed.
End HandleSubmit.
End WarehouseForm.

(* ================================================================== *)
(** ** A sample runtime and the sample data

    ECMAScript leaves [Math.sin], [Math.cos] and [Math.atan2] to the
    implementation ("implementation-approximated").  The closed examples below
    run the store with truncated power series for them; the theorems hold for
    every runtime. *)

Module Sample.
Open Scope float_scope.

(** [term + next + ...], [fuel] terms of an alternating factorial series. *)
Fixpoint alt_series (fuel : nat) (k term x2 : float) : float :=
  match fuel with
  | O => 0
  | S fuel' =>
      term + alt_series fuel' (k + 2) (- term * x2 / ((k + 1) * (k + 2))) x2
  end.

Definition sin (x : float) : float := alt_series 14 1 x (x * x).
Definition cos (x : float) : float := alt_series 14 0 1 (x * x).

Fixpoint atan_series (fuel : nat) (k power z2 : float) : float :=
  match fuel with
  | O => 0
  | S fuel' => power / k + atan_series fuel' (k + 2) (- power * z2) z2
  end.

Definition halve_angle (z : float) : float := z / (1 + sqrt (1 + z * z)).

Definition atan_unit (z : float) : float :=
  4 * (let u := halve_angle (halve_angle z) in atan_series 14 1 u (u * u)).

Definition atan_pos (z : float) : float :=
  if 1 <? z then Math_PI / 2 - atan_unit (1 / z) else atan_unit z.

Definition atan (z : float) : float :=
  if z <? 0 then - atan_pos (- z) else atan_pos z.

Definition atan2 (y x : float) : float :=
  if x =? 0 then
    if 0 <? y then Math_PI / 2 else if y <? 0 then - (Math_PI / 2) else 0
  else if 0 <? x then atan (y / x)
  else if y <? 0 then atan (y / x) - Math_PI else atan (y / x) + Math_PI.

Close Scope float_scope.

(** Identifiers ["r"], ["ri"], ["rii"], ... and timestamps ["d"], ["di"],
    ["dii"], ...: one more letter for each runtime call made before. *)
Fixpoint tally (n : nat) : string :=
  match n with
  | O => ""
  | S n' => String "i" (tally n')
  end.

Definition runtime : Runtime :=
  {| Math_sin := sin;
     Math_cos := cos;
     Math_atan2 := atan2;
     random_id := fun n => String "r" (tally n);
     Date_now := fun n => String "d" (tally n) |}.

Open Scope float_scope.

(** [sampleWarehouses], [sampleStores] and [sampleTrucks] of the source. *)
Definition central : Warehouse.t :=
  {| Warehouse.id := "w1"; Warehouse.name := "Central Warehouse";
     Warehouse.location := {| Location.lat := 40.7128; Location.lng := -74.0060 |};
     Warehouse.capacity := 1000;
     Warehouse.address := "123 Main St, New York, NY" |}.

Definition west : Warehouse.t :=
  {| Warehouse.id := "w2"; Warehouse.name := "West Distribution Center";
     Warehouse.location := {| Location.lat := 37.7749; Location.lng := -122.4194 |};
     Warehouse.capacity := 800;
     Warehouse.address := "456 Market St, San Francisco, CA" |}.

Definition sampleWarehouses : list Warehouse.t := [central; west].

Definition downtown : Store.t :=
  {| Store.id := "s1"; Store.name := "Downtown Store";
     Store.location := {| Location.lat := 40.7112; Location.lng := -74.0055 |};
     Store.demand := 50; Store.address := "789 Broadway, New York, NY";
     Store.timeWindow :=
       Some {| TimeWindow.start := "09:00"; TimeWindow.end_ := "17:00" |} |}.

Definition uptown : Store.t :=
  {| Store.id := "s2"; Store.name := "Uptown Store";
     Store.location := {| Location.lat := 40.8075; Location.lng := -73.9626 |};
     Store.demand := 30; Store.address := "555 5th Ave, New York, NY";
     Store.timeWindow :=
       Some {| TimeWindow.start := "08:00"; TimeWindow.end_ := "18:00" |} |}.

Definition sf_downtown : Store.t :=
  {| Store.id := "s3"; Store.name := "SF Downtown";
     Store.location := {| Location.lat := 37.7833; Location.lng := -122.4167 |};
     Store.demand := 40; Store.address := "123 Market St, San Francisco, CA";
     Store.timeWindow :=
       Some {| TimeWindow.start := "10:00"; TimeWindow.end_ := "19:00" |} |}.

Definition sampleStores : list Store.t := [downtown; uptown; sf_downtown].

Definition truck1 : Truck.t :=
  {| Truck.id := "t1"; Truck.name := "Truck 001"; Truck.capacity := 200;
     Truck.speed := 60; Truck.warehouseId := "w1" |}.

Definition truck2 : Truck.t :=
  {| Truck.id := "t2"; Truck.name := "Truck 002"; Truck.capacity := 150;
     Truck.speed := 55; Truck.warehouseId := "w1" |}.

Definition truck3 : Truck.t :=
  {| Truck.id := "t3"; Truck.name := "Truck 003"; Truck.capacity := 180;
     Truck.speed := 65; Truck.warehouseId := "w2" |}.

Definition sampleTrucks : list Truck.t := [truck1; truck2; truck3].

(** The store as [create] initialises it. *)
Definition initial : World :=
  {| state := {| warehouses := sampleWarehouses; stores := sampleStores;
                 trucks := sampleTrucks; routes := [] |};
     calls := 0%nat; notified := [] |}.

(** One depot at (0, 0), two vehicles of 60 km/h, and three destinations on
    the equator at 1, 2 and 3 degrees of longitude, listed farthest first. *)
Definition origin : Warehouse.t :=
  {| Warehouse.id := "D"; Warehouse.name := "Origin";
     Warehouse.location := {| Location.lat := 0; Location.lng := 0 |};
     Warehouse.capacity := 100; Warehouse.address := "Null Island" |}.

Definition on_equator (id : string) (lng : number) : Store.t :=
  {| Store.id := id; Store.name := id;
     Store.location := {| Location.lat := 0; Location.lng := lng |};
     Store.demand := 10; Store.address := "Equator"; Store.timeWindow := None |}.

Definition vehicle (id : string) : Truck.t :=
  {| Truck.id := id; Truck.name := id; Truck.capacity := 100;
     Truck.speed := 60; Truck.warehouseId := "D" |}.

Definition equator : World :=
  {| state := {| warehouses := [origin];
                 stores := [on_equator "D3" 3; on_equator "D1" 1;
                            on_equator "D2" 2];
                 trucks := [vehicle "V1"; vehicle "V2"];
                 routes := [] |};
     calls := 0%nat; notified := [] |}.



(** One depot at latitude 2.5 on the prime meridian, one vehicle, and three
    destinations: two on the depot's parallel, at 3 and at 1 degrees of
    longitude, and between them in the collection the one at the depot's
    antipode. *)
Definition meridian_depot : Warehouse.t :=
  {| Warehouse.id := "W"; Warehouse.name := "Meridian Depot";
     Warehouse.location := {| Location.lat := 2.5; Location.lng := 0 |};
     Warehouse.capacity := 100; Warehouse.address := "Gulf of Guinea" |}.

Definition destination (id : string) (lat lng : number) : Store.t :=
  {| Store.id := id; Store.name := id;
     Store.location := {| Location.lat := lat; Location.lng := lng |};
     Store.demand := 10; Store.address := id; Store.timeWindow := None |}.

Definition antipodal_stores : list Store.t :=
  [destination "A" 2.5 3; destination "B" (-2.5) 180; destination "C" 2.5 1].

Definition antipodal : World :=
  {| state := {| warehouses := [meridian_depot];
                 stores := antipodal_stores;
                 trucks := [{| Truck.id := "T"; Truck.name := "T";
                               Truck.capacity := 100; Truck.speed := 60;
                               Truck.warehouseId := "W" |}];
                 routes := [] |};
     calls := 0%nat; notified := [] |}.

(** A depot whose only truck has speed [0]. *)
Definition stalled_truck : Truck.t :=
  {| Truck.id := "t0"; Truck.name := "Truck 000"; Truck.capacity := 100;
     Truck.speed := 0; Truck.warehouseId := "w1" |}.

Definition stalled : World :=
  {| state := {| warehouses := [central]; stores := [downtown];
                 trucks := [stalled_truck]; routes := [] |};
     calls := 0%nat; notified := [] |}.

(** A depot whose only truck is identified by ["__proto__"]. *)
Definition proto_truck : Truck.t :=
  {| Truck.id := "__proto__"; Truck.name := "Truck 00P"; Truck.capacity := 100;
     Truck.speed := 60; Truck.warehouseId := "w1" |}.

Definition proto_world : World :=
  {| state := {| warehouses := [central]; stores := [downtown];
                 trucks := [proto_truck]; routes := [] |};
     calls := 0%nat; notified := [] |}.

(** A store holding two routes, as [addRoute] could have left it. *)
Definition route_a : Route.t :=
  {| Route.id := "ra"; Route.warehouseId := "w1"; Route.truckId := "t1";
     Route.stores := ["s1"%string]; Route.distance := 0.36;
     Route.estimatedTime := 0.01; Route.created := "2024-01-01T00:00:00.000Z" |}.

Definition route_b : Route.t :=
  {| Route.id := "rb"; Route.warehouseId := "w2"; Route.truckId := "t3";
     Route.stores := ["s3"%string]; Route.distance := 1.92;
     Route.estimatedTime := 0.03; Route.created := "2024-01-01T00:00:00.000Z" |}.

Definition dispatched : World :=
  {| state := {| warehouses := sampleWarehouses; stores := sampleStores;
                 trucks := sampleTrucks; routes := [route_a; route_b] |};
     calls := 0%nat; notified := [] |}.

(** [{ id: 'rb' }] and [{ distance: 2 }] as [Partial<Route>]. *)
Definition rename_to_rb : Route.partial :=
  {| Route.p_id := Some "rb"%string; Route.p_warehouseId := None;
     Route.p_truckId := None; Route.p_stores := None; Route.p_distance := None;
     Route.p_estimatedTime := None; Route.p_created := None |}.

Definition new_distance : Route.partial :=
  {| Route.p_id := None; Route.p_warehouseId := None; Route.p_truckId := None;
     Route.p_stores := None; Route.p_distance := Some 2;
     Route.p_estimatedTime := None; Route.p_created := None |}.

Definition manual_route : Route.without_id :=
  {| Route.n_warehouseId := "w1"; Route.n_truckId := "t2";
     Route.n_stores := ["s2"%string]; Route.n_distance := 22.29;
     Route.n_estimatedTime := 0.41;
     Route.n_created := "2024-01-02T00:00:00.000Z" |}.

(** A runtime for short distances: the sine of a small angle is the angle,
    its cosine is one. *)
Definition small_angles : Runtime :=
  {| Math_sin := fun x => x;
     Math_cos := fun _ => 1;
     Math_atan2 := atan2;
     random_id := fun n => String "r" (tally n);
     Date_now := fun n => String "d" (tally n) |}.

(** [{ warehouseId: 'w2' }] as [Partial<Truck>]. *)
Definition move_west : Truck.partial :=
  {| Truck.p_id := None; Truck.p_name := None; Truck.p_capacity := None;
     Truck.p_speed := None; Truck.p_warehouseId := Some "w2"%string |}.

(** A route filed under the identifier ["constructor"]. *)
Definition misfiled : Route.t :=
  {| Route.id := "rc"; Route.warehouseId := "constructor";
     Route.truckId := "t1"; Route.stores := ["s1"%string];
     Route.distance := 0.36; Route.estimatedTime := 0.01;
     Route.created := "2024-01-03T00:00:00.000Z" |}.

(** The sample data with the stores in the opposite order. *)
Definition reordered : World :=
  {| state :=
       {| warehouses := sampleWarehouses;
          stores := rev sampleStores;
          trucks := sampleTrucks;
          routes := [] |};
     calls := 0%nat; notified := [] |}.

(** The sample data with other capacities, demands and time windows. *)
Definition overloaded : World :=
  {| state :=
       {| warehouses :=
            map (fun w => Warehouse.spread w
                   {| Warehouse.p_id := None; Warehouse.p_name := None;
                      Warehouse.p_location := None;
                      Warehouse.p_capacity := Some 1;
                      Warehouse.p_address := None |})
                sampleWarehouses;
          stores :=
            map (fun s => Store.spread s
                   {| Store.p_id := None; Store.p_name := None;
                      Store.p_location := None; Store.p_demand := Some 5000;
                      Store.p_address := None;
                      Store.p_timeWindow := Some None |})
                sampleStores;
          trucks :=
            map (fun t => Truck.spread t
                   {| Truck.p_id := None; Truck.p_name := None;
                      Truck.p_capacity := Some 1; Truck.p_speed := None;
                      Truck.p_warehouseId := None |})
                sampleTrucks;
          routes := [] |};
     calls := 0%nat; notified := [] |}.

(** Conversions for the closed examples: [Number] reads a sequence of
    decimal digits and gives [NaN] for any other text, [trim] removes the
    blanks at both ends. *)
Fixpoint read_digits (acc : float) (s : string) : float :=
  match s with
  | EmptyString => acc
  | String c rest =>
      match JSObject.digit_of c with
      | Some d => read_digits (acc * 10 + of_uint63 (Uint63.of_Z (Z.of_N d))) rest
      | None => nan
      end
  end.

Fixpoint trim_start (s : string) : string :=
  match s with
  | String c rest => if Ascii.eqb c " " then trim_start rest else s
  | EmptyString => s
  end.

Fixpoint trim_end (s : string) : string :=
  match s with
  | String c rest =>
      let kept := trim_end rest in
      if (Ascii.eqb c " " && String.eqb kept EmptyString)%bool
      then EmptyString else String c kept
  | EmptyString => s
  end.

Definition conversions : Conversions :=
  {| Number := read_digits 0;
     String_trim := fun s => trim_end (trim_start s) |}.

(** The truck form filled in for a truck of 70 km/h, and with a speed of
    zero. *)
Definition truck_entry : TruckForm.fields :=
  {| TruckForm.name := "Truck 004"; TruckForm.capacity := "120";
     TruckForm.speed := "70"; TruckForm.warehouseId := "w2" |}.

Definition stalled_entry : TruckForm.fields :=
  {| TruckForm.name := "Truck 005"; TruckForm.capacity := "120";
     TruckForm.speed := "0"; TruckForm.warehouseId := "w2" |}.

(** The store form filled in without business hours, and with a latitude
    off the globe. *)
Definition store_entry : StoreForm.fields :=
  {| StoreForm.name := "Harbour Store"; StoreForm.lat := "40";
     StoreForm.lng := "74"; StoreForm.demand := "25";
     StoreForm.address := "1 Harbour Rd"; StoreForm.startTime := "";
     StoreForm.endTime := "" |}.

(** The warehouse form filled in. *)
Definition warehouse_entry : WarehouseForm.fields :=
  {| WarehouseForm.name := "North Depot"; WarehouseForm.lat := "45";
     WarehouseForm.lng := "93"; WarehouseForm.capacity := "500";
     WarehouseForm.address := "2 North Ave" |}.

Close Scope float_scope.
End Sample.


(* ================================================================== *)
(** ** Vocabulary of the properties *)

(** The elements of [l] whose position, counted from [index], satisfies [p]. *)
Fixpoint select {A} (p : nat -> bool) (index : nat) (l : list A) : list A :=
  match l with
  | [] => []
  | x :: rest =>
      if p index then x :: select p (S index) rest
      else select p (S index) rest
  end.

(** The share of vehicle [k] in a round-robin over [M] vehicles: the elements
    at positions [k], [k + M], [k + 2M], ... *)
Definition share {A} (M k : nat) (l : list A) : list A :=
  select (fun i => i mod M =? k) 0 l.

(** Position [index] of the sorted list is served by a truck named [key]. *)
Definition owner_is (warehouseTrucks : list Truck.t) (key : string)
    (index : nat) : bool :=
  match nth_error warehouseTrucks (index mod List.length warehouseTrucks) with
  | Some truck => String.eqb (Truck.id truck) key
  | None => false
  end.

Definition has_truck_id (trucks : list Truck.t) (key : string) : bool :=
  existsb (fun t => String.eqb (Truck.id t) key) trucks.

Definition store_ids (l : list (Store.t * number)) : list string :=
  map (fun s => Store.id (fst s)) l.

(** The number of destinations assigned to a truck in [truckAssignments]. *)
Definition assigned_count (truckAssignments : JSObject.t (list string))
    (truck : Truck.t) : nat :=
  match JSObject.get (Truck.id truck) truckAssignments with
  | Some storeIds => List.length storeIds
  | None => 0
  end.

(** No store of the list has the distance [NaN]. *)
Definition distances_are_numbers (l : list (Store.t * number)) : Prop :=
  Forall (fun a => is_nan (snd a) = false) l.

(** No two stores of the list are at the same distance. *)
Definition distances_differ (l : list (Store.t * number)) : Prop :=
  forall a b, In a l -> In b l -> (snd a =? snd b)%float = true -> a = b.


(** A result of positive sign: a positive finite number or [+Infinity]. *)
Definition positive_result (x : spec_float) : Prop :=
  match x with
  | S754_finite false _ _ | S754_infinity false => True
  | _ => False
  end.

(** Ascending distance. *)
Definition closer_or_equal (a b : Store.t * number) : Prop :=
  (snd a <=? snd b)%float = true.

(** An object built from [{}] by assignments: its own keys are distinct and
    ["__proto__"] is not among them. *)
Definition well_formed {V} (o : JSObject.t V) : Prop :=
  NoDup (map fst (JSObject.own o)) /\
  ~ In JSObject.proto_key (map fst (JSObject.own o)).

Section Vocabulary.
Variable rt : Runtime.

(** Great-circle distance between two locations. *)
Definition GeoDistance (a b : Location.t) : number :=
  calculateDistance rt (Location.lat a) (Location.lng a)
                    (Location.lat b) (Location.lng b).




(** depot -> the stops in order -> back to the depot. *)
Definition round_trip (warehouse : Warehouse.t) (stops : list Store.t)
  : list Location.t :=
  Warehouse.location warehouse :: map Store.location stops
    ++ [Warehouse.location warehouse].

(** The entries of [truckAssignments] that [create_route] turns into routes. *)
Definition route_entries (stores : list Store.t) (trucks : list Truck.t)
    (warehouse : Warehouse.t) : list (string * list string) :=
  if List.length (warehouseTrucks_of trucks warehouse) =? 0 then []
  else
    match truckAssignments_of rt stores trucks warehouse with
    | Normal truckAssignments =>
        filter (fun e => negb (List.length (snd e) =? 0))
               (JSObject.entries truckAssignments)
    | Throw _ => []
    end.

Definition jobs (st : DataState) : list (Warehouse.t * (string * list string)) :=
  flat_map (fun w => map (pair w) (route_entries (stores st) (trucks st) w))
           (warehouses st).

(** [totalDistance] and [truck.speed] as [create_route] computes them. *)
Definition totalDistance_of (stores : list Store.t) (warehouse : Warehouse.t)
    (storeIds : list string) : number :=
  let wlat := Location.lat (Warehouse.location warehouse) in
  let wlng := Location.lng (Warehouse.location warehouse) in
  match forEach_local (add_leg rt stores) storeIds 0 (0%float, wlat, wlng) with
  | Normal (totalDistance, prevLat, prevLng) =>
      (totalDistance + calculateDistance rt prevLat prevLng wlat wlng)%float
  | Throw _ => nan
  end.

Definition speed_of (trucks : list Truck.t) (truckId : string) : number :=
  match Array_find (fun t => String.eqb (Truck.id t) truckId) trucks with
  | Some truck => Truck.speed truck
  | None => nan
  end.

(** The route [create_route] appends for a job when [c] runtime calls have
    been made before. *)
Definition build_route (stores : list Store.t) (trucks : list Truck.t)
    (job : Warehouse.t * (string * list string)) (c : nat) : Route.t :=
  let '(warehouse, (truckId, storeIds)) := job in
  let totalDistance := totalDistance_of stores warehouse storeIds in
  {| Route.id := random_id rt c;
     Route.warehouseId := Warehouse.id warehouse;
     Route.truckId := truckId;
     Route.stores := storeIds;
     Route.distance := toFixed2 totalDistance;
     Route.estimatedTime :=
       toFixed2 (totalDistance / speed_of trucks truckId)%float;
     Route.created := Date_now rt (S c) |}.

Fixpoint build_routes (stores : list Store.t) (trucks : list Truck.t)
    (js : list (Warehouse.t * (string * list string))) (c : nat)
  : list Route.t :=
  match js with
  | [] => []
  | job :: rest =>
      build_route stores trucks job c :: build_routes stores trucks rest (2 + c)
  end.

End Vocabulary.

(** The identifiers in [storeIds] name stores of the collection, and an entry
    of [truckAssignments] names a truck and holds such identifiers: what keeps
    the [find] calls of [create_route] from returning [undefined]. *)
Definition known_stores (stores : list Store.t) (storeIds : list string) : Prop :=
  forall id, In id storeIds -> exists s, In s stores /\ Store.id s = id.

Definition valid_entry (stores : list Store.t) (trucks : list Truck.t)
    (e : string * list string) : Prop :=
  known_stores stores (snd e) /\ has_truck_id trucks (fst e) = true.

(** The job is one of the depot [warehouseId] for the key [truckId]. *)
Definition job_is (warehouseId truckId : string)
    (job : Warehouse.t * (string * list string)) : bool :=
  String.eqb (Warehouse.id (fst job)) warehouseId &&
  String.eqb (fst (snd job)) truckId.

(** The state with other routes. *)
Definition with_routes (st : DataState) (rs : list Route.t) : DataState :=
  {| warehouses := warehouses st; stores := stores st; trucks := trucks st;
     routes := rs |}.

(** The world after [create_route] appended the route [r]: two runtime calls
    and one [set]. *)
Definition push (w : World) (r : Route.t) : World :=
  {| state := with_routes (state w) (routes (state w) ++ [r]);
     calls := 2 + calls w;
     notified := notified w
                 ++ [with_routes (state w) (routes (state w) ++ [r])] |}.

(** The world after the routes [rs] were appended one by one. *)
Fixpoint emit (w : World) (rs : list Route.t) : World :=
  match rs with
  | [] => w
  | r :: rest => emit (push w r) rest
  end.

(** The world after [set({ routes: [] })]. *)
Definition cleared (w : World) : World :=
  publish (with_routes (state w) []) w.

(** A route without its identifier and timestamp. *)
Definition content (r : Route.t)
  : string * string * list string * number * number :=
  (Route.warehouseId r, Route.truckId r, Route.stores r,
   Route.distance r, Route.estimatedTime r).

(** Two routes that agree on everything but identifier and timestamp. *)
Definition same_content (r1 r2 : Route.t) : Prop :=
  Route.warehouseId r1 = Route.warehouseId r2 /\
  Route.truckId r1 = Route.truckId r2 /\
  Route.stores r1 = Route.stores r2 /\
  Route.distance r1 = Route.distance r2 /\
  Route.estimatedTime r1 = Route.estimatedTime r2.

(** What the forms let through: a speed, a capacity or a demand above zero,
    a latitude within -90 .. 90 and a longitude within -180 .. 180. *)
Definition within (lo hi x : number) : bool :=
  ((lo <=? x) && (x <=? hi))%float.

Definition on_the_globe (l : Location.t) : bool :=
  within (-90) 90 (Location.lat l) && within (-180) 180 (Location.lng l).

Definition sound_truck (t : Truck.t) : bool :=
  ((0 <? Truck.speed t) && (0 <? Truck.capacity t))%float.

Definition sound_store (s : Store.t) : bool :=
  on_the_globe (Store.location s) && (0 <? Store.demand s)%float.

Definition sound_warehouse (w : Warehouse.t) : bool :=
  on_the_globe (Warehouse.location w) && (0 <? Warehouse.capacity w)%float.

(** What [generateRoutes] reads of a warehouse, of a store and of a truck. *)
Definition routing_warehouse (w : Warehouse.t) : string * Location.t :=
  (Warehouse.id w, Warehouse.location w).

Definition routing_store (s : Store.t) : string * Location.t :=
  (Store.id s, Store.location s).

Definition routing_truck (t : Truck.t) : string * number * string :=
  (Truck.id t, Truck.speed t, Truck.warehouseId t).

(** Two numbers that are equal or opposite. *)
Definition mirrored (a b : number) : Prop := a = b \/ a = (- b)%float.

(** A route the reports page cannot group: it lists a store under a
    [warehouseId] that is a name inherited from [Object.prototype]. *)
Definition unreadable (r : Route.t) : bool :=
  inherited (Route.warehouseId r) && negb (List.length (Route.stores r) =? 0).

(** The store identifiers grouped under a key, none when the key is absent. *)
Definition group_of (k : string) (groups : list (string * list string))
  : list string :=
  match JSObject.assoc_get k groups with
  | Some arr => arr
  | None => []
  end.

(** Groups as the reports page builds them: no key is a name of
    [Object.prototype] and no identifier is listed twice. *)
Definition grouped (groups : list (string * list string)) : Prop :=
  forall k arr, JSObject.assoc_get k groups = Some arr ->
                NoDup arr /\ inherited k = false.

(** The number of routes of a (depot, vehicle) pair. *)
Definition count_routes (warehouseId truckId : string) (rs : list Route.t)
  : nat :=
  List.length
    (filter (fun r => String.eqb (Route.warehouseId r) warehouseId &&
                      String.eqb (Route.truckId r) truckId) rs).


(* ================================================================== *)
(** * Properties *)

Unset Implicit Arguments.

(** ** The order of numbers

    [<?], [<=?] and [=?] on binary64 values are specified by [SFcompare] on
    their sign-mantissa-exponent form; away from [NaN] they form a total
    preorder. *)

Module NumberOrder.

Ltac split_compare :=
  repeat match goal with
    | H : context [Z.compare ?x ?y] |- _ => destruct (Z.compare_spec x y)
    | |- context [Z.compare ?x ?y] => destruct (Z.compare_spec x y)
    | H : context [Pos.compare_cont Eq ?x ?y] |- _ =>
        change (Pos.compare_cont Eq x y) with (Pos.compare x y) in *;
        destruct (Pos.compare_spec x y)
    | |- context [Pos.compare_cont Eq ?x ?y] =>
        change (Pos.compare_cont Eq x y) with (Pos.compare x y) in *;
        destruct (Pos.compare_spec x y)
    end.

Ltac by_cases :=
  unfold SFleb, SFltb, SFeqb, SFcompare in *;
  repeat match goal with
    | x : spec_float |- _ => destruct x
    | b : bool |- _ => destruct b
    end;
  simpl in *; try discriminate; try reflexivity;
  split_compare; simpl in *; subst;
  try discriminate; try reflexivity; try lia.

Lemma SFleb_trans (x y z : spec_float) :
  SFleb x y = true -> SFleb y z = true -> SFleb x z = true.
Proof. intros Hxy Hyz. by_cases. Qed.

Lemma SFltb_leb (x y : spec_float) : SFltb x y = true -> SFleb x y = true.
Proof. intros H. by_cases. Qed.

Lemma SFleb_total (x y : spec_float) :
  SFeqb x x = true -> SFeqb y y = true ->
  SFltb y x = false -> SFleb x y = true.
Proof. intros Hx Hy H. by_cases. Qed.

Lemma SFltb_not_eqb (x y v : spec_float) :
  SFeqb x v = true -> SFeqb y v = true -> SFltb y x = false.
Proof. intros Hx Hy. by_cases. Qed.

Lemma leb_trans (x y z : number) :
  (x <=? y)%float = true -> (y <=? z)%float = true -> (x <=? z)%float = true.
Proof. rewrite !FloatAxioms.leb_spec. apply SFleb_trans. Qed.

Lemma ltb_leb (x y : number) :
  (x <? y)%float = true -> (x <=? y)%float = true.
Proof. rewrite FloatAxioms.ltb_spec, FloatAxioms.leb_spec. apply SFltb_leb. Qed.

Lemma leb_total (x y : number) :
  is_nan x = false -> is_nan y = false ->
  (y <? x)%float = false -> (x <=? y)%float = true.
Proof.
  unfold is_nan. intros Hx Hy.
  apply negb_false_iff in Hx, Hy.
  rewrite FloatAxioms.eqb_spec in Hx, Hy. rewrite FloatAxioms.ltb_spec, FloatAxioms.leb_spec.
  now apply SFleb_total.
Qed.

Lemma ltb_not_eqb (x y v : number) :
  (x =? v)%float = true -> (y =? v)%float = true -> (y <? x)%float = false.
Proof. rewrite !FloatAxioms.eqb_spec, FloatAxioms.ltb_spec. apply SFltb_not_eqb. Qed.

Local Open Scope Z_scope.

(** *** The sign of a difference

    [x - y] is positive exactly when [y < x], for all binary64 values other
    than [NaN]: the subtraction is exact on aligned mantissas, and rounding a
    nonzero multiple of the smallest exponent never gives zero. *)

Lemma digits2_pos_bounds (p : positive) :
  2 ^ (Zpos (digits2_pos p) - 1) <= Zpos p < 2 ^ Zpos (digits2_pos p).
Proof.
  induction p as [p IH | p IH |]; simpl digits2_pos.
  - rewrite Pos2Z.inj_succ.
    replace (Z.succ (Zpos (digits2_pos p)) - 1) with (Z.succ (Zpos (digits2_pos p) - 1)) by lia.
    rewrite !Z.pow_succ_r by lia. lia.
  - rewrite Pos2Z.inj_succ.
    replace (Z.succ (Zpos (digits2_pos p)) - 1) with (Z.succ (Zpos (digits2_pos p) - 1)) by lia.
    rewrite !Z.pow_succ_r by lia. lia.
  - simpl. lia.
Qed.

(** Shifting right by fewer places than the mantissa has digits leaves a
    positive mantissa. *)
Lemma shr_1_positive (mrs : shr_record) (p : positive) :
  shr_m mrs = Zpos p -> 1 < Zpos (digits2_pos p) ->
  exists q, shr_m (shr_1 mrs) = Zpos q /\
            Zpos (digits2_pos q) = Zpos (digits2_pos p) - 1.
Proof.
  destruct mrs as [m r s]. cbn [shr_m]. intros -> Hd.
  destruct p as [p | p |]; cbn [shr_1 shr_m digits2_pos] in *.
  - exists p. split; [reflexivity | rewrite Pos2Z.inj_succ; lia].
  - exists p. split; [reflexivity | rewrite Pos2Z.inj_succ; lia].
  - lia.
Qed.

Lemma iter_shr_1_positive (k : positive) :
  forall (mrs : shr_record) (p : positive),
  shr_m mrs = Zpos p -> Zpos k < Zpos (digits2_pos p) ->
  exists q, shr_m (SpecFloat.iter_pos shr_1 k mrs) = Zpos q /\
            Zpos (digits2_pos q) = Zpos (digits2_pos p) - Zpos k.
Proof.
  induction k as [k IH | k IH |]; intros mrs p Hm Hd; cbn [SpecFloat.iter_pos].
  - destruct (shr_1_positive mrs p Hm ltac:(lia)) as (q1 & H1 & D1).
    destruct (IH _ q1 H1 ltac:(lia)) as (q2 & H2 & D2).
    destruct (IH _ q2 H2 ltac:(lia)) as (q3 & H3 & D3).
    exists q3. split; [exact H3 | lia].
  - destruct (IH _ p Hm ltac:(lia)) as (q2 & H2 & D2).
    destruct (IH _ q2 H2 ltac:(lia)) as (q3 & H3 & D3).
    exists q3. split; [exact H3 | lia].
  - destruct (shr_1_positive mrs p Hm ltac:(lia)) as (q1 & H1 & D1).
    exists q1. split; [exact H1 | lia].
Qed.

Lemma shr_record_of_loc_m m l : shr_m (shr_record_of_loc m l) = m.
Proof. destruct l as [|[]]; reflexivity. Qed.

(** [shr_fexp] on a positive mantissa at an exponent not below [emin]. *)
Lemma shr_fexp_positive (p : positive) (e : Z) (l : location) :
  SpecFloat.emin prec emax <= e ->
  exists q e', shr_m (fst (shr_fexp prec emax (Zpos p) e l)) = Zpos q /\
               snd (shr_fexp prec emax (Zpos p) e l) = e' /\
               SpecFloat.emin prec emax <= e'.
Proof.
  intros He. unfold shr_fexp, shr. simpl Zdigits2.
  set (n := fexp prec emax (Zpos (digits2_pos p) + e) - e).
  assert (Hn : n < Zpos (digits2_pos p)).
  { unfold n, fexp, SpecFloat.emin, prec, emax in *. lia. }
  destruct n as [|k|k] eqn:En; cbn [fst snd].
  - exists p, e. rewrite shr_record_of_loc_m. auto.
  - destruct (iter_shr_1_positive k (shr_record_of_loc (Zpos p) l) p
                (shr_record_of_loc_m _ _) Hn) as (q & Hq & _).
    exists q, (e + Zpos k). split; [exact Hq|]. split; [reflexivity|lia].
  - exists p, e. rewrite shr_record_of_loc_m. auto.
Qed.

Lemma round_nearest_even_positive (p : positive) (l : location) :
  exists q, round_nearest_even (Zpos p) l = Zpos q.
Proof.
  destruct l as [|[]]; cbn [round_nearest_even];
    try destruct (Z.even (Zpos p)); cbn [Z.add]; eexists; reflexivity.
Qed.

Lemma binary_round_aux_positive (p : positive) (e : Z) (l : location) :
  SpecFloat.emin prec emax <= e ->
  positive_result (binary_round_aux prec emax false (Zpos p) e l).
Proof.
  intros He. unfold binary_round_aux.
  destruct (shr_fexp_positive p e l He) as (q & e' & Hq & He' & Hmin).
  destruct (shr_fexp prec emax (Zpos p) e l) as [mrs' e1]. simpl in Hq, He'. subst e1.
  rewrite Hq.
  destruct (round_nearest_even_positive q (loc_of_shr_record mrs')) as (q1 & ->).
  destruct (shr_fexp_positive q1 e' loc_Exact Hmin) as (q2 & e2 & Hq2 & He2 & _).
  destruct (shr_fexp prec emax (Zpos q1) e' loc_Exact) as [mrs2 e3]. simpl in Hq2, He2.
  rewrite Hq2. destruct (e3 <=? emax - prec); exact I.
Qed.

Lemma positive_result_ltb (x : spec_float) :
  positive_result x -> SFltb (S754_zero false) x = true.
Proof. destruct x as [s|s| |s m e]; try destruct s; simpl; tauto. Qed.

Lemma binary_round_aux_negative (m e : Z) (l : location) :
  SFltb (S754_zero false) (binary_round_aux prec emax true m e l) = false.
Proof.
  unfold binary_round_aux.
  destruct (shr_fexp prec emax m e l) as [mrs' e'].
  destruct (shr_fexp prec emax _ e' loc_Exact) as [mrs2 e2].
  destruct (shr_m mrs2); try reflexivity.
  destruct (e2 <=? emax - prec); reflexivity.
Qed.

Lemma shl_align_exponent (m : positive) (e e' : Z) :
  SpecFloat.emin prec emax <= e -> SpecFloat.emin prec emax <= e' ->
  SpecFloat.emin prec emax <= snd (shl_align m e e').
Proof. intros He He'. unfold shl_align. destruct (e' - e); simpl; assumption. Qed.

(** Normalising a nonzero integer multiple of [2^e], [e] not below [emin],
    gives a result of the sign of the integer. *)
Lemma normalize_sign (D e : Z) :
  SpecFloat.emin prec emax <= e ->
  SFltb (S754_zero false) (binary_normalize prec emax D e false) = (0 <? D).
Proof.
  intros He. destruct D as [|p|p]; cbn [binary_normalize].
  - reflexivity.
  - change (0 <? Zpos p) with true. apply positive_result_ltb.
    unfold binary_round.
    pose proof (shl_align_exponent p e
                  (fexp prec emax (Zpos (digits2_pos p) + e)) He) as Hal.
    destruct (shl_align p e (fexp prec emax (Zpos (digits2_pos p) + e)))
      as [mz ez]. simpl in Hal.
    apply binary_round_aux_positive. apply Hal.
    unfold fexp, SpecFloat.emin, prec, emax in *. lia.
  - change (0 <? Zneg p) with false. unfold binary_round.
    destruct (shl_align p e (fexp prec emax (Zpos (digits2_pos p) + e)))
      as [mz ez].
    apply binary_round_aux_negative.
Qed.

Lemma iter_xO_value (m d : positive) :
  Zpos (Pos.iter xO m d) = Zpos m * 2 ^ Zpos d.
Proof.
  induction d as [|d IH] using Pos.peano_ind.
  - simpl. lia.
  - rewrite Pos.iter_succ, Pos2Z.inj_xO, IH, Pos2Z.inj_succ, Z.pow_succ_r by lia.
    lia.
Qed.

Lemma shl_align_value (m : positive) (e ez : Z) :
  ez <= e -> Zpos (fst (shl_align m e ez)) = Zpos m * 2 ^ (e - ez).
Proof.
  intros Hle. unfold shl_align.
  destruct (ez - e) as [|d|d] eqn:E; cbn [fst].
  - replace (e - ez) with 0 by lia. simpl. lia.
  - lia.
  - rewrite iter_xO_value. f_equal. f_equal. lia.
Qed.

Lemma canonical_inv (m : positive) (e : Z) :
  bounded prec emax m e = true ->
  SpecFloat.emin prec emax <= e /\
  Zpos m < 2 ^ prec /\
  (SpecFloat.emin prec emax < e -> 2 ^ (prec - 1) <= Zpos m).
Proof.
  unfold bounded, canonical_mantissa. rewrite andb_true_iff, Z.eqb_eq.
  intros [Hc _]. pose proof (digits2_pos_bounds m) as [Hlo Hhi].
  assert (Hd : Zpos (digits2_pos m) <= prec /\
               SpecFloat.emin prec emax <= e /\
               (SpecFloat.emin prec emax < e -> Zpos (digits2_pos m) = prec)).
  { unfold fexp, SpecFloat.emin, prec, emax in *. lia. }
  destruct Hd as (Hd & He & Hn). split; [exact He|]. split.
  - apply Z.lt_le_trans with (2 ^ Zpos (digits2_pos m)); [exact Hhi|].
    apply Z.pow_le_mono_r; lia.
  - intros Hgt. rewrite <- (Hn Hgt). exact Hlo.
Qed.

(** Alignment keeps the order that [SFcompare] reads off canonical forms. *)
Lemma aligned_order (mx my : positive) (ex ey : Z) :
  bounded prec emax mx ex = true -> bounded prec emax my ey = true ->
  let A := Zpos (fst (shl_align mx ex (Z.min ex ey))) in
  let B := Zpos (fst (shl_align my ey (Z.min ex ey))) in
  match Z.compare ex ey with
  | Lt => A < B
  | Gt => B < A
  | Eq => A = Zpos mx /\ B = Zpos my
  end.
Proof.
  intros Hx Hy A B. unfold A, B.
  rewrite !shl_align_value by lia.
  destruct (canonical_inv mx ex Hx) as (Hex & Hxhi & Hxlo).
  destruct (canonical_inv my ey Hy) as (Hey & Hyhi & Hylo).
  assert (Hp : 2 ^ prec = 2 * 2 ^ (prec - 1)) by reflexivity.
  destruct (Z.compare_spec ex ey) as [E | E | E].
  - subst ey. rewrite Z.min_id, Z.sub_diag. simpl. lia.
  - rewrite Z.min_l by lia. rewrite Z.sub_diag, Z.mul_1_r.
    specialize (Hylo ltac:(lia)).
    assert (2 <= 2 ^ (ey - ex)).
    { change 2 with (2 ^ 1) at 1. apply Z.pow_le_mono_r; lia. }
    nia.
  - rewrite Z.min_r by lia. rewrite Z.sub_diag, Z.mul_1_r.
    specialize (Hxlo ltac:(lia)).
    assert (2 <= 2 ^ (ex - ey)).
    { change 2 with (2 ^ 1) at 1. apply Z.pow_le_mono_r; lia. }
    nia.
Qed.

Lemma SFsub_sign (x y : spec_float) :
  valid_binary x = true -> valid_binary y = true ->
  SFeqb x x = true -> SFeqb y y = true ->
  SFltb (S754_zero false) (SFsub prec emax x y) = SFltb y x.
Proof.
  intros Hx Hy Nx Ny.
  destruct x as [sx | sx | | sx mx ex]; try discriminate;
    destruct y as [sy | sy | | sy my ey]; try discriminate;
    try solve [repeat match goal with s : bool |- _ => destruct s end;
               reflexivity].
  cbn [SFsub SpecFloat.valid_binary] in *.
  destruct (canonical_inv mx ex Hx) as (Hex & _).
  destruct (canonical_inv my ey Hy) as (Hey & _).
  rewrite normalize_sign by lia.
  pose proof (aligned_order mx my ex ey Hx Hy) as Hord. cbv zeta in Hord.
  unfold SFltb, SFcompare.
  rewrite (Z.compare_antisym ex ey).
  change (Pos.compare_cont Eq my mx) with (Pos.compare my mx).
  rewrite (Pos.compare_antisym mx my).
  revert Hord.
  destruct (Z.compare ex ey), (Pos.compare_spec mx my), sx, sy;
    cbn [cond_Zopp CompOpp]; intros Hord;
    first [apply Z.ltb_lt; lia | apply Z.ltb_ge; lia].
Qed.

Theorem sub_sign (x y : float) :
  is_nan x = false -> is_nan y = false ->
  (0 <? x - y)%float = (y <? x)%float.
Proof.
  unfold is_nan. intros Hx Hy. apply negb_false_iff in Hx, Hy.
  rewrite FloatAxioms.eqb_spec in Hx, Hy.
  rewrite !FloatAxioms.ltb_spec, FloatAxioms.sub_spec.
  change (Prim2SF 0) with (S754_zero false).
  apply SFsub_sign; auto using Prim2SF_valid.
Qed.

Local Close Scope Z_scope.

Lemma ltb_nan_r (x v : number) : is_nan v = true -> (x <? v)%float = false.
Proof.
  unfold is_nan. intros Hv. apply negb_true_iff in Hv.
  rewrite FloatAxioms.eqb_spec in Hv. rewrite FloatAxioms.ltb_spec.
  destruct (Prim2SF v) as [s | s | | s m e].
  - discriminate.
  - destruct s; discriminate.
  - now destruct (Prim2SF x).
  - unfold SFeqb, SFcompare in Hv. rewrite Z.compare_refl in Hv.
    change (Pos.compare_cont Eq m m) with (Pos.compare m m) in Hv.
    rewrite Pos.compare_refl in Hv. destruct s; discriminate.
Qed.

(** Division by zero: the quotient is an infinity or [NaN], never a finite
    number, and [toFixed2] keeps such values. *)
Lemma div_by_zero (x y : number) :
  (y =? 0)%float = true ->
  is_nan (x / y) || is_infinity (x / y) = true.
Proof.
  unfold is_nan, is_infinity.
  rewrite !FloatAxioms.eqb_spec, FloatAxioms.abs_spec, FloatAxioms.div_spec.
  change (Prim2SF 0) with (S754_zero false).
  change (Prim2SF infinity) with (S754_infinity false).
  destruct (Prim2SF y) as [sy | sy | | sy my ey]; try destruct sy;
    try discriminate; intros _;
    destruct (Prim2SF x) as [sx | sx | | sx mx ex]; try destruct sx;
    reflexivity.
Qed.

Lemma toFixed2_not_finite (x : number) :
  is_nan x || is_infinity x = true -> toFixed2 x = x.
Proof.
  unfold is_nan, is_infinity, toFixed2.
  rewrite !FloatAxioms.eqb_spec, FloatAxioms.abs_spec.
  change (Prim2SF infinity) with (S754_infinity false).
  destruct (Prim2SF x) as [sx | sx | | sx mx ex] eqn:E; try reflexivity.
  - destruct sx; discriminate.
  - unfold SFeqb, SFcompare, SFabs.
    rewrite Z.compare_refl.
    change (Pos.compare_cont Eq mx mx) with (Pos.compare mx mx).
    rewrite Pos.compare_refl. destruct sx; discriminate.
Qed.

End NumberOrder.

(** ** Sorting *)

Section SortFacts.
Variable A : Type.
Variable comparefn : A -> A -> number.

Lemma sort_insert_perm (x : A) (l : list A) :
  Permutation (sort_insert comparefn x l) (x :: l).
Proof.
  induction l as [|y l IH]; simpl.
  - apply Permutation_refl.
  - destruct (0 <? SortCompare comparefn x y)%float.
    + apply perm_trans with (y :: x :: l).
      * now apply perm_skip.
      * apply perm_swap.
    + apply Permutation_refl.
Qed.

Lemma Array_sort_perm (l : list A) : Permutation (Array_sort comparefn l) l.
Proof.
  induction l as [|x l IH]; simpl.
  - apply perm_nil.
  - apply perm_trans with (x :: Array_sort comparefn l).
    + apply sort_insert_perm.
    + now apply perm_skip.
Qed.

Lemma Array_sort_In (l : list A) (x : A) :
  In x (Array_sort comparefn l) <-> In x l.
Proof.
  split; apply Permutation_in.
  - apply Array_sort_perm.
  - apply Permutation_sym, Array_sort_perm.
Qed.

Lemma Array_sort_length (l : list A) :
  List.length (Array_sort comparefn l) = List.length l.
Proof. apply Permutation_length, Array_sort_perm. Qed.
End SortFacts.

(** The comparator of [generateRoutes] on distances that are numbers: it is
    positive exactly when its first argument is the farther one. *)
Lemma by_distance_sign (a b : Store.t * number) :
  is_nan (snd a) = false -> is_nan (snd b) = false ->
  (0 <? SortCompare by_distance a b)%float = (snd b <? snd a)%float.
Proof.
  intros Ha Hb. unfold SortCompare, by_distance.
  rewrite <- (NumberOrder.sub_sign _ _ Ha Hb).
  destruct (is_nan (snd a - snd b)) eqn:E; [|reflexivity].
  symmetry. now apply NumberOrder.ltb_nan_r.
Qed.

Lemma sort_insert_sorted (x : Store.t * number) (l : list (Store.t * number)) :
  is_nan (snd x) = false ->
  distances_are_numbers l ->
  StronglySorted closer_or_equal l ->
  StronglySorted closer_or_equal (sort_insert by_distance x l).
Proof.
  intros Hx Hl Hs. induction Hs as [|y l Hs IH Hy]; simpl.
  - constructor; constructor.
  - inversion_clear Hl as [|? ? Hny Hl'].
    rewrite (by_distance_sign x y Hx Hny).
    destruct (snd y <? snd x)%float eqn:Hlt.
    + constructor.
      * now apply IH.
      * apply Forall_forall. intros z Hz.
        apply (Permutation_in _ (sort_insert_perm _ by_distance x l)) in Hz.
        destruct Hz as [<- | Hz].
        -- now apply NumberOrder.ltb_leb.
        -- rewrite Forall_forall in Hy. now apply Hy.
    + assert (Hxy : closer_or_equal x y) by now apply NumberOrder.leb_total.
      constructor.
      * now constructor.
      * constructor; [exact Hxy|].
        apply Forall_forall. intros z Hz. rewrite Forall_forall in Hy.
        apply NumberOrder.leb_trans with (snd y); [exact Hxy | now apply Hy].
Qed.

Lemma sort_insert_filter (p : Store.t * number -> bool)
    (x : Store.t * number) (l : list (Store.t * number)) :
  (forall y, In y l -> p x = true -> p y = true ->
             (0 <? SortCompare by_distance x y)%float = false) ->
  filter p (sort_insert by_distance x l) = filter p (x :: l).
Proof.
  induction l as [|y l IH]; intros Hc; simpl.
  - reflexivity.
  - destruct (0 <? SortCompare by_distance x y)%float eqn:Hpos.
    + simpl. rewrite IH by (intros z Hz; apply Hc; now right). simpl.
      destruct (p x) eqn:Hpx, (p y) eqn:Hpy; try reflexivity.
      exfalso. rewrite Hc in Hpos; [discriminate | now left | reflexivity | exact Hpy].
    + reflexivity.
Qed.

Lemma sorted_are_numbers (l : list (Store.t * number)) :
  distances_are_numbers l -> distances_are_numbers (Array_sort by_distance l).
Proof.
  apply Permutation_Forall, Permutation_sym, Array_sort_perm.
Qed.

Lemma sorted_by_distance (l : list (Store.t * number)) :
  distances_are_numbers l ->
  StronglySorted closer_or_equal (Array_sort by_distance l).
Proof.
  induction l as [|x l IH]; intros H; simpl.
  - constructor.
  - inversion_clear H as [|? ? Hx Hl].
    apply sort_insert_sorted; [exact Hx | now apply sorted_are_numbers | auto].
Qed.

Lemma stable_by_distance (l : list (Store.t * number)) (v : number) :
  distances_are_numbers l ->
  filter (fun a => (snd a =? v)%float) (Array_sort by_distance l)
  = filter (fun a => (snd a =? v)%float) l.
Proof.
  induction l as [|x l IH]; intros H.
  - reflexivity.
  - inversion_clear H as [|? ? Hx Hl].
    change (Array_sort by_distance (x :: l))
      with (sort_insert by_distance x (Array_sort by_distance l)).
    rewrite sort_insert_filter.
    + cbn [filter]. now rewrite IH.
    + intros y Hy Hpx Hpy.
      pose proof (sorted_are_numbers l Hl) as Hsorted.
      unfold distances_are_numbers in Hsorted. rewrite Forall_forall in Hsorted.
      rewrite (by_distance_sign x y Hx (Hsorted y Hy)).
      now apply NumberOrder.ltb_not_eqb with v.
Qed.

(** ** Objects *)

Module ObjectFacts.
Import JSObject.

Section Assoc.
Variable V : Type.
Implicit Types (k : string) (v : V) (l : list (string * V)).

Lemma assoc_get_set_same k v l : assoc_get k (assoc_set k v l) = Some v.
Proof.
  induction l as [|[k' v'] l IH]; simpl.
  - now rewrite String.eqb_refl.
  - destruct (String.eqb k k') eqn:E; simpl; rewrite E; auto.
Qed.

Lemma assoc_get_set_other k k' v l :
  k <> k' -> assoc_get k (assoc_set k' v l) = assoc_get k l.
Proof.
  intros Hne. induction l as [|[k2 v2] l IH]; simpl.
  - apply String.eqb_neq in Hne. now rewrite Hne.
  - destruct (String.eqb k' k2) eqn:E; simpl.
    + apply String.eqb_eq in E. subst k2.
      apply String.eqb_neq in Hne. now rewrite Hne.
    + now rewrite IH.
Qed.

Lemma assoc_set_keys k v l x :
  In x (map fst (assoc_set k v l)) <-> x = k \/ In x (map fst l).
Proof.
  induction l as [|[k' v'] l IH]; simpl.
  - intuition.
  - destruct (String.eqb k k') eqn:E; simpl.
    + apply String.eqb_eq in E. subst k'. intuition.
    + rewrite IH. intuition.
Qed.

Lemma assoc_set_NoDup k v l :
  NoDup (map fst l) -> NoDup (map fst (assoc_set k v l)).
Proof.
  induction l as [|[k' v'] l IH]; simpl; intros Hnd.
  - constructor; [intros []|constructor].
  - destruct (String.eqb k k') eqn:E; simpl.
    + exact Hnd.
    + inversion_clear Hnd as [|? ? Hnotin Hrest]. constructor.
      * rewrite assoc_set_keys. intros [-> | Hin]; [|contradiction].
        now rewrite String.eqb_refl in E.
      * now apply IH.
Qed.

Lemma assoc_get_In k v l :
  NoDup (map fst l) -> (assoc_get k l = Some v <-> In (k, v) l).
Proof.
  induction l as [|[k' v'] l IH]; simpl; intros Hnd.
  - split; [discriminate | intros []].
  - inversion_clear Hnd as [|? ? Hnotin Hrest].
    destruct (String.eqb k k') eqn:E.
    + apply String.eqb_eq in E. subst k'. split.
      * intros [= ->]. now left.
      * intros [[= ->] | Hin]; [reflexivity|].
        exfalso. apply Hnotin. now apply (in_map fst) in Hin.
    + rewrite (IH Hrest). split; [now right|].
      intros [[= <- <-] | Hin]; [|exact Hin].
      now rewrite String.eqb_refl in E.
Qed.

(** [obj[k]] after [obj[k'] = v]. *)
Lemma get_set_same k v (o : t V) : get k (set k v o) = Some v.
Proof.
  unfold get, set. destruct (String.eqb k proto_key) eqn:E; simpl.
  - reflexivity.
  - apply assoc_get_set_same.
Qed.

Lemma get_set_other k k' v (o : t V) :
  k <> k' -> get k (set k' v o) = get k o.
Proof.
  intros Hne. unfold get, set.
  destruct (String.eqb k proto_key) eqn:E, (String.eqb k' proto_key) eqn:E';
    simpl; try reflexivity.
  - apply String.eqb_eq in E, E'. congruence.
  - now apply assoc_get_set_other.
Qed.

Lemma well_formed_empty : well_formed (@empty V).
Proof. split; simpl; [constructor | intros []]. Qed.

Lemma well_formed_set k v (o : t V) : well_formed o -> well_formed (set k v o).
Proof.
  intros [Hnd Hproto]. unfold set.
  destruct (String.eqb k proto_key) eqn:E; split; simpl; auto.
  - now apply assoc_set_NoDup.
  - rewrite assoc_set_keys. intros [Heq | Hin]; [|contradiction].
    rewrite <- Heq, String.eqb_refl in E. discriminate.
Qed.

(** The own properties of a well-formed object are what [get] returns for
    the keys other than ["__proto__"]. *)
Lemma own_get k v (o : t V) :
  well_formed o ->
  (In (k, v) (own o) <-> k <> proto_key /\ get k o = Some v).
Proof.
  intros [Hnd Hproto]. unfold get. split.
  - intros Hin. assert (Hk : k <> proto_key).
    { intros ->. apply Hproto. now apply (in_map fst) in Hin. }
    split; [exact Hk|]. apply String.eqb_neq in Hk. rewrite Hk.
    now apply assoc_get_In.
  - intros [Hk Hget]. apply String.eqb_neq in Hk. rewrite Hk in Hget.
    now apply assoc_get_In in Hget.
Qed.

(** [Object.entries] lists the own properties, each once. *)
Lemma insert_by_index_perm e (l : list (N * (string * V))) :
  Permutation (insert_by_index e l) (e :: l).
Proof.
  induction l as [|e' l IH]; simpl.
  - apply Permutation_refl.
  - destruct (fst e <=? fst e')%N.
    + apply Permutation_refl.
    + apply perm_trans with (e' :: e :: l);
        [now apply perm_skip | apply perm_swap].
Qed.

Lemma index_keys_filter l :
  map snd (index_keys l) = filter (@is_index_key V) l.
Proof.
  induction l as [|[k v] l IH]; simpl.
  - reflexivity.
  - unfold is_index_key at 1. simpl.
    destruct (array_index k); simpl; now rewrite IH.
Qed.

Lemma filter_split_perm (p : string * V -> bool) l :
  Permutation (filter p l ++ filter (fun e => negb (p e)) l) l.
Proof.
  induction l as [|e l IH]; simpl.
  - apply perm_nil.
  - destruct (p e); simpl.
    + now apply perm_skip.
    + apply Permutation_sym, Permutation_cons_app, Permutation_sym, IH.
Qed.

Lemma entries_perm (o : t V) : Permutation (entries o) (own o).
Proof.
  unfold entries.
  apply perm_trans
    with (filter (@is_index_key V) (own o)
          ++ filter (fun e => negb (is_index_key e)) (own o)).
  - apply Permutation_app_tail. rewrite <- index_keys_filter.
    apply Permutation_map.
    induction (index_keys (own o)) as [|e l IH]; simpl.
    + apply perm_nil.
    + apply perm_trans with (e :: fold_right (@insert_by_index V) [] l).
      * apply insert_by_index_perm.
      * now apply perm_skip.
  - apply filter_split_perm.
Qed.

Lemma entries_In k v (o : t V) :
  well_formed o ->
  (In (k, v) (entries o) <-> k <> proto_key /\ get k o = Some v).
Proof.
  intros Hwf. rewrite <- (own_get k v o Hwf).
  split; apply Permutation_in;
    [apply entries_perm | apply Permutation_sym, entries_perm].
Qed.

Lemma entries_NoDup (o : t V) :
  well_formed o -> NoDup (map fst (entries o)).
Proof.
  intros [Hnd _].
  apply (Permutation_NoDup (l := map fst (own o))); [|exact Hnd].
  apply Permutation_map, Permutation_sym, entries_perm.
Qed.
End Assoc.

End ObjectFacts.

(** ** Distribution of the stores among the trucks of a warehouse *)

Section Distribution.
Import JSObject ObjectFacts.

Lemma get_empty (key : string) : get key (@empty (list string)) = None.
Proof. unfold get. now destruct (String.eqb key proto_key). Qed.

Lemma has_truck_id_In (l : list Truck.t) (key : string) :
  has_truck_id l key = true <-> exists t, In t l /\ Truck.id t = key.
Proof.
  unfold has_truck_id. rewrite existsb_exists.
  split; intros (t & Hin & H); exists t; split; auto;
    now apply String.eqb_eq.
Qed.

Lemma init_assignments_from (roster : list Truck.t) (o : t (list string)) :
  well_formed o ->
  let o' := fold_left (fun o truck => set (Truck.id truck) [] o) roster o in
  well_formed o' /\
  forall key, get key o' = if has_truck_id roster key then Some [] else get key o.
Proof.
  revert o. induction roster as [|truck roster IH]; intros o Hwf; simpl.
  - auto.
  - destruct (IH (set (Truck.id truck) [] o)) as [Hwf' Hget].
    { now apply well_formed_set. }
    split; [exact Hwf'|]. intros key. rewrite Hget.
    destruct (has_truck_id roster key); [now rewrite orb_true_r|].
    rewrite orb_false_r.
    destruct (String.eqb (Truck.id truck) key) eqn:E.
    + apply String.eqb_eq in E. subst key. apply get_set_same.
    + apply String.eqb_neq in E. apply get_set_other. congruence.
Qed.

Lemma init_assignments_spec (roster : list Truck.t) :
  well_formed (init_assignments roster) /\
  forall key, get key (init_assignments roster)
              = if has_truck_id roster key then Some [] else None.
Proof.
  destruct (init_assignments_from roster empty (well_formed_empty _))
    as [Hwf Hget].
  split; [exact Hwf|]. intros key.
  unfold init_assignments. rewrite Hget, get_empty. reflexivity.
Qed.

Lemma roster_index (roster : list Truck.t) (index : nat) :
  roster <> [] ->
  exists truck, nth_error roster (index mod List.length roster) = Some truck
                /\ In truck roster.
Proof.
  intros Hne.
  destruct (nth_error roster (index mod List.length roster)) as [truck|] eqn:E.
  - exists truck. split; [reflexivity|]. now apply nth_error_In in E.
  - apply nth_error_None in E.
    assert (List.length roster <> 0) by (destruct roster; simpl; congruence).
    pose proof (Nat.mod_upper_bound index (List.length roster)). lia.
Qed.

Lemma distribute_from (roster : list Truck.t) (l : list (Store.t * number)) :
  roster <> [] ->
  forall (index : nat) (o : t (list string)) (B : string -> list string),
  well_formed o ->
  (forall key, get key o = if has_truck_id roster key then Some (B key)
                           else None) ->
  exists o',
    forEach_local (assign_store roster) l index o = Normal o' /\
    well_formed o' /\
    forall key,
      get key o' =
      if has_truck_id roster key
      then Some (B key ++ store_ids (select (owner_is roster key) index l))
      else None.
Proof.
  intros Hne. induction l as [|x l IH]; intros index o B Hwf Hget; simpl.
  - exists o. split; [reflexivity|]. split; [exact Hwf|].
    intros key. rewrite Hget. now rewrite app_nil_r.
  - unfold assign_store at 1.
    destruct (roster_index roster index Hne) as (truck & Hnth & Hin).
    rewrite Hnth.
    assert (Hhas : has_truck_id roster (Truck.id truck) = true).
    { apply has_truck_id_In. now exists truck. }
    pose proof (Hget (Truck.id truck)) as Hcur. rewrite Hhas in Hcur.
    rewrite Hcur.
    set (B' := fun key => if String.eqb (Truck.id truck) key
                          then B key ++ [Store.id (fst x)] else B key).
    destruct (IH (S index)
                 (set (Truck.id truck)
                      (B (Truck.id truck) ++ [Store.id (fst x)]) o) B')
      as (o' & Hrun & Hwf' & Hget').
    { now apply well_formed_set. }
    { intros key. unfold B'.
      destruct (String.eqb (Truck.id truck) key) eqn:E.
      - apply String.eqb_eq in E. subst key. now rewrite get_set_same, Hhas.
      - apply String.eqb_neq in E. rewrite get_set_other by congruence.
        apply Hget. }
    exists o'. split; [exact Hrun|]. split; [exact Hwf'|].
    intros key. rewrite Hget'.
    destruct (has_truck_id roster key); [|reflexivity].
    f_equal. unfold B', owner_is at 2. rewrite Hnth.
    destruct (String.eqb (Truck.id truck) key); simpl.
    + now rewrite <- app_assoc.
    + reflexivity.
Qed.

End Distribution.

Section Engine.
Variable rt : Runtime.
Import JSObject ObjectFacts.

Lemma truckAssignments_spec (stores : list Store.t) (trucks : list Truck.t)
    (w : Warehouse.t) :
  let roster := warehouseTrucks_of trucks w in
  roster <> [] ->
  exists o,
    truckAssignments_of rt stores trucks w = Normal o /\
    well_formed o /\
    forall key,
      get key o =
      if has_truck_id roster key
      then Some (store_ids (select (owner_is roster key) 0
                                   (sorted_stores rt stores w)))
      else None.
Proof.
  intros roster Hne. unfold truckAssignments_of. fold roster.
  destruct (init_assignments_spec roster) as [Hwf Hget].
  exact (distribute_from roster (sorted_stores rt stores w) Hne 0
           (init_assignments roster) (fun _ => []) Hwf Hget).
Qed.

End Engine.

(** ** What one run of [generateRoutes] does to the store *)

Lemma emit_nil (w : World) : emit w [] = w.
Proof. reflexivity. Qed.

Lemma emit_emit (w : World) (a b : list Route.t) :
  emit (emit w a) b = emit w (a ++ b).
Proof. revert w. induction a as [|r a IH]; intros w; simpl; auto. Qed.

Lemma emit_calls (w : World) (rs : list Route.t) :
  calls (emit w rs) = 2 * List.length rs + calls w.
Proof.
  revert w. induction rs as [|r rs IH]; intros w; simpl; [reflexivity|].
  rewrite IH. simpl. lia.
Qed.

Lemma emit_state (w : World) (rs : list Route.t) :
  state (emit w rs) = with_routes (state w) (routes (state w) ++ rs).
Proof.
  revert w. induction rs as [|r rs IH]; intros w; simpl.
  - rewrite app_nil_r. now destruct (state w).
  - rewrite IH. unfold with_routes. simpl. now rewrite <- app_assoc.
Qed.

(** The states notified while routes are appended hold longer and longer
    initial parts of the new routes. *)
Lemma emit_notified (w : World) (rs : list Route.t) :
  notified (emit w rs)
  = notified w
    ++ map (fun k => with_routes (state w) (routes (state w) ++ firstn k rs))
           (seq 1 (List.length rs)).
Proof.
  revert w. induction rs as [|r rs IH]; intros w; simpl.
  - now rewrite app_nil_r.
  - rewrite IH. cbn [push notified state]. rewrite <- app_assoc.
    f_equal. cbn [app seq map firstn]. f_equal.
    rewrite <- (seq_shift (List.length rs) 1), map_map.
    apply map_ext. intros k.
    unfold with_routes. cbn [warehouses stores trucks routes firstn].
    now rewrite <- app_assoc.
Qed.

Lemma select_In {A} (p : nat -> bool) (l : list A) (index : nat) (x : A) :
  In x (select p index l) -> In x l.
Proof.
  revert index. induction l as [|y l IH]; intros index; simpl; [auto|].
  destruct (p index); simpl; intros H.
  - destruct H as [H | H]; [now left | right; eauto].
  - right; eauto.
Qed.

Lemma find_by_id {A} (id_of : A -> string) (l : list A) (key : string) :
  (exists x, In x l /\ id_of x = key) ->
  exists x, Array_find (fun y => String.eqb (id_of y) key) l = Some x
            /\ In x l /\ id_of x = key.
Proof.
  intros (x & Hin & Hid). unfold Array_find.
  destruct (find (fun y => String.eqb (id_of y) key) l) as [y|] eqn:E.
  - exists y. apply find_some in E. destruct E as [Hy Heq].
    apply String.eqb_eq in Heq. auto.
  - apply (find_none _ _ E) in Hin. apply String.eqb_neq in Hin. contradiction.
Qed.

Section Routes.
Variable rt : Runtime.
Import JSObject ObjectFacts.

Lemma legs_never_throw (stores : list Store.t) (storeIds : list string) :
  known_stores stores storeIds ->
  forall index acc,
  exists acc', forEach_local (add_leg rt stores) storeIds index acc = Normal acc'.
Proof.
  induction storeIds as [|id ids IH]; intros Hknown index acc; simpl.
  - now exists acc.
  - destruct (find_by_id Store.id stores id (Hknown id (or_introl eq_refl)))
      as (s & Hfind & _).
    unfold add_leg at 1. destruct acc as [[total plat] plng]. rewrite Hfind.
    apply IH. intros id' Hin. apply Hknown. now right.
Qed.

Lemma create_route_spec (w : Warehouse.t) (stores : list Store.t)
    (trucks : list Truck.t) (key : string) (storeIds : list string)
    (W : World) :
  known_stores stores storeIds ->
  has_truck_id trucks key = true ->
  create_route rt w stores trucks (key, storeIds) W
  = (Normal tt,
     emit W (if List.length storeIds =? 0 then []
             else [build_route rt stores trucks (w, (key, storeIds)) (calls W)])).
Proof.
  intros Hknown Hkey. unfold create_route.
  destruct (List.length storeIds =? 0).
  - reflexivity.
  - unfold build_route, totalDistance_of, speed_of.
    destruct (legs_never_throw stores storeIds Hknown 0
                (0%float, Location.lat (Warehouse.location w),
                 Location.lng (Warehouse.location w)))
      as ([[total plat] plng] & Hlegs).
    apply has_truck_id_In in Hkey.
    destruct (find_by_id Truck.id trucks key Hkey) as (truck & Hfind & _).
    unfold bind, lift. rewrite Hlegs, Hfind. reflexivity.
Qed.

Lemma build_routes_app (stores : list Store.t) (trucks : list Truck.t)
    (a b : list (Warehouse.t * (string * list string))) (c : nat) :
  build_routes rt stores trucks (a ++ b) c
  = build_routes rt stores trucks a c
    ++ build_routes rt stores trucks b (c + 2 * List.length a).
Proof.
  revert c. induction a as [|j a IH]; intros c; simpl.
  - now rewrite Nat.add_0_r.
  - rewrite IH. do 3 f_equal. lia.
Qed.

Lemma build_routes_length (stores : list Store.t) (trucks : list Truck.t)
    (js : list (Warehouse.t * (string * list string))) (c : nat) :
  List.length (build_routes rt stores trucks js c) = List.length js.
Proof. revert c. induction js as [|j js IH]; intros c; simpl; auto. Qed.

Lemma forEach_create_route (w : Warehouse.t) (stores : list Store.t)
    (trucks : list Truck.t) (es : list (string * list string)) :
  (forall e, In e es -> valid_entry stores trucks e) ->
  forall W,
  forEach es (create_route rt w stores trucks) W
  = (Normal tt,
     emit W (build_routes rt stores trucks
               (map (pair w)
                    (filter (fun e => negb (List.length (snd e) =? 0)) es))
               (calls W))).
Proof.
  induction es as [|[key ids] es IH]; intros Hvalid W.
  - reflexivity.
  - destruct (Hvalid (key, ids) (or_introl eq_refl)) as [Hknown Hkey].
    cbn [forEach]. unfold bind at 1.
    rewrite (create_route_spec w stores trucks key ids W Hknown Hkey).
    rewrite IH by (intros e He; apply Hvalid; now right).
    rewrite emit_emit. cbn [filter snd].
    destruct (List.length ids =? 0); reflexivity.
Qed.

Lemma sorted_stores_In (stores : list Store.t) (w : Warehouse.t)
    (a : Store.t * number) :
  In a (sorted_stores rt stores w) -> In (fst a) stores.
Proof.
  unfold sorted_stores, storesWithDistance_of. rewrite Array_sort_In, in_map_iff.
  intros (s & <- & Hs). exact Hs.
Qed.

Lemma warehouseTrucks_In (trucks : list Truck.t) (w : Warehouse.t) (t : Truck.t) :
  In t (warehouseTrucks_of trucks w)
  <-> In t trucks /\ Truck.warehouseId t = Warehouse.id w.
Proof.
  unfold warehouseTrucks_of. rewrite filter_In. now rewrite String.eqb_eq.
Qed.

Lemma roster_nonempty (trucks : list Truck.t) (w : Warehouse.t) :
  (List.length (warehouseTrucks_of trucks w) =? 0) = false ->
  warehouseTrucks_of trucks w <> [].
Proof. intros H E. rewrite E in H. discriminate. Qed.

(** Every entry of [truckAssignments] names a truck of the roster and holds
    identifiers of stores. *)
Lemma entries_valid (stores : list Store.t) (trucks : list Truck.t)
    (w : Warehouse.t) (o : t (list string)) :
  warehouseTrucks_of trucks w <> [] ->
  truckAssignments_of rt stores trucks w = Normal o ->
  forall e, In e (entries o) ->
    valid_entry stores trucks e /\
    exists truck, In truck (warehouseTrucks_of trucks w)
                  /\ Truck.id truck = fst e.
Proof.
  intros Hne Hrun [key ids] Hin.
  destruct (truckAssignments_spec rt stores trucks w Hne) as (o' & Hrun' & Hwf & Hget).
  rewrite Hrun in Hrun'. injection Hrun' as <-.
  apply (entries_In _ key ids o Hwf) in Hin. destruct Hin as [_ Hk].
  rewrite Hget in Hk.
  destruct (has_truck_id (warehouseTrucks_of trucks w) key) eqn:Hhas;
    [|discriminate].
  injection Hk as <-. apply has_truck_id_In in Hhas.
  destruct Hhas as (truck & Htruck & Hid).
  split; [split|]; simpl.
  - intros id Hid'. unfold store_ids in Hid'. apply in_map_iff in Hid'.
    destruct Hid' as (a & <- & Ha). apply select_In in Ha.
    exists (fst a). split; [now apply sorted_stores_In in Ha | reflexivity].
  - apply has_truck_id_In. exists truck. split; [|exact Hid].
    now apply warehouseTrucks_In in Htruck.
  - now exists truck.
Qed.

Lemma route_warehouse_spec (stores : list Store.t) (trucks : list Truck.t)
    (w : Warehouse.t) (W : World) :
  route_warehouse rt stores trucks w W
  = (Normal tt,
     emit W (build_routes rt stores trucks
               (map (pair w) (route_entries rt stores trucks w)) (calls W))).
Proof.
  unfold route_warehouse, route_entries.
  destruct (List.length (warehouseTrucks_of trucks w) =? 0) eqn:Hlen.
  - reflexivity.
  - apply roster_nonempty in Hlen.
    destruct (truckAssignments_spec rt stores trucks w Hlen) as (o & Hrun & _).
    unfold bind, lift. rewrite Hrun.
    apply forEach_create_route. intros e He.
    now apply (entries_valid stores trucks w o Hlen Hrun).
Qed.

Lemma forEach_warehouses (stores : list Store.t) (trucks : list Truck.t)
    (ws : list Warehouse.t) :
  forall W,
  forEach ws (route_warehouse rt stores trucks) W
  = (Normal tt,
     emit W (build_routes rt stores trucks
               (flat_map (fun w => map (pair w)
                                       (route_entries rt stores trucks w)) ws)
               (calls W))).
Proof.
  induction ws as [|w ws IH]; intros W; simpl.
  - reflexivity.
  - unfold bind. rewrite route_warehouse_spec, IH, emit_emit.
    rewrite build_routes_app. do 4 f_equal.
    rewrite emit_calls, build_routes_length. lia.
Qed.

(** [generateRoutes] never throws; it clears the routes and appends those of
    the jobs one by one, numbered by the runtime calls. *)
Theorem generateRoutes_spec (W : World) :
  generateRoutes rt W
  = (Normal tt,
     emit (cleared W)
          (build_routes rt (stores (state W)) (trucks (state W))
                        (jobs rt (state W)) (calls W))).
Proof.
  unfold generateRoutes, bind, set_routes. simpl.
  rewrite forEach_warehouses. reflexivity.
Qed.

End Routes.

(** ** The routes of one generation cycle *)

Section Cycle.
Variable rt : Runtime.
Import JSObject ObjectFacts.

(** The routes after [generateRoutes]. *)
Lemma routes_after (W : World) :
  routes (state (snd (generateRoutes rt W)))
  = build_routes rt (stores (state W)) (trucks (state W)) (jobs rt (state W))
                 (calls W).
Proof. rewrite generateRoutes_spec. cbn [snd]. now rewrite emit_state. Qed.

(** [generateRoutes] leaves the other collections alone. *)
Lemma generateRoutes_frame (W : World) :
  warehouses (state (snd (generateRoutes rt W))) = warehouses (state W) /\
  stores (state (snd (generateRoutes rt W))) = stores (state W) /\
  trucks (state (snd (generateRoutes rt W))) = trucks (state W) /\
  calls (snd (generateRoutes rt W))
  = calls W + 2 * List.length (routes (state (snd (generateRoutes rt W)))).
Proof.
  rewrite generateRoutes_spec. cbn [snd]. rewrite emit_state, emit_calls.
  cbn [with_routes warehouses stores trucks routes cleared publish state calls app].
  repeat split. lia.
Qed.

(** During [generateRoutes] the subscribers are notified of the store with
    no route, then with the first new route, the first two, and so on up to
    all of them. *)
Lemma generateRoutes_notified (W : World) :
  notified (snd (generateRoutes rt W))
  = notified W
    ++ map (fun k =>
              with_routes (state W)
                (firstn k (routes (state (snd (generateRoutes rt W))))))
           (seq 0 (S (List.length (routes (state (snd (generateRoutes rt W))))))).
Proof.
  rewrite generateRoutes_spec. cbn [snd].
  rewrite emit_notified, emit_state.
  cbn [cleared publish notified state with_routes routes warehouses stores
       trucks app seq map firstn].
  rewrite <- app_assoc. reflexivity.
Qed.

Lemma build_routes_In (stores : list Store.t) (trucks : list Truck.t)
    (js : list (Warehouse.t * (string * list string))) (c : nat) (r : Route.t) :
  In r (build_routes rt stores trucks js c) <->
  exists n job, nth_error js n = Some job
                /\ r = build_route rt stores trucks job (c + 2 * n).
Proof.
  revert c. induction js as [|j js IH]; intros c; simpl.
  - split; [intros [] | intros ([|n] & job & H & _); discriminate].
  - rewrite IH. split.
    + intros [<- | (n & job & Hn & ->)].
      * exists 0, j. split; [reflexivity|]. now rewrite Nat.add_0_r.
      * exists (S n), job. split; [exact Hn|]. f_equal. lia.
    + intros ([|n] & job & Hn & ->).
      * left. injection Hn as <-. now rewrite Nat.add_0_r.
      * right. exists n, job. split; [exact Hn|]. f_equal. lia.
Qed.

Lemma build_routes_content (stores : list Store.t) (trucks : list Truck.t)
    (js : list (Warehouse.t * (string * list string))) (c c' : nat) :
  map content (build_routes rt stores trucks js c)
  = map content (build_routes rt stores trucks js c').
Proof.
  revert c c'. induction js as [|[w [key ids]] js IH]; intros c c'; simpl.
  - reflexivity.
  - f_equal. apply IH.
Qed.

(** A job belongs to a warehouse of the store and to a truck of its roster;
    its store identifiers are the truck's bucket, which is not empty. *)
Lemma jobs_In (st : DataState) (w : Warehouse.t) (key : string)
    (ids : list string) :
  In (w, (key, ids)) (jobs rt st) <->
  In w (warehouses st) /\
  warehouseTrucks_of (trucks st) w <> [] /\
  exists o, truckAssignments_of rt (stores st) (trucks st) w = Normal o /\
            In (key, ids) (entries o) /\ ids <> [].
Proof.
  unfold jobs. rewrite in_flat_map. split.
  - intros (w' & Hw & Hin). apply in_map_iff in Hin.
    destruct Hin as ([key' ids'] & [= <- <- <-] & He).
    unfold route_entries in He.
    destruct (List.length (warehouseTrucks_of (trucks st) w') =? 0) eqn:Hlen;
      [destruct He|].
    apply roster_nonempty in Hlen.
    destruct (truckAssignments_of rt (stores st) (trucks st) w') as [o|] eqn:Hrun;
      [|destruct He].
    apply filter_In in He. destruct He as [He Hne]. simpl in Hne.
    repeat split; auto. exists o. repeat split; auto.
    intros ->. discriminate.
  - intros (Hw & Hne & o & Hrun & He & Hids). exists w. split; [exact Hw|].
    apply in_map. unfold route_entries. rewrite Hrun.
    destruct (List.length (warehouseTrucks_of (trucks st) w) =? 0) eqn:Hlen.
    + apply Nat.eqb_eq, length_zero_iff_nil in Hlen. contradiction.
    + apply filter_In. split; [exact He|]. simpl.
      destruct ids; [contradiction | reflexivity].
Qed.

Lemma jobs_truck (st : DataState) (w : Warehouse.t) (key : string)
    (ids : list string) :
  In (w, (key, ids)) (jobs rt st) ->
  In w (warehouses st) /\
  exists truck, In truck (trucks st) /\ Truck.id truck = key
                /\ Truck.warehouseId truck = Warehouse.id w.
Proof.
  intros H. apply jobs_In in H.
  destruct H as (Hw & Hne & o & Hrun & He & _). split; [exact Hw|].
  destruct (entries_valid rt (stores st) (trucks st) w o Hne Hrun _ He)
    as (_ & truck & Htruck & Hid).
  apply warehouseTrucks_In in Htruck. exists truck. intuition.
Qed.

(** Every route after [generateRoutes] is the route of some job. *)
Lemma route_job (W : World) (r : Route.t) :
  In r (routes (state (snd (generateRoutes rt W)))) ->
  exists w key ids n,
    In (w, (key, ids)) (jobs rt (state W)) /\
    r = build_route rt (stores (state W)) (trucks (state W)) (w, (key, ids))
                    (calls W + 2 * n).
Proof.
  rewrite routes_after, build_routes_In.
  intros (n & [w [key ids]] & Hn & ->).
  exists w, key, ids, n. split; [|reflexivity]. now apply nth_error_In in Hn.
Qed.

Lemma job_route (W : World) (job : Warehouse.t * (string * list string)) :
  In job (jobs rt (state W)) ->
  exists n,
    In (build_route rt (stores (state W)) (trucks (state W)) job (calls W + 2 * n))
       (routes (state (snd (generateRoutes rt W)))).
Proof.
  intros Hin. apply In_nth_error in Hin. destruct Hin as (n & Hn).
  exists n. rewrite routes_after, build_routes_In. now exists n, job.
Qed.

End Cycle.

(** ** Determinism of the route contents *)

Lemma same_content_of_map (l1 l2 : list Route.t) :
  map content l1 = map content l2 -> Forall2 same_content l1 l2.
Proof.
  revert l2. induction l1 as [|r1 l1 IH]; intros [|r2 l2] H;
    try discriminate; constructor.
  - simpl in H. injection H as ? ? ? ? ? _. unfold same_content. auto.
  - apply IH. simpl in H. now injection H.
Qed.

(** C7: for a fixed state of depots, destinations and vehicles, two
    successive calls to [generateRoutes] both complete, and their route
    collections have the same length and agree position by position on depot
    identifier, vehicle identifier, store sequence, total distance and
    estimated duration.  The second call starts from the store the first one
    left, with other identifiers and timestamps coming from the runtime. *)
Theorem generateRoutes_repeatable (rt : Runtime) (W : World) :
  let first := generateRoutes rt W in
  let second := generateRoutes rt (snd first) in
  fst first = Normal tt /\ fst second = Normal tt /\
  List.length (routes (state (snd first)))
  = List.length (routes (state (snd second))) /\
  Forall2 same_content (routes (state (snd first)))
          (routes (state (snd second))).
Proof.
  intros first second.
  assert (Hcontent : map content (routes (state (snd first)))
                     = map content (routes (state (snd second)))).
  { unfold second. rewrite (routes_after rt (snd first)).
    unfold first. rewrite routes_after.
    destruct (generateRoutes_frame rt W) as (Hw & Hs & Ht & _).
    unfold jobs. rewrite Hw, Hs, Ht.
    apply build_routes_content. }
  repeat split.
  - unfold first. now rewrite generateRoutes_spec.
  - unfold second. now rewrite generateRoutes_spec.
  - apply (f_equal (@List.length _)) in Hcontent.
    now rewrite !length_map in Hcontent.
  - now apply same_content_of_map.
Qed.

(** ** Deleting a warehouse *)

Lemma same_key_same_element {A} (key : A -> string) (l : list A) (x y : A) :
  NoDup (map key l) -> In x l -> In y l -> key x = key y -> x = y.
Proof.
  induction l as [|z l IH]; intros Hnd Hx Hy Hkey; [destruct Hx|].
  simpl in Hnd. inversion_clear Hnd as [|? ? Hnotin Hrest].
  destruct Hx as [-> | Hx], Hy as [-> | Hy]; auto.
  - exfalso. apply Hnotin. rewrite Hkey. now apply in_map.
  - exfalso. apply Hnotin. rewrite <- Hkey. now apply in_map.
Qed.


(** ** Every depot serves every destination *)

Lemma select_owner_covers (roster : list Truck.t) (l : list (Store.t * number))
    (x : Store.t * number) :
  roster <> [] ->
  forall index, In x l ->
  exists truck, In truck roster /\
                In x (select (owner_is roster (Truck.id truck)) index l).
Proof.
  intros Hne. induction l as [|y l IH]; intros index Hin; [destruct Hin|].
  destruct Hin as [-> | Hin].
  - destruct (roster_index roster index Hne) as (truck & Hnth & Htruck).
    exists truck. split; [exact Htruck|]. simpl.
    unfold owner_is at 1. rewrite Hnth, String.eqb_refl. now left.
  - destruct (IH (S index) Hin) as (truck & Htruck & Hsel).
    exists truck. split; [exact Htruck|]. simpl.
    destruct (owner_is roster (Truck.id truck) index); [now right | exact Hsel].
Qed.

Lemma sorted_stores_pairs (rt : Runtime) (stores : list Store.t)
    (w : Warehouse.t) (s : Store.t) :
  In s stores ->
  In (s, GeoDistance rt (Warehouse.location w) (Store.location s))
     (sorted_stores rt stores w).
Proof.
  intros Hs. unfold sorted_stores. apply Array_sort_In.
  unfold storesWithDistance_of, GeoDistance.
  apply (in_map (fun store => (store, _)) stores s Hs).
Qed.

(** C1: in every call to [generateRoutes], for every depot that has at least
    one vehicle (none of them named ["__proto__"], a key that a JavaScript
    object never lists among its entries), every destination of the global
    set is paired with its distance from the depot, is put on the list of one
    of the depot's vehicles, and is in the store sequence of a route of that
    depot.  With several such depots the same destination is therefore on a
    route of each of them. *)
Theorem every_depot_serves_every_store (rt : Runtime) (W : World)
    (w : Warehouse.t) (s : Store.t) :
  In w (warehouses (state W)) ->
  warehouseTrucks_of (trucks (state W)) w <> [] ->
  (forall t, In t (warehouseTrucks_of (trucks (state W)) w) ->
             Truck.id t <> JSObject.proto_key) ->
  In s (stores (state W)) ->
  In (s, GeoDistance rt (Warehouse.location w) (Store.location s))
     (sorted_stores rt (stores (state W)) w) /\
  (exists truckAssignments t storeIds,
      truckAssignments_of rt (stores (state W)) (trucks (state W)) w
      = Normal truckAssignments /\
      In t (warehouseTrucks_of (trucks (state W)) w) /\
      JSObject.get (Truck.id t) truckAssignments = Some storeIds /\
      In (Store.id s) storeIds) /\
  exists r, In r (routes (state (snd (generateRoutes rt W)))) /\
            Route.warehouseId r = Warehouse.id w /\
            In (Store.id s) (Route.stores r).
Proof.
  intros Hw Hne Hproto Hs.
  pose proof (sorted_stores_pairs rt (stores (state W)) w s Hs) as Hpair.
  destruct (truckAssignments_spec rt (stores (state W)) (trucks (state W)) w Hne)
    as (o & Hrun & Hwf & Hget).
  destruct (select_owner_covers _ _ _ Hne 0 Hpair) as (t & Ht & Hsel).
  assert (Hbucket : JSObject.get (Truck.id t) o
                    = Some (store_ids
                              (select (owner_is
                                         (warehouseTrucks_of (trucks (state W)) w)
                                         (Truck.id t)) 0
                                      (sorted_stores rt (stores (state W)) w)))).
  { rewrite Hget.
    replace (has_truck_id (warehouseTrucks_of (trucks (state W)) w) (Truck.id t))
      with true; [reflexivity|].
    symmetry. apply has_truck_id_In. now exists t. }
  assert (Hmember : In (Store.id s)
                      (store_ids
                         (select (owner_is
                                    (warehouseTrucks_of (trucks (state W)) w)
                                    (Truck.id t)) 0
                                 (sorted_stores rt (stores (state W)) w)))).
  { unfold store_ids.
    apply (in_map (fun a => Store.id (fst a)) _ _ Hsel). }
  split; [exact Hpair|]. split.
  - exists o, t. eexists. repeat split; eauto.
  - set (ids := store_ids _) in *.
    assert (Hjob : In (w, (Truck.id t, ids)) (jobs rt (state W))).
    { apply jobs_In. repeat split; auto. exists o. repeat split; auto.
      - apply ObjectFacts.entries_In; auto.
      - intros E. rewrite E in Hmember. destruct Hmember. }
    destruct (job_route rt W _ Hjob) as (n & Hr).
    eexists. split; [exact Hr|]. split; [reflexivity | exact Hmember].
Qed.

(** On the sample data: the San Francisco store is on a route of the New York
    depot. *)
Lemma every_depot_serves_every_store_witness :
  exists r,
    In r (routes (state (snd (generateRoutes Sample.runtime Sample.initial)))) /\
    Route.warehouseId r = Warehouse.id Sample.central /\
    In (Store.id Sample.sf_downtown) (Route.stores r).
Proof.
  apply (every_depot_serves_every_store Sample.runtime Sample.initial
           Sample.central Sample.sf_downtown).
  - simpl. now left.
  - vm_compute. discriminate.
  - intros t Ht. vm_compute in Ht.
    destruct Ht as [<- | [<- | []]]; vm_compute; discriminate.
  - simpl. auto.
Defined.

(** Why the identifier ["__proto__"] is set apart: the store of the depot's
    only truck is pushed onto the array that became the prototype of
    [truckAssignments], [Object.entries] lists nothing, and no route is
    emitted. *)
Example proto_truck_gets_no_route :
  truckAssignments_of Sample.runtime [Sample.downtown] [Sample.proto_truck]
                      Sample.central
  = Normal {| JSObject.own := [];
              JSObject.proto := Some [Store.id Sample.downtown] |} /\
  fst (generateRoutes Sample.runtime Sample.proto_world) = Normal tt /\
  routes (state (snd (generateRoutes Sample.runtime Sample.proto_world))) = [].
Proof. repeat split; vm_compute; reflexivity. Qed.

(** ** Sorted order and round-robin shares *)

Lemma select_ext {A} (p q : nat -> bool) (l : list A) :
  (forall i, p i = q i) -> forall index, select p index l = select q index l.
Proof.
  intros Hpq. induction l as [|x l IH]; intros index; simpl.
  - reflexivity.
  - now rewrite Hpq, IH.
Qed.

Lemma select_nth {A} (p : nat -> bool) (l : list A) (i : nat) (a : A) :
  forall index,
  nth_error l i = Some a -> p (index + i) = true -> In a (select p index l).
Proof.
  revert i. induction l as [|x l IH]; intros i index Hnth Hp.
  - destruct i; discriminate.
  - destruct i as [|i]; simpl in *.
    + injection Hnth as ->. rewrite Nat.add_0_r in Hp. rewrite Hp. now left.
    + assert (Hin : In a (select p (S index) l)).
      { apply (IH i); [exact Hnth|]. now rewrite <- Nat.add_succ_comm in Hp. }
      destruct (p index); [now right | exact Hin].
Qed.

Lemma select_snoc {A} (p : nat -> bool) (l : list A) (x : A) :
  forall index,
  select p index (l ++ [x])
  = select p index l ++ (if p (index + List.length l) then [x] else []).
Proof.
  induction l as [|y l IH]; intros index; simpl.
  - now rewrite Nat.add_0_r.
  - rewrite IH, Nat.add_succ_comm. now destruct (p index).
Qed.

(** With distinct truck identifiers the positions served by the truck at
    roster index [k] are those congruent to [k]. *)
Lemma owner_is_share (roster : list Truck.t) (k : nat) (t : Truck.t) :
  NoDup (map Truck.id roster) ->
  nth_error roster k = Some t ->
  forall i, owner_is roster (Truck.id t) i = (i mod List.length roster =? k).
Proof.
  intros Hnd Hk i. unfold owner_is.
  assert (Hne : roster <> []) by (intros ->; destruct k; discriminate).
  destruct (roster_index roster i Hne) as (t' & Hi & _). rewrite Hi.
  destruct (Nat.eqb_spec (i mod List.length roster) k) as [E | E].
  - rewrite E, Hk in Hi. injection Hi as ->. apply String.eqb_refl.
  - apply String.eqb_neq. intros Hid. apply E.
    rewrite NoDup_nth_error in Hnd. apply Hnd.
    + rewrite length_map. apply nth_error_Some. now rewrite Hi.
    + rewrite !nth_error_map, Hi, Hk. simpl. now rewrite Hid.
Qed.

Section Shares.
Variable rt : Runtime.
Import JSObject.

(** The list of the truck at roster index [k] holds its round-robin share of
    the sorted stores. *)
Lemma bucket_share (stores : list Store.t) (trucks : list Truck.t)
    (w : Warehouse.t) (o : t (list string)) (k : nat) (truck : Truck.t) :
  let roster := warehouseTrucks_of trucks w in
  NoDup (map Truck.id roster) ->
  truckAssignments_of rt stores trucks w = Normal o ->
  nth_error roster k = Some truck ->
  get (Truck.id truck) o
  = Some (store_ids (share (List.length roster) k (sorted_stores rt stores w))).
Proof.
  intros roster Hnd Hrun Hk.
  assert (Hne : roster <> []) by (intros E; rewrite E in Hk; destruct k; discriminate).
  destruct (truckAssignments_spec rt stores trucks w Hne) as (o' & Hrun' & _ & Hget).
  fold roster in Hget. rewrite Hrun in Hrun'. injection Hrun' as <-.
  rewrite Hget.
  replace (has_truck_id roster (Truck.id truck)) with true.
  - unfold share. do 2 f_equal. apply select_ext.
    now apply owner_is_share.
  - symmetry. apply has_truck_id_In. exists truck.
    split; [now apply nth_error_In in Hk | reflexivity].
Qed.

(** What C2 says holds as long as no distance is [NaN]: within one depot's
    processing the roster is the sub-list of the vehicle collection anchored
    to the depot, in the collection's order; the destinations are sorted in
    ascending order of their distance from the depot, ties keeping their
    original relative order; and the i-th destination of the sorted list is
    put on the list of the vehicle at roster index [i mod M], which holds, in
    sorted order, the destinations at the positions that vehicle's identifier
    serves.  On [NaN] the comparator [a.distance - b.distance] is
    inconsistent and ECMAScript leaves the order to the implementation. *)
Theorem sorted_round_robin (stores : list Store.t) (trucks : list Truck.t)
    (w : Warehouse.t) :
  let roster := warehouseTrucks_of trucks w in
  let unsorted := storesWithDistance_of rt stores w in
  let sorted := sorted_stores rt stores w in
  roster <> [] ->
  distances_are_numbers unsorted ->
  roster = filter (fun t => String.eqb (Truck.warehouseId t) (Warehouse.id w))
                  trucks /\
  Permutation sorted unsorted /\
  StronglySorted closer_or_equal sorted /\
  (forall v, filter (fun a => (snd a =? v)%float) sorted
             = filter (fun a => (snd a =? v)%float) unsorted) /\
  exists truckAssignments,
    truckAssignments_of rt stores trucks w = Normal truckAssignments /\
    forall i a, nth_error sorted i = Some a ->
      exists t storeIds,
        nth_error roster (i mod List.length roster) = Some t /\
        get (Truck.id t) truckAssignments = Some storeIds /\
        storeIds = store_ids (select (owner_is roster (Truck.id t)) 0 sorted) /\
        In (Store.id (fst a)) storeIds.
Proof.
  intros roster unsorted sorted Hne Hcmp.
  split; [reflexivity|].
  split; [apply Array_sort_perm|].
  split; [now apply sorted_by_distance|].
  split; [intros v; now apply stable_by_distance|].
  destruct (truckAssignments_spec rt stores trucks w Hne) as (o & Hrun & _ & Hget).
  exists o. split; [exact Hrun|]. intros i a Hi.
  destruct (roster_index roster i Hne) as (t & Ht & Hin).
  exists t. eexists. split; [exact Ht|]. split; [|split; [reflexivity|]].
  - rewrite Hget. fold roster.
    replace (has_truck_id roster (Truck.id t)) with true; [reflexivity|].
    symmetry. apply has_truck_id_In. now exists t.
  - unfold store_ids. apply (in_map (fun s => Store.id (fst s))).
    apply (select_nth _ _ i a 0 Hi). unfold owner_is. cbn [Nat.add].
    fold roster. rewrite Ht. apply String.eqb_refl.
Qed.

End Shares.

(** On the sample data: the stores sorted by distance from the central
    warehouse. *)
Lemma sorted_round_robin_witness :
  StronglySorted closer_or_equal
    (sorted_stores Sample.runtime Sample.sampleStores Sample.central).
Proof.
  apply (sorted_round_robin Sample.runtime Sample.sampleStores
           Sample.sampleTrucks Sample.central).
  - vm_compute. discriminate.
  - vm_compute. repeat constructor.
Defined.

(** ** A distance that is not a number *)

Lemma SFleb_numbers (x y : spec_float) :
  SFleb x y = true -> SFeqb x x = true /\ SFeqb y y = true.
Proof. intros H. split; NumberOrder.by_cases. Qed.

Lemma leb_numbers (x y : number) :
  (x <=? y)%float = true -> is_nan x = false /\ is_nan y = false.
Proof.
  unfold is_nan. rewrite FloatAxioms.leb_spec, !FloatAxioms.eqb_spec.
  intros H. apply SFleb_numbers in H. destruct H as [-> ->]. now split.
Qed.

(** Two elements of an ascending list are equal or in order one way or the
    other. *)
Lemma sorted_related {A} (R : A -> A -> Prop) (l : list A) (a b : A) :
  StronglySorted R l -> In a l -> In b l -> a = b \/ R a b \/ R b a.
Proof.
  induction 1 as [|x l Hs IH Hx]; intros Ha Hb; [destruct Ha|].
  rewrite Forall_forall in Hx.
  destruct Ha as [<- | Ha], Hb as [<- | Hb]; auto.
Qed.

(** However the destinations are arranged, a list holding a destination
    whose distance is [NaN] and another destination is not in ascending
    order of distance. *)
Lemma no_ascending_order (l : list (Store.t * number))
    (a b : Store.t * number) :
  In a l -> In b l -> a <> b -> is_nan (snd a) = true ->
  ~ StronglySorted closer_or_equal l.
Proof.
  intros Ha Hb Hab Hnan Hs.
  destruct (@sorted_related _ _ _ a b Hs Ha Hb) as [E | [H | H]];
    [contradiction| |];
    apply leb_numbers in H; destruct H as [H1 H2]; congruence.
Qed.

(** C2, at an input on which the code leaves the claim: the depot at
    (2.5, 0) and the destinations A (2.5, 3), B (-2.5, 180) and C (2.5, 1),
    coordinates that the forms accept.  B is at the antipode of the depot,
    the haversine term [a] of [calculateDistance] comes out above [1], and
    [Math.sqrt(1 - a)] makes the distance of B [NaN].  The comparator
    [a.distance - b.distance] then answers [NaN] for every pair with B, the
    sort leaves the array as it was, A (333 km) before C (111 km), and the
    one route visits the destinations in that order: to A, to the other side
    of the globe, and back to C next to A.  No arrangement of the three
    destinations is in ascending order of distance. *)
Theorem nan_distance_breaks_the_order :
  forallb sound_store Sample.antipodal_stores = true /\
  sound_warehouse Sample.meridian_depot = true /\
  map (fun a => (Store.id (fst a), snd a))
      (storesWithDistance_of Sample.runtime Sample.antipodal_stores
                             Sample.meridian_depot)
  = [("A"%string, 333.26720868647152); ("B"%string, nan);
     ("C"%string, 111.08909103037809)]%float /\
  store_ids (sorted_stores Sample.runtime Sample.antipodal_stores
                           Sample.meridian_depot)
  = ["A"; "B"; "C"]%string /\
  ~ StronglySorted closer_or_equal
      (sorted_stores Sample.runtime Sample.antipodal_stores
                     Sample.meridian_depot) /\
  (forall l,
      Permutation l (storesWithDistance_of Sample.runtime
                       Sample.antipodal_stores Sample.meridian_depot) ->
      ~ StronglySorted closer_or_equal l) /\
  map (fun r => (Route.truckId r, Route.stores r, Route.distance r))
      (routes (state (snd (generateRoutes Sample.runtime Sample.antipodal))))
  = [("T"%string, ["A"; "B"; "C"]%string, 40030.17%float)].
Proof.
  assert (Hany : forall l,
             Permutation l (storesWithDistance_of Sample.runtime
                              Sample.antipodal_stores Sample.meridian_depot) ->
             ~ StronglySorted closer_or_equal l).
  { intros l Hperm.
    apply no_ascending_order
      with (a := (Sample.destination "B" (-2.5) 180, nan))
           (b := (Sample.destination "A" 2.5 3, 333.26720868647152%float)).
    - apply (Permutation_in _ (Permutation_sym Hperm)).
      vm_compute. right. left. reflexivity.
    - apply (Permutation_in _ (Permutation_sym Hperm)).
      vm_compute. left. reflexivity.
    - intros H. inversion H.
    - reflexivity. }
  split; [vm_compute; reflexivity|]. split; [vm_compute; reflexivity|].
  split; [vm_compute; reflexivity|]. split; [vm_compute; reflexivity|].
  split; [apply Hany, Array_sort_perm|]. split; [exact Hany|].
  vm_compute. reflexivity.
Qed.

(** ** Balance of the round-robin *)

Lemma div_mod_succ (M n : nat) :
  0 < M ->
  (S n mod M = 0 /\ S n / M = S (n / M) /\ S (n mod M) = M) \/
  (S n mod M = S (n mod M) /\ S n / M = n / M /\ S (n mod M) < M).
Proof.
  intros HM.
  pose proof (Nat.div_mod_eq n M) as Hn.
  pose proof (Nat.mod_upper_bound n M ltac:(lia)) as Hr.
  destruct (Nat.eq_dec (S (n mod M)) M) as [E | E].
  - left. repeat split; auto.
    + symmetry. apply (Nat.mod_unique (S n) M (S (n / M)) 0); lia.
    + symmetry. apply (Nat.div_unique (S n) M (S (n / M)) 0); lia.
  - right. repeat split; try lia.
    + symmetry. apply (Nat.mod_unique (S n) M (n / M) (S (n mod M))); lia.
    + symmetry. apply (Nat.div_unique (S n) M (n / M) (S (n mod M))); lia.
Qed.

(** The size of a share: [N / M], and one more for the first [N mod M]
    vehicles. *)
Lemma share_length {A} (M k : nat) (l : list A) :
  k < M ->
  List.length (share M k l)
  = List.length l / M + (if k <? List.length l mod M then 1 else 0).
Proof.
  intros Hk. unfold share.
  induction l as [|x l IH] using rev_ind.
  - simpl. rewrite Nat.Div0.div_0_l, Nat.Div0.mod_0_l. reflexivity.
  - rewrite select_snoc, !length_app, IH. cbn [List.length Nat.add].
    rewrite Nat.add_1_r.
    destruct (div_mod_succ M (List.length l) ltac:(lia))
      as [(Hm & Hd & Hr) | (Hm & Hd & Hr)]; rewrite Hm, Hd.
    + destruct (Nat.eqb_spec (List.length l mod M) k) as [E | E];
        destruct (Nat.ltb_spec k (List.length l mod M));
        destruct (Nat.ltb_spec k 0); simpl; lia.
    + destruct (Nat.eqb_spec (List.length l mod M) k) as [E | E];
        destruct (Nat.ltb_spec k (List.length l mod M));
        destruct (Nat.ltb_spec k (S (List.length l mod M))); simpl; lia.
Qed.

Lemma sum_of_shares (M q r : nat) :
  list_sum (map (fun k => q + (if k <? r then 1 else 0)) (seq 0 M))
  = M * q + Nat.min r M.
Proof.
  induction M as [|M IH].
  - simpl. lia.
  - rewrite seq_S, map_app, list_sum_app, IH. cbn [map Nat.add].
    unfold list_sum. cbn [fold_right].
    destruct (Nat.ltb_spec M r); lia.
Qed.

Lemma map_by_index {A B} (f : A -> B) (g : nat -> B) (l : list A) :
  (forall k x, nth_error l k = Some x -> f x = g k) ->
  map f l = map g (seq 0 (List.length l)).
Proof.
  revert g. induction l as [|x l IH]; intros g H; simpl.
  - reflexivity.
  - rewrite (H 0 x eq_refl). f_equal.
    rewrite <- seq_shift, map_map. apply IH.
    intros k y Hk. apply (H (S k) y Hk).
Qed.

(** C3: for every depot with at least one vehicle (the guard of
    [generateRoutes]) and distinct vehicle identifiers, after the round-robin
    partition the per-vehicle counts of assigned destinations sum to the
    number [N] of destinations and no two of them differ by more than one.
    The bound [M <= N] of the claim is not needed. *)
Theorem round_robin_balanced (rt : Runtime) (stores : list Store.t)
    (trucks : list Truck.t) (w : Warehouse.t) :
  let roster := warehouseTrucks_of trucks w in
  roster <> [] ->
  NoDup (map Truck.id roster) ->
  exists truckAssignments,
    truckAssignments_of rt stores trucks w = Normal truckAssignments /\
    list_sum (map (assigned_count truckAssignments) roster)
    = List.length stores /\
    forall t t', In t roster -> In t' roster ->
      assigned_count truckAssignments t
      <= assigned_count truckAssignments t' + 1.
Proof.
  intros roster Hne Hnd.
  destruct (truckAssignments_spec rt stores trucks w Hne) as (o & Hrun & _).
  exists o. split; [exact Hrun|].
  set (M := List.length roster).
  set (N := List.length stores).
  assert (HM : 0 < M).
  { unfold M. destruct roster; [contradiction | simpl; lia]. }
  assert (Hsorted : List.length (sorted_stores rt stores w) = N).
  { unfold sorted_stores, storesWithDistance_of.
    now rewrite Array_sort_length, length_map. }
  assert (Hcount : forall k t, nth_error roster k = Some t ->
            assigned_count o t = N / M + (if k <? N mod M then 1 else 0)).
  { intros k t Hk. unfold assigned_count.
    rewrite (bucket_share rt stores trucks w o k t Hnd Hrun Hk).
    unfold store_ids. rewrite length_map. fold roster. fold M.
    rewrite share_length, Hsorted; [reflexivity|].
    apply nth_error_Some. fold roster in Hk. now rewrite Hk. }
  split.
  - rewrite (map_by_index _ _ roster Hcount). fold M.
    rewrite sum_of_shares.
    pose proof (Nat.mod_upper_bound N M ltac:(lia)).
    pose proof (Nat.div_mod_eq N M). lia.
  - intros t t' Ht Ht'.
    apply In_nth_error in Ht, Ht'.
    destruct Ht as (k & Hk). destruct Ht' as (k' & Hk').
    rewrite (Hcount k t Hk), (Hcount k' t' Hk').
    destruct (k <? N mod M), (k' <? N mod M); lia.
Qed.

(** On the sample data: three stores shared between the two trucks of the
    central warehouse. *)
Lemma round_robin_balanced_witness :
  exists truckAssignments,
    truckAssignments_of Sample.runtime Sample.sampleStores Sample.sampleTrucks
                        Sample.central = Normal truckAssignments /\
    list_sum (map (assigned_count truckAssignments)
                  (warehouseTrucks_of Sample.sampleTrucks Sample.central))
    = List.length Sample.sampleStores /\
    forall t t',
      In t (warehouseTrucks_of Sample.sampleTrucks Sample.central) ->
      In t' (warehouseTrucks_of Sample.sampleTrucks Sample.central) ->
      assigned_count truckAssignments t
      <= assigned_count truckAssignments t' + 1.
Proof.
  apply (round_robin_balanced Sample.runtime Sample.sampleStores
           Sample.sampleTrucks Sample.central).
  - vm_compute. discriminate.
  - vm_compute. repeat constructor; simpl; intuition discriminate.
Defined.

(** ** Distance and duration of a route *)

Lemma find_unique {A} (id_of : A -> string) (l : list A) (x : A) :
  NoDup (map id_of l) -> In x l ->
  Array_find (fun y => String.eqb (id_of y) (id_of x)) l = Some x.
Proof.
  unfold Array_find. induction l as [|y l IH]; intros Hnd Hin; [destruct Hin|].
  simpl in *. inversion_clear Hnd as [|? ? Hnotin Hrest].
  destruct (String.eqb (id_of y) (id_of x)) eqn:E.
  - destruct Hin as [-> | Hin]; [reflexivity|].
    exfalso. apply Hnotin. apply String.eqb_eq in E. rewrite E.
    now apply in_map.
  - destruct Hin as [-> | Hin]; [|now apply IH].
    now rewrite String.eqb_refl in E.
Qed.

Lemma distinct_keys_filter {A} (key : A -> string) (keep : A -> bool)
    (l : list A) (Hnd : NoDup (map key l)) :
  NoDup (map key (filter keep l)).
Proof.
  induction l as [|x l IH]; simpl; [constructor|].
  simpl in Hnd. inversion_clear Hnd as [|? ? Hnotin Hrest].
  destruct (keep x); simpl; [|now apply IH].
  constructor; [|now apply IH].
  intros Hin. apply Hnotin. apply in_map_iff in Hin.
  destruct Hin as (y & Hy & Hin). apply filter_In in Hin.
  rewrite <- Hy. apply in_map. tauto.
Qed.

Section Lengths.
Variable rt : Runtime.
Import JSObject ObjectFacts.



Lemma speed_of_truck (trucks : list Truck.t) (t : Truck.t) :
  NoDup (map Truck.id trucks) -> In t trucks ->
  speed_of trucks (Truck.id t) = Truck.speed t.
Proof.
  intros Hnd Hin. unfold speed_of. now rewrite find_unique.
Qed.







End Lengths.



(** One depot, two vehicles, three destinations: the nearest and the
    farthest go to the first vehicle, the middle one to the second. *)
Example equator_routes :
  map (fun r => (Route.truckId r, Route.stores r, Route.distance r,
                 Route.estimatedTime r))
      (routes (state (snd (generateRoutes Sample.runtime Sample.equator))))
  = [("V1", ["D1"; "D3"], 667.17, 11.12)%float;
     ("V2", ["D2"], 444.78, 7.41)%float]%string.
Proof. vm_compute. reflexivity. Qed.

(** ** One route per served (depot, vehicle) pair *)

Lemma filter_none {A} (p : A -> bool) (l : list A) :
  (forall x, In x l -> p x = false) -> filter p l = [].
Proof.
  induction l as [|x l IH]; intros H; simpl; [reflexivity|].
  rewrite (H x (or_introl eq_refl)). apply IH. intros y Hy. apply H. now right.
Qed.

Lemma filter_key_unique {V} (l : list (string * V)) (k : string) (v : V) :
  NoDup (map fst l) -> In (k, v) l ->
  filter (fun e => String.eqb (fst e) k) l = [(k, v)].
Proof.
  induction l as [|[k' v'] l IH]; intros Hnd Hin; [destruct Hin|].
  simpl in *. inversion_clear Hnd as [|? ? Hnotin Hrest].
  destruct (String.eqb k' k) eqn:E.
  - apply String.eqb_eq in E. subst k'.
    destruct Hin as [[= ->] | Hin].
    + f_equal. apply filter_none. intros [k2 v2] H2. simpl.
      apply String.eqb_neq. intros ->. apply Hnotin.
      now apply (in_map fst) in H2.
    + exfalso. apply Hnotin. now apply (in_map fst) in Hin.
  - destruct Hin as [[= -> ->] | Hin]; [|now apply IH].
    now rewrite String.eqb_refl in E.
Qed.

Section Replacement.
Variable rt : Runtime.
Import JSObject ObjectFacts.

Lemma count_build_routes (stores : list Store.t) (trucks : list Truck.t)
    (wid tid : string) (js : list (Warehouse.t * (string * list string)))
    (c : nat) :
  count_routes wid tid (build_routes rt stores trucks js c)
  = List.length (filter (job_is wid tid) js).
Proof.
  unfold count_routes. revert c.
  induction js as [|[w [key ids]] js IH]; intros c; simpl; [reflexivity|].
  unfold job_is at 1. simpl.
  destruct (String.eqb (Warehouse.id w) wid && String.eqb key tid); simpl;
    now rewrite IH.
Qed.

Lemma filter_jobs_of (wid tid : string) (w : Warehouse.t)
    (es : list (string * list string)) :
  filter (job_is wid tid) (map (pair w) es)
  = if String.eqb (Warehouse.id w) wid
    then map (pair w) (filter (fun e => String.eqb (fst e) tid) es)
    else [].
Proof.
  induction es as [|e es IH]; simpl.
  - now destruct (String.eqb (Warehouse.id w) wid).
  - unfold job_is at 1. simpl. rewrite IH.
    destruct (String.eqb (Warehouse.id w) wid); simpl; [|reflexivity].
    now destruct (String.eqb (fst e) tid).
Qed.

Lemma jobs_of_warehouse (st : DataState) (w : Warehouse.t) (tid : string) :
  NoDup (map Warehouse.id (warehouses st)) ->
  In w (warehouses st) ->
  List.length (filter (job_is (Warehouse.id w) tid) (jobs rt st))
  = List.length (filter (fun e => String.eqb (fst e) tid)
                        (route_entries rt (stores st) (trucks st) w)).
Proof.
  unfold jobs. induction (warehouses st) as [|w' ws IH]; intros Hnd Hin;
    [destruct Hin|].
  simpl in *. inversion_clear Hnd as [|? ? Hnotin Hrest].
  rewrite filter_app, length_app, filter_jobs_of.
  destruct Hin as [-> | Hin].
  - rewrite String.eqb_refl, length_map.
    match goal with
    | |- _ + List.length (filter ?p ?l) = _ => rewrite (filter_none p l)
    end; [simpl; lia|].
    intros [w2 e2] H2. apply in_flat_map in H2.
    destruct H2 as (w3 & Hw3 & H2). apply in_map_iff in H2.
    destruct H2 as (e3 & [= <- <-] & _). unfold job_is. simpl.
    apply andb_false_intro1, String.eqb_neq. intros E. apply Hnotin.
    rewrite <- E. now apply in_map.
  - replace (String.eqb (Warehouse.id w') (Warehouse.id w)) with false.
    + simpl. now apply IH.
    + symmetry. apply String.eqb_neq. intros E. apply Hnotin.
      rewrite E. now apply in_map.
Qed.

(** C6: with distinct depot identifiers and no vehicle named ["__proto__"],
    [generateRoutes] completes and replaces the whole route collection: the
    result does not depend on the routes present before the call; the states
    the subscribers see during the call hold no route, then the first new
    route, the first two, ..., never an earlier route beside a new one; after
    the call every (depot, vehicle) pair has exactly one route when the
    vehicle received at least one destination and none when it received none;
    and every route was created in this call for such a pair. *)
Theorem generateRoutes_replaces (W : World) :
  NoDup (map Warehouse.id (warehouses (state W))) ->
  (forall t, In t (trucks (state W)) -> Truck.id t <> proto_key) ->
  fst (generateRoutes rt W) = Normal tt /\
  (forall previous,
      generateRoutes rt
        {| state := with_routes (state W) previous;
           calls := calls W;
           notified := notified W |}
      = generateRoutes rt W) /\
  notified (snd (generateRoutes rt W))
  = notified W
    ++ map (fun k =>
              with_routes (state W)
                (firstn k (routes (state (snd (generateRoutes rt W))))))
           (seq 0 (S (List.length
                        (routes (state (snd (generateRoutes rt W))))))) /\
  (forall w t,
      In w (warehouses (state W)) -> In t (trucks (state W)) ->
      Truck.warehouseId t = Warehouse.id w ->
      exists truckAssignments,
        truckAssignments_of rt (stores (state W)) (trucks (state W)) w
        = Normal truckAssignments /\
        count_routes (Warehouse.id w) (Truck.id t)
                     (routes (state (snd (generateRoutes rt W))))
        = if assigned_count truckAssignments t =? 0 then 0 else 1) /\
  (forall r,
      In r (routes (state (snd (generateRoutes rt W)))) ->
      exists w t n,
        In w (warehouses (state W)) /\ In t (trucks (state W)) /\
        Truck.warehouseId t = Warehouse.id w /\
        Route.warehouseId r = Warehouse.id w /\
        Route.truckId r = Truck.id t /\
        Route.id r = random_id rt (calls W + 2 * n) /\
        Route.created r = Date_now rt (S (calls W + 2 * n))).
Proof.
  intros Hnd Hproto.
  split; [now rewrite generateRoutes_spec|].
  split; [intros previous; now rewrite !generateRoutes_spec|].
  split; [apply generateRoutes_notified|].
  split.
  - intros w t Hw Ht Hanchor.
    assert (Hroster : In t (warehouseTrucks_of (trucks (state W)) w))
      by now apply warehouseTrucks_In.
    assert (Hne : warehouseTrucks_of (trucks (state W)) w <> [])
      by (intros E; rewrite E in Hroster; destruct Hroster).
    destruct (truckAssignments_spec rt (stores (state W)) (trucks (state W)) w Hne)
      as (o & Hrun & Hwf & Hget).
    exists o. split; [exact Hrun|].
    rewrite routes_after, count_build_routes, jobs_of_warehouse by assumption.
    unfold route_entries. rewrite Hrun.
    replace (List.length (warehouseTrucks_of (trucks (state W)) w) =? 0)
      with false
      by (symmetry; apply Nat.eqb_neq; now rewrite length_zero_iff_nil).
    specialize (Hget (Truck.id t)).
    replace (has_truck_id (warehouseTrucks_of (trucks (state W)) w) (Truck.id t))
      with true in Hget
      by (symmetry; apply has_truck_id_In; now exists t).
    unfold assigned_count. rewrite Hget.
    set (ids := store_ids _) in *.
    destruct (List.length ids =? 0) eqn:Hlen.
    + rewrite filter_none; [reflexivity|].
      intros [key ids'] He. apply filter_In in He. destruct He as [He Hnonempty].
      simpl in *. apply String.eqb_neq. intros ->.
      apply (entries_In _ _ _ o Hwf) in He. destruct He as [_ He].
      rewrite Hget in He. injection He as <-.
      rewrite Hlen in Hnonempty. discriminate.
    + rewrite (filter_key_unique _ (Truck.id t) ids); [reflexivity| |].
      * apply distinct_keys_filter. now apply entries_NoDup.
      * apply filter_In. split; [|simpl; now rewrite Hlen].
        apply (entries_In _ _ _ o Hwf). split; [now apply Hproto | exact Hget].
  - intros r Hr. apply route_job in Hr.
    destruct Hr as (w & key & ids & n & Hjob & ->).
    apply jobs_truck in Hjob. destruct Hjob as (Hw & t & Ht & <- & Hanchor).
    exists w, t, n. repeat split; auto.
Qed.

End Replacement.

(** On the sample data: the first truck of the central warehouse gets exactly
    one route. *)
Lemma generateRoutes_replaces_witness :
  count_routes (Warehouse.id Sample.central) (Truck.id Sample.truck1)
               (routes (state (snd (generateRoutes Sample.runtime
                                      Sample.initial))))
  = 1.
Proof.
  destruct (generateRoutes_replaces Sample.runtime Sample.initial)
    as (_ & _ & _ & Hcount & _).
  - vm_compute. repeat constructor; simpl; intuition discriminate.
  - intros t Ht. vm_compute in Ht.
    destruct Ht as [<- | [<- | [<- | []]]]; vm_compute; discriminate.
  - destruct (Hcount Sample.central Sample.truck1) as (o & Hrun & ->).
    + simpl. now left.
    + simpl. now left.
    + reflexivity.
    + vm_compute in Hrun. injection Hrun as <-. reflexivity.
Defined.

(** ** A vehicle of speed zero *)

(** C5, as the code behaves: [generateRoutes] completes normally on a depot
    whose only truck has speed [0], and the route it emits has the estimated
    duration [Infinity]. *)
Lemma zero_speed_emits_infinity :
  fst (generateRoutes Sample.runtime Sample.stalled) = Normal tt /\
  map (fun r => (Route.truckId r, Route.estimatedTime r))
      (routes (state (snd (generateRoutes Sample.runtime Sample.stalled))))
  = [("t0"%string, infinity)].
Proof. split; vm_compute; reflexivity. Qed.

(** C5, amended: [generateRoutes] never throws, whatever the speeds of the
    vehicles, and every route whose vehicle has speed zero carries an
    estimated duration that is an infinity or [NaN].  There is such a route
    for every vehicle of speed zero with at least one assigned destination:
    with distinct vehicle identifiers, a vehicle [t] of the roster of a depot
    [w], not identified by ["__proto__"], whose list in [truckAssignments] is
    not empty, gets a route of [w] with that list as store sequence and an
    estimated duration that is an infinity or [NaN]. *)
Theorem zero_speed_is_silent (rt : Runtime) (W : World) :
  fst (generateRoutes rt W) = Normal tt /\
  Forall (fun r =>
            (speed_of (trucks (state W)) (Route.truckId r) =? 0)%float = true ->
            is_nan (Route.estimatedTime r) || is_infinity (Route.estimatedTime r)
            = true)
         (routes (state (snd (generateRoutes rt W)))) /\
  forall w t truckAssignments storeIds,
    NoDup (map Truck.id (trucks (state W))) ->
    In w (warehouses (state W)) ->
    In t (warehouseTrucks_of (trucks (state W)) w) ->
    Truck.id t <> JSObject.proto_key ->
    (Truck.speed t =? 0)%float = true ->
    truckAssignments_of rt (stores (state W)) (trucks (state W)) w
    = Normal truckAssignments ->
    JSObject.get (Truck.id t) truckAssignments = Some storeIds ->
    storeIds <> [] ->
    exists r,
      In r (routes (state (snd (generateRoutes rt W)))) /\
      Route.warehouseId r = Warehouse.id w /\
      Route.truckId r = Truck.id t /\
      Route.stores r = storeIds /\
      is_nan (Route.estimatedTime r) || is_infinity (Route.estimatedTime r)
      = true.
Proof.
  assert (Hsilent : forall w ids key,
             (speed_of (trucks (state W)) key =? 0)%float = true ->
             let time := toFixed2 (totalDistance_of rt (stores (state W)) w ids
                                   / speed_of (trucks (state W)) key)%float in
             is_nan time || is_infinity time = true).
  { intros w ids key Hzero.
    pose proof (NumberOrder.div_by_zero
                  (totalDistance_of rt (stores (state W)) w ids) _ Hzero)
      as Hdiv.
    cbv zeta. now rewrite (NumberOrder.toFixed2_not_finite _ Hdiv). }
  split; [now rewrite generateRoutes_spec|]. split.
  - apply Forall_forall. intros r Hr Hzero.
    apply route_job in Hr. destruct Hr as (w & key & ids & n & _ & ->).
    cbn [build_route Route.truckId Route.estimatedTime] in *.
    now apply Hsilent.
  - intros w t o ids Htrucks Hw Ht Hproto Hzero Hrun Hget Hids.
    assert (Hne : warehouseTrucks_of (trucks (state W)) w <> [])
      by (intros E; rewrite E in Ht; destruct Ht).
    destruct (truckAssignments_spec rt (stores (state W)) (trucks (state W))
                w Hne) as (o' & Hrun' & Hwf & _).
    rewrite Hrun in Hrun'. injection Hrun' as <-.
    assert (Hjob : In (w, (Truck.id t, ids)) (jobs rt (state W))).
    { apply jobs_In. split; [exact Hw|]. split; [exact Hne|].
      exists o. split; [exact Hrun|]. split; [|exact Hids].
      now apply (ObjectFacts.entries_In _ _ _ o Hwf). }
    destruct (job_route rt W _ Hjob) as (n & Hr).
    eexists. split; [exact Hr|].
    cbn [build_route Route.warehouseId Route.truckId Route.stores
         Route.estimatedTime].
    repeat split. apply Hsilent.
    rewrite (speed_of_truck _ t Htrucks); [exact Hzero|].
    now apply warehouseTrucks_In in Ht.
Qed.

(** On the depot whose only truck has speed [0]. *)
Lemma zero_speed_is_silent_witness :
  exists r,
    In r (routes (state (snd (generateRoutes Sample.runtime Sample.stalled)))) /\
    Route.warehouseId r = "w1"%string /\
    Route.truckId r = "t0"%string /\
    Route.stores r = ["s1"%string] /\
    is_nan (Route.estimatedTime r) || is_infinity (Route.estimatedTime r)
    = true.
Proof.
  destruct (zero_speed_is_silent Sample.runtime Sample.stalled)
    as (_ & _ & Hroute).
  refine (Hroute Sample.central Sample.stalled_truck
                 (JSObject.set "t0" ["s1"%string] JSObject.empty)
                 ["s1"%string] _ _ _ _ _ _ _ _).
  - simpl. repeat constructor. intros [].
  - now left.
  - now left.
  - discriminate.
  - reflexivity.
  - vm_compute. reflexivity.
  - reflexivity.
  - discriminate.
Defined.

(** ** Updating and deleting routes *)

(** C8, as the code behaves: [updateRoute] and [deleteRoute] complete with the
    same value, [undefined], for the identifier of a route of the store
    (["ra"]) and for an identifier no route has (["zz"]); in the latter case
    the route collection is left as it was. *)
Lemma update_delete_return_nothing :
  (exists route, In route (routes (state Sample.dispatched)) /\
                 Route.id route = "ra"%string) /\
  (forall route, In route (routes (state Sample.dispatched)) ->
                 Route.id route <> "zz"%string) /\
  fst (updateRoute "ra" Sample.new_distance Sample.dispatched)
  = fst (updateRoute "zz" Sample.new_distance Sample.dispatched) /\
  fst (deleteRoute "ra" Sample.dispatched)
  = fst (deleteRoute "zz" Sample.dispatched) /\
  routes (state (snd (updateRoute "zz" Sample.new_distance Sample.dispatched)))
  = routes (state Sample.dispatched) /\
  routes (state (snd (deleteRoute "zz" Sample.dispatched)))
  = routes (state Sample.dispatched).
Proof.
  split; [exists Sample.route_a; split; [now left | reflexivity]|].
  split; [intros route [<- | [<- | []]]; discriminate|].
  repeat split; reflexivity.
Qed.

Lemma state_eta (st : DataState) :
  {| warehouses := warehouses st; stores := stores st; trucks := trucks st;
     routes := routes st |} = st.
Proof. now destruct st. Qed.

(** C8, amended: [updateRoute] and [deleteRoute] return nothing, in every
    case.  They replace every route carrying the identifier by its merge with
    the partial fields, respectively remove every such route; when no route
    carries the identifier the store is left unchanged and nothing reports
    it. *)
Theorem update_delete_are_silent (W : World) (id : string)
    (data : Route.partial) :
  fst (updateRoute id data W) = Normal tt /\
  fst (deleteRoute id W) = Normal tt /\
  routes (state (snd (updateRoute id data W)))
  = map (fun route => if String.eqb (Route.id route) id
                      then Route.spread route data else route)
        (routes (state W)) /\
  (forall route, In route (routes (state (snd (deleteRoute id W)))) <->
                 In route (routes (state W)) /\ Route.id route <> id) /\
  ((forall route, In route (routes (state W)) -> Route.id route <> id) ->
   state (snd (updateRoute id data W)) = state W /\
   state (snd (deleteRoute id W)) = state W).
Proof.
  split; [reflexivity|]. split; [reflexivity|]. split; [reflexivity|]. split.
  - intros route. unfold deleteRoute, set_routes. cbn.
    rewrite filter_In, negb_true_iff, String.eqb_neq. reflexivity.
  - intros Habsent. unfold updateRoute, deleteRoute, set_routes. cbn.
    assert (Hsame : map (fun route => if String.eqb (Route.id route) id
                                      then Route.spread route data else route)
                        (routes (state W))
                    = routes (state W)).
    { rewrite <- (map_id (routes (state W))) at 2.
      apply map_ext_in. intros route Hin.
      apply Habsent, String.eqb_neq in Hin. now rewrite Hin. }
    assert (Hkept : filter (fun route => negb (String.eqb (Route.id route) id))
                           (routes (state W))
                    = routes (state W)).
    { apply forallb_filter_id, forallb_forall. intros route Hin.
      apply Habsent, String.eqb_neq in Hin. now rewrite Hin. }
    rewrite Hsame, Hkept. split; apply state_eta.
Qed.

(** ** Distinct route identifiers *)

(** C9, as the code behaves: the routes of the store have the distinct
    identifiers ["ra"] and ["rb"]; after [updateRoute("ra", { id: "rb" })] two
    routes carry the identifier ["rb"]. *)
Lemma update_can_duplicate_identifier :
  NoDup (map Route.id (routes (state Sample.dispatched))) /\
  map Route.id
      (routes (state (snd (updateRoute "ra" Sample.rename_to_rb
                                       Sample.dispatched))))
  = ["rb"%string; "rb"%string] /\
  ~ NoDup (map Route.id
               (routes (state (snd (updateRoute "ra" Sample.rename_to_rb
                                                Sample.dispatched))))).
Proof.
  split; [|split].
  - simpl. repeat constructor; simpl; intuition discriminate.
  - reflexivity.
  - simpl. intros H. inversion_clear H as [|? ? Hnotin _].
    apply Hnotin. now left.
Qed.

Lemma NoDup_snoc {A} (l : list A) (x : A) :
  NoDup l -> ~ In x l -> NoDup (l ++ [x]).
Proof.
  induction l as [|y l IH]; simpl; intros Hnd Hx.
  - constructor; [intros []|constructor].
  - inversion_clear Hnd as [|? ? Hy Hl]. constructor.
    + rewrite in_app_iff. simpl. intuition congruence.
    + apply IH; [exact Hl | tauto].
Qed.

Lemma build_routes_ids (rt : Runtime) (stores : list Store.t)
    (trucks : list Truck.t)
    (js : list (Warehouse.t * (string * list string))) (c : nat) :
  map Route.id (build_routes rt stores trucks js c)
  = map (fun n => random_id rt (c + 2 * n)) (seq 0 (List.length js)).
Proof.
  revert c. induction js as [|[w [key ids]] js IH]; intros c; simpl.
  - reflexivity.
  - rewrite Nat.add_0_r. f_equal.
    rewrite IH, <- seq_shift, map_map. apply map_ext. intros n.
    f_equal. lia.
Qed.

(** C9, amended: when the route identifiers are pairwise distinct,
    - [deleteRoute] keeps them so;
    - [updateRoute] keeps them so when the partial fields have no [id];
    - [addRoute] keeps them so when the identifier the runtime generates is
      not the identifier of a route of the store.
    Whatever the routes were before, the routes [generateRoutes] leaves carry
    the identifiers the runtime generated during the cycle, one for each
    route in turn, and so have pairwise distinct identifiers exactly when
    those are pairwise distinct. *)
Theorem identifiers_stay_distinct (rt : Runtime) (W : World) :
  (NoDup (map Route.id (routes (state W))) ->
   (forall id,
       NoDup (map Route.id (routes (state (snd (deleteRoute id W)))))) /\
   (forall id data,
       Route.p_id data = None ->
       NoDup (map Route.id (routes (state (snd (updateRoute id data W)))))) /\
   (forall route,
       ~ In (random_id rt (calls W)) (map Route.id (routes (state W))) ->
       NoDup (map Route.id (routes (state (snd (addRoute rt route W))))))) /\
  map Route.id (routes (state (snd (generateRoutes rt W))))
  = map (fun n => random_id rt (calls W + 2 * n))
        (seq 0 (List.length (routes (state (snd (generateRoutes rt W)))))) /\
  ((forall i j,
       i < j < List.length (routes (state (snd (generateRoutes rt W)))) ->
       random_id rt (calls W + 2 * i) <> random_id rt (calls W + 2 * j)) <->
   NoDup (map Route.id (routes (state (snd (generateRoutes rt W)))))).
Proof.
  split; [intros Hnd; split; [|split]|].
  - intros id. unfold deleteRoute, set_routes. cbn.
    now apply distinct_keys_filter.
  - intros id data Hdata. unfold updateRoute, set_routes. cbn.
    rewrite map_map.
    erewrite map_ext; [exact Hnd|]. intros route. cbn.
    destruct (String.eqb (Route.id route) id); [|reflexivity].
    unfold Route.spread. cbn. now rewrite Hdata.
  - intros route Hfresh. unfold addRoute, bind, fresh_id, set_routes. cbn.
    rewrite map_app. cbn. now apply NoDup_snoc.
  - assert (Hids : map Route.id (routes (state (snd (generateRoutes rt W))))
                   = map (fun n => random_id rt (calls W + 2 * n))
                         (seq 0 (List.length
                                   (routes (state (snd (generateRoutes rt W))))))).
    { now rewrite routes_after, build_routes_ids, build_routes_length. }
    split; [exact Hids|]. rewrite Hids.
    generalize (List.length (routes (state (snd (generateRoutes rt W))))).
    intros n. split.
    + intros Hinj. apply NoDup_map_NoDup_ForallPairs; [|apply seq_NoDup].
      intros i j Hi Hj Heq. apply in_seq in Hi, Hj.
      destruct (Nat.lt_trichotomy i j) as [Hlt | [Heqij | Hgt]];
        [|exact Heqij|].
      * exfalso. apply (Hinj i j); [lia | exact Heq].
      * exfalso. apply (Hinj j i); [lia | now symmetry].
    + intros Hnd i j Hij Heq.
      rewrite NoDup_nth_error in Hnd. specialize (Hnd i j).
      rewrite length_map, length_seq, !nth_error_map in Hnd.
      rewrite !(nth_error_nth' _ 0) in Hnd by (rewrite length_seq; lia).
      rewrite !seq_nth in Hnd by lia. cbn [option_map Nat.add] in Hnd.
      rewrite Heq in Hnd. specialize (Hnd ltac:(lia) eq_refl). lia.
Qed.

Lemma tally_injective (n m : nat) : Sample.tally n = Sample.tally m -> n = m.
Proof.
  revert m. induction n as [|n IH]; intros [|m] H; try discriminate.
  - reflexivity.
  - simpl in H. injection H as H. f_equal. now apply IH.
Qed.

(** On a store with two routes and a runtime that never repeats an
    identifier. *)
Lemma identifiers_stay_distinct_witness :
  NoDup (map Route.id
             (routes (state (snd (deleteRoute "ra" Sample.dispatched))))) /\
  NoDup (map Route.id
             (routes (state (snd (updateRoute "ra" Sample.new_distance
                                              Sample.dispatched))))) /\
  NoDup (map Route.id
             (routes (state (snd (addRoute Sample.runtime Sample.manual_route
                                           Sample.dispatched))))) /\
  NoDup (map Route.id
             (routes (state (snd (generateRoutes Sample.runtime
                                                 Sample.dispatched))))).
Proof.
  destruct (identifiers_stay_distinct Sample.runtime Sample.dispatched)
    as (Hkept & _ & Hgenerate).
  destruct Hkept as (Hdelete & Hupdate & Hadd).
  - simpl. repeat constructor; simpl; intuition discriminate.
  - split; [apply Hdelete|]. split; [now apply Hupdate|].
    split.
    + apply Hadd. simpl. intuition discriminate.
    + apply Hgenerate. intros i j Hlt Heq. simpl in Heq.
      injection Heq as Heq. apply tally_injective in Heq. lia.
Defined.

(* ================================================================== *)
(** * The other actions of the store *)

(** ** Lists of identified elements *)

Section Collections.
Variable A : Type.
Variable id_of : A -> string.

Lemma update_unknown (id : string) (f : A -> A) (l : list A) :
  (forall x, In x l -> id_of x <> id) ->
  map (fun x => if String.eqb (id_of x) id then f x else x) l = l.
Proof.
  intros Habsent. rewrite <- (map_id l) at 2. apply map_ext_in.
  intros x Hin. apply Habsent, String.eqb_neq in Hin. now rewrite Hin.
Qed.

Lemma delete_unknown (id : string) (l : list A) :
  (forall x, In x l -> id_of x <> id) ->
  filter (fun x => negb (String.eqb (id_of x) id)) l = l.
Proof.
  intros Habsent. apply forallb_filter_id, forallb_forall.
  intros x Hin. apply Habsent, String.eqb_neq in Hin. now rewrite Hin.
Qed.


Lemma ids_unknown (id : string) (l : list A) :
  ~ In id (map id_of l) -> forall x, In x l -> id_of x <> id.
Proof. intros Hnot x Hin <-. apply Hnot. now apply in_map. Qed.

Lemma deleted_In (id : string) (l : list A) (x : A) :
  In x (filter (fun y => negb (String.eqb (id_of y) id)) l)
  <-> In x l /\ id_of x <> id.
Proof. now rewrite filter_In, negb_true_iff, String.eqb_neq. Qed.

Lemma ids_updated (id : string) (f : A -> A) (l : list A) :
  (forall x, id_of (f x) = id_of x) ->
  map id_of (map (fun x => if String.eqb (id_of x) id then f x else x) l)
  = map id_of l.
Proof.
  intros Hf. rewrite map_map. apply map_ext. intros x.
  now destruct (String.eqb (id_of x) id).
Qed.

Lemma find_updated (id key : string) (f : A -> A) (l : list A) :
  (forall x, id_of (f x) = id_of x) ->
  Array_find (fun x => String.eqb (id_of x) key)
             (map (fun x => if String.eqb (id_of x) id then f x else x) l)
  = option_map (fun x => if String.eqb (id_of x) id then f x else x)
               (Array_find (fun x => String.eqb (id_of x) key) l).
Proof.
  intros Hf. unfold Array_find. induction l as [|x l IH]; simpl; [reflexivity|].
  replace (id_of (if String.eqb (id_of x) id then f x else x)) with (id_of x)
    by (now destruct (String.eqb (id_of x) id)).
  destruct (String.eqb (id_of x) key); [reflexivity | exact IH].
Qed.

Lemma find_key (key : string) (l : list A) (x : A) :
  Array_find (fun y => String.eqb (id_of y) key) l = Some x -> id_of x = key.
Proof.
  unfold Array_find. intros H. apply find_some in H.
  now apply String.eqb_eq.
Qed.

End Collections.

(** ** Identifiers that no element carries *)

(** X1: [updateWarehouse], [updateStore] and [updateTruck] called with an
    identifier that no element of their collection carries return normally and
    leave the four collections as they were, whatever the partial fields;
    nothing tells the caller that nothing was found, and the subscribers are
    notified of the unchanged state all the same. *)
Theorem update_of_unknown_identifier (W : World) (id : string) :
  let unchanged :=
    (Normal tt,
     {| state := state W; calls := calls W;
        notified := notified W ++ [state W] |}) in
  (~ In id (map Warehouse.id (warehouses (state W))) ->
   forall data, updateWarehouse id data W = unchanged) /\
  (~ In id (map Store.id (stores (state W))) ->
   forall data, updateStore id data W = unchanged) /\
  (~ In id (map Truck.id (trucks (state W))) ->
   forall data, updateTruck id data W = unchanged).
Proof.
  intros unchanged. unfold unchanged.
  repeat split; intros;
    unfold updateWarehouse, updateStore, updateTruck, set_warehouses,
      set_stores, set_trucks, publish;
    cbn [state calls notified];
    rewrite ?(update_unknown _ Warehouse.id), ?(update_unknown _ Store.id),
      ?(update_unknown _ Truck.id) by (now apply ids_unknown);
    now rewrite state_eta.
Qed.

(** On the sample data no truck is identified by ["t9"]. *)
Lemma update_of_unknown_identifier_witness :
  updateTruck "t9" Sample.move_west Sample.initial
  = (Normal tt,
     {| state := state Sample.initial; calls := 0;
        notified := [state Sample.initial] |}).
Proof.
  apply (update_of_unknown_identifier Sample.initial "t9").
  simpl. intuition discriminate.
Defined.

(** X2: [deleteWarehouse], [deleteStore] and [deleteTruck] called with an
    identifier that no element of their collection carries return normally and
    leave the four collections as they were; nothing tells the caller that
    nothing was deleted, and the subscribers are notified of the unchanged
    state all the same. *)
Theorem delete_of_unknown_identifier (W : World) (id : string) :
  let unchanged :=
    (Normal tt,
     {| state := state W; calls := calls W;
        notified := notified W ++ [state W] |}) in
  (~ In id (map Warehouse.id (warehouses (state W))) ->
   deleteWarehouse id W = unchanged) /\
  (~ In id (map Store.id (stores (state W))) ->
   deleteStore id W = unchanged) /\
  (~ In id (map Truck.id (trucks (state W))) ->
   deleteTruck id W = unchanged).
Proof.
  intros unchanged. unfold unchanged.
  repeat split; intros;
    unfold deleteWarehouse, deleteStore, deleteTruck, set_warehouses,
      set_stores, set_trucks, publish;
    cbn [state calls notified];
    rewrite ?(delete_unknown _ Warehouse.id), ?(delete_unknown _ Store.id),
      ?(delete_unknown _ Truck.id) by (now apply ids_unknown);
    now rewrite state_eta.
Qed.

(** On the sample data no truck is identified by ["t9"]. *)
Lemma delete_of_unknown_identifier_witness :
  deleteTruck "t9" Sample.initial
  = (Normal tt,
     {| state := state Sample.initial; calls := 0;
        notified := [state Sample.initial] |}).
Proof.
  apply (delete_of_unknown_identifier Sample.initial "t9").
  simpl. intuition discriminate.
Defined.

(** ** Adding and deleting again *)



(** ** Reading back an update *)

(** X4: the test [updates warehouse] of the source, for every collection:
    after an update whose partial fields have no [id], looking up the updated
    identifier with [find] gives the merge of the element that [find] gave
    before with the partial fields, and looking up any other identifier gives
    what it gave before.  The identifiers of the collection, their order
    included, are unchanged. *)
Theorem update_then_find (W : World) (id : string) :
  (forall data, Warehouse.p_id data = None ->
      let after := warehouses (state (snd (updateWarehouse id data W))) in
      map Warehouse.id after = map Warehouse.id (warehouses (state W)) /\
      Array_find (fun w => String.eqb (Warehouse.id w) id) after
      = option_map (fun w => Warehouse.spread w data)
          (Array_find (fun w => String.eqb (Warehouse.id w) id)
                      (warehouses (state W))) /\
      forall key, key <> id ->
        Array_find (fun w => String.eqb (Warehouse.id w) key) after
        = Array_find (fun w => String.eqb (Warehouse.id w) key)
                     (warehouses (state W))) /\
  (forall data, Store.p_id data = None ->
      let after := stores (state (snd (updateStore id data W))) in
      map Store.id after = map Store.id (stores (state W)) /\
      Array_find (fun s => String.eqb (Store.id s) id) after
      = option_map (fun s => Store.spread s data)
          (Array_find (fun s => String.eqb (Store.id s) id) (stores (state W))) /\
      forall key, key <> id ->
        Array_find (fun s => String.eqb (Store.id s) key) after
        = Array_find (fun s => String.eqb (Store.id s) key) (stores (state W))) /\
  (forall data, Truck.p_id data = None ->
      let after := trucks (state (snd (updateTruck id data W))) in
      map Truck.id after = map Truck.id (trucks (state W)) /\
      Array_find (fun t => String.eqb (Truck.id t) id) after
      = option_map (fun t => Truck.spread t data)
          (Array_find (fun t => String.eqb (Truck.id t) id) (trucks (state W))) /\
      forall key, key <> id ->
        Array_find (fun t => String.eqb (Truck.id t) key) after
        = Array_find (fun t => String.eqb (Truck.id t) key) (trucks (state W))) /\
  (forall data, Route.p_id data = None ->
      let after := routes (state (snd (updateRoute id data W))) in
      map Route.id after = map Route.id (routes (state W)) /\
      Array_find (fun r => String.eqb (Route.id r) id) after
      = option_map (fun r => Route.spread r data)
          (Array_find (fun r => String.eqb (Route.id r) id) (routes (state W))) /\
      forall key, key <> id ->
        Array_find (fun r => String.eqb (Route.id r) key) after
        = Array_find (fun r => String.eqb (Route.id r) key) (routes (state W))).
Proof.
  assert (Hread : forall (A : Type) (id_of : A -> string) (f : A -> A)
                         (l : list A),
             (forall x, id_of (f x) = id_of x) ->
             let after :=
               map (fun x => if String.eqb (id_of x) id then f x else x) l in
             map id_of after = map id_of l /\
             Array_find (fun x => String.eqb (id_of x) id) after
             = option_map f (Array_find (fun x => String.eqb (id_of x) id) l) /\
             forall key, key <> id ->
               Array_find (fun x => String.eqb (id_of x) key) after
               = Array_find (fun x => String.eqb (id_of x) key) l).
  { intros A id_of f l Hf after. unfold after.
    split; [now apply ids_updated|]. split.
    - rewrite find_updated by exact Hf.
      destruct (Array_find (fun x => String.eqb (id_of x) id) l) as [x|] eqn:E;
        [|reflexivity].
      apply find_key in E. cbn. now rewrite E, String.eqb_refl.
    - intros key Hkey. rewrite find_updated by exact Hf.
      destruct (Array_find (fun x => String.eqb (id_of x) key) l) as [x|] eqn:E;
        [|reflexivity].
      apply find_key in E. cbn. f_equal.
      replace (String.eqb (id_of x) id) with false; [reflexivity|].
      symmetry. apply String.eqb_neq. congruence. }
  repeat apply conj; intros data Hdata.
  - apply (Hread _ Warehouse.id (fun w => Warehouse.spread w data)).
    intros w. unfold Warehouse.spread. cbn. now rewrite Hdata.
  - apply (Hread _ Store.id (fun s => Store.spread s data)).
    intros s. unfold Store.spread. cbn. now rewrite Hdata.
  - apply (Hread _ Truck.id (fun t => Truck.spread t data)).
    intros t. unfold Truck.spread. cbn. now rewrite Hdata.
  - apply (Hread _ Route.id (fun r => Route.spread r data)).
    intros r. unfold Route.spread. cbn. now rewrite Hdata.
Qed.

(** On the sample data: the first truck is anchored to the western depot. *)
Lemma update_then_find_witness :
  Array_find (fun t => String.eqb (Truck.id t) "t1")
             (trucks (state (snd (updateTruck "t1" Sample.move_west
                                              Sample.initial))))
  = Some (Truck.spread Sample.truck1 Sample.move_west).
Proof.
  destruct (update_then_find Sample.initial "t1") as (_ & _ & Htruck & _).
  destruct (Htruck Sample.move_west eq_refl) as (_ & Hfind & _).
  exact Hfind.
Defined.

(** ** Distinct identifiers of warehouses, stores and trucks *)

(** X5: when the identifiers of a collection of warehouses, stores or trucks
    are pairwise distinct, the actions on that collection keep them so: the
    deletion always, the update when the partial fields have no [id], and the
    addition when the identifier the runtime generates is not in use in the
    collection.  Nothing else is checked: the addition does not look at the
    identifiers present. *)
Theorem entity_identifiers_stay_distinct (rt : Runtime) (W : World) :
  (NoDup (map Warehouse.id (warehouses (state W))) ->
   (forall id,
       NoDup (map Warehouse.id
                  (warehouses (state (snd (deleteWarehouse id W)))))) /\
   (forall id data, Warehouse.p_id data = None ->
       NoDup (map Warehouse.id
                  (warehouses (state (snd (updateWarehouse id data W)))))) /\
   (forall warehouse,
       ~ In (random_id rt (calls W)) (map Warehouse.id (warehouses (state W))) ->
       NoDup (map Warehouse.id
                  (warehouses (state (snd (addWarehouse rt warehouse W))))))) /\
  (NoDup (map Store.id (stores (state W))) ->
   (forall id,
       NoDup (map Store.id (stores (state (snd (deleteStore id W)))))) /\
   (forall id data, Store.p_id data = None ->
       NoDup (map Store.id (stores (state (snd (updateStore id data W)))))) /\
   (forall store,
       ~ In (random_id rt (calls W)) (map Store.id (stores (state W))) ->
       NoDup (map Store.id (stores (state (snd (addStore rt store W))))))) /\
  (NoDup (map Truck.id (trucks (state W))) ->
   (forall id,
       NoDup (map Truck.id (trucks (state (snd (deleteTruck id W)))))) /\
   (forall id data, Truck.p_id data = None ->
       NoDup (map Truck.id (trucks (state (snd (updateTruck id data W)))))) /\
   (forall truck,
       ~ In (random_id rt (calls W)) (map Truck.id (trucks (state W))) ->
       NoDup (map Truck.id (trucks (state (snd (addTruck rt truck W))))))).
Proof.
  split; [|split]; intros Hnd; (split; [|split]).
  - intros id. cbn. now apply distinct_keys_filter.
  - intros id data Hdata. cbn. rewrite ids_updated; [exact Hnd|].
    intros w. unfold Warehouse.spread. cbn. now rewrite Hdata.
  - intros warehouse Hfresh. cbn. rewrite map_app. cbn. now apply NoDup_snoc.
  - intros id. cbn. now apply distinct_keys_filter.
  - intros id data Hdata. cbn. rewrite ids_updated; [exact Hnd|].
    intros s. unfold Store.spread. cbn. now rewrite Hdata.
  - intros store Hfresh. cbn. rewrite map_app. cbn. now apply NoDup_snoc.
  - intros id. cbn. now apply distinct_keys_filter.
  - intros id data Hdata. cbn. rewrite ids_updated; [exact Hnd|].
    intros t. unfold Truck.spread. cbn. now rewrite Hdata.
  - intros truck Hfresh. cbn. rewrite map_app. cbn. now apply NoDup_snoc.
Qed.

(** On the sample data, with a runtime whose identifiers start with ["r"]. *)
Lemma entity_identifiers_stay_distinct_witness :
  NoDup (map Truck.id (trucks (state (snd (deleteTruck "t1" Sample.initial))))).
Proof.
  destruct (entity_identifiers_stay_distinct Sample.runtime Sample.initial)
    as (_ & _ & Htrucks).
  destruct Htrucks as (Hdelete & _).
  - simpl. repeat constructor; simpl; intuition discriminate.
  - apply Hdelete.
Defined.

(* ================================================================== *)
(** * More on the routes of a generation cycle *)

(** ** What the routes refer to *)

Lemma route_references (rt : Runtime) (W : World) (r : Route.t) :
  In r (routes (state (snd (generateRoutes rt W)))) ->
  (exists w, In w (warehouses (state W)) /\
             Warehouse.id w = Route.warehouseId r) /\
  (exists t, In t (trucks (state W)) /\ Truck.id t = Route.truckId r /\
             Truck.warehouseId t = Route.warehouseId r) /\
  Route.stores r <> [] /\
  forall storeId, In storeId (Route.stores r) ->
    exists s, In s (stores (state W)) /\ Store.id s = storeId.
Proof.
  intros Hr. apply route_job in Hr.
  destruct Hr as (w & key & ids & n & Hjob & ->).
  cbn [build_route Route.warehouseId Route.truckId Route.stores].
  pose proof (jobs_truck rt _ _ _ _ Hjob) as (Hw & t & Ht & Hid & Hanchor).
  apply jobs_In in Hjob. destruct Hjob as (_ & Hne & o & Hrun & He & Hids).
  destruct (entries_valid rt _ _ w o Hne Hrun _ He) as ((Hknown & _) & _).
  split; [now exists w|]. split; [now exists t|]. split; [exact Hids|].
  exact Hknown.
Qed.

(** X6: [generateRoutes] leaves warehouses, stores and trucks as they are, and
    every route of the store after it refers to them: its [warehouseId] is the
    identifier of a warehouse, its [truckId] the identifier of a truck
    anchored to that warehouse, its list of stores is not empty and holds
    identifiers of stores only.  This holds for every content of the
    collections, duplicate identifiers included. *)
Theorem routes_refer_to_the_store (rt : Runtime) (W : World) :
  let after := state (snd (generateRoutes rt W)) in
  warehouses after = warehouses (state W) /\
  stores after = stores (state W) /\
  trucks after = trucks (state W) /\
  Forall (fun r =>
            (exists w, In w (warehouses after) /\
                       Warehouse.id w = Route.warehouseId r) /\
            (exists t, In t (trucks after) /\ Truck.id t = Route.truckId r /\
                       Truck.warehouseId t = Route.warehouseId r) /\
            Route.stores r <> [] /\
            forall storeId, In storeId (Route.stores r) ->
              exists s, In s (stores after) /\ Store.id s = storeId)
         (routes after).
Proof.
  intros after. unfold after.
  destruct (generateRoutes_frame rt W) as (Hw & Hs & Ht & _).
  rewrite Hw, Hs, Ht. repeat split.
  apply Forall_forall. intros r Hr. exact (route_references rt W r Hr).
Qed.

(** ** Deleting a store or a truck *)

(** X7: [deleteStore] removes the stores carrying the identifier and nothing
    else: warehouses, trucks and routes stay as they were, so a route that
    lists the identifier keeps listing it although no store carries it any
    more.  Once [generateRoutes] has run on a collection of stores that is
    still the one [deleteStore] left, no route lists the identifier. *)
Theorem deleteStore_frame (rt : Runtime) (W : World) (id : string) :
  let W' := snd (deleteStore id W) in
  fst (deleteStore id W) = Normal tt /\
  warehouses (state W') = warehouses (state W) /\
  trucks (state W') = trucks (state W) /\
  routes (state W') = routes (state W) /\
  (forall s, In s (stores (state W'))
             <-> In s (stores (state W)) /\ Store.id s <> id) /\
  (forall r, In r (routes (state W)) -> In id (Route.stores r) ->
             In r (routes (state W')) /\
             ~ In id (map Store.id (stores (state W')))) /\
  forall later : World,
    stores (state later) = stores (state W') ->
    Forall (fun r => ~ In id (Route.stores r))
           (routes (state (snd (generateRoutes rt later)))).
Proof.
  intros W'. unfold W', deleteStore, set_stores. cbn.
  do 4 (split; [reflexivity|]).
  split; [intros s; apply deleted_In|].
  assert (Hgone : ~ In id (map Store.id
                     (filter (fun s => negb (String.eqb (Store.id s) id))
                             (stores (state W))))).
  { intros Hin. apply in_map_iff in Hin. destruct Hin as (s & Hid & Hs).
    apply deleted_In in Hs. tauto. }
  split; [intros r Hr _; split; [exact Hr | exact Hgone]|].
  intros later Hsame. apply Forall_forall. intros r Hr Hin.
  destruct (route_references rt later r Hr) as (_ & _ & _ & Hknown).
  destruct (Hknown id Hin) as (s & Hs & Hid).
  rewrite Hsame in Hs. apply Hgone, in_map_iff. now exists s.
Qed.

(** X8: [deleteTruck] removes the trucks carrying the identifier and nothing
    else: warehouses, stores and routes stay as they were, so a route of the
    deleted truck stays in the store.  Once [generateRoutes] has run on a
    collection of trucks that is still the one [deleteTruck] left, no route
    names the identifier. *)
Theorem deleteTruck_frame (rt : Runtime) (W : World) (id : string) :
  let W' := snd (deleteTruck id W) in
  fst (deleteTruck id W) = Normal tt /\
  warehouses (state W') = warehouses (state W) /\
  stores (state W') = stores (state W) /\
  routes (state W') = routes (state W) /\
  (forall t, In t (trucks (state W'))
             <-> In t (trucks (state W)) /\ Truck.id t <> id) /\
  (forall r, In r (routes (state W)) -> Route.truckId r = id ->
             In r (routes (state W')) /\
             ~ In id (map Truck.id (trucks (state W')))) /\
  forall later : World,
    trucks (state later) = trucks (state W') ->
    Forall (fun r => Route.truckId r <> id)
           (routes (state (snd (generateRoutes rt later)))).
Proof.
  intros W'. unfold W', deleteTruck, set_trucks. cbn.
  do 4 (split; [reflexivity|]).
  split; [intros t; apply deleted_In|].
  assert (Hgone : ~ In id (map Truck.id
                     (filter (fun t => negb (String.eqb (Truck.id t) id))
                             (trucks (state W))))).
  { intros Hin. apply in_map_iff in Hin. destruct Hin as (t & Hid & Ht).
    apply deleted_In in Ht. tauto. }
  split; [intros r Hr _; split; [exact Hr | exact Hgone]|].
  intros later Hsame. apply Forall_forall. intros r Hr Hid.
  destruct (route_references rt later r Hr) as (_ & (t & Ht & Htid & _) & _).
  rewrite Hsame in Ht. apply Hgone, in_map_iff. exists t. split; congruence.
Qed.

(** ** Updating a truck and generating again *)

(** X9: [updateTruck] changes trucks only: the routes in the store keep the
    depot and the duration they were given.  After the next [generateRoutes],
    as long as the trucks are those the update left, every route of the
    updated identifier belongs to the depot the update anchored the truck to,
    and its duration is its total distance divided by the speed the update
    set, rounded to two decimals.  The partial fields must not rename the
    truck. *)
Theorem updated_truck_takes_effect_on_generation (rt : Runtime) (W : World)
    (id : string) (data : Truck.partial) :
  let W' := snd (updateTruck id data W) in
  Truck.p_id data = None ->
  routes (state W') = routes (state W) /\
  forall later : World,
    trucks (state later) = trucks (state W') ->
    forall r, In r (routes (state (snd (generateRoutes rt later)))) ->
              Route.truckId r = id ->
      (forall warehouseId, Truck.p_warehouseId data = Some warehouseId ->
                           Route.warehouseId r = warehouseId) /\
      (forall speed, Truck.p_speed data = Some speed ->
         exists w, In w (warehouses (state later)) /\
                   Warehouse.id w = Route.warehouseId r /\
                   Route.estimatedTime r
                   = toFixed2 (totalDistance_of rt (stores (state later)) w
                                                (Route.stores r) / speed)%float).
Proof.
  intros W' Hdata. split; [reflexivity|].
  intros later Hsame r Hr Hid.
  assert (Hkeep : forall t, Truck.id (Truck.spread t data) = Truck.id t).
  { intros t. unfold Truck.spread. cbn. now rewrite Hdata. }
  assert (Htrucks : trucks (state later)
                    = map (fun t => if String.eqb (Truck.id t) id
                                    then Truck.spread t data else t)
                          (trucks (state W))) by exact Hsame.
  split.
  - intros warehouseId Hmove.
    destruct (route_references rt later r Hr) as (_ & (t & Ht & Htid & Hanchor) & _).
    rewrite Htrucks in Ht. apply in_map_iff in Ht.
    destruct Ht as (t0 & <- & _). rewrite <- Hanchor.
    destruct (String.eqb (Truck.id t0) id) eqn:E.
    + unfold Truck.spread. cbn. now rewrite Hmove.
    + apply String.eqb_neq in E. congruence.
  - intros speed Hspeed.
    apply route_job in Hr. destruct Hr as (w & key & ids & n & Hjob & ->).
    cbn [build_route Route.truckId Route.warehouseId Route.stores
         Route.estimatedTime] in *. subst key.
    pose proof (jobs_truck rt _ _ _ _ Hjob) as (Hw & t & Ht & Htid & _).
    exists w. split; [exact Hw|]. split; [reflexivity|].
    do 2 f_equal. unfold speed_of. rewrite Htrucks.
    rewrite (find_updated _ Truck.id) by exact Hkeep.
    rewrite Htrucks in Ht. apply in_map_iff in Ht.
    destruct Ht as (t0 & Ht0 & Hin0).
    assert (Hid0 : Truck.id t0 = id).
    { rewrite <- Htid, <- Ht0.
      destruct (String.eqb (Truck.id t0) id); [now rewrite Hkeep | reflexivity]. }
    destruct (find_by_id Truck.id (trucks (state W)) id) as (t1 & Hfind & _ & Hid1).
    { now exists t0. }
    rewrite Hfind. cbn. rewrite Hid1, String.eqb_refl.
    unfold Truck.spread. cbn. now rewrite Hspeed.
Qed.

(** On the sample data: the first truck is moved to the western depot. *)
Lemma updated_truck_takes_effect_on_generation_witness :
  Forall (fun r => Route.truckId r = "t1"%string ->
                   Route.warehouseId r = "w2"%string)
         (routes (state (snd (generateRoutes Sample.runtime
            (snd (updateTruck "t1" Sample.move_west Sample.initial)))))).
Proof.
  apply Forall_forall. intros r Hr Hid.
  pose proof (updated_truck_takes_effect_on_generation Sample.runtime
                Sample.initial "t1" Sample.move_west eq_refl) as Hupdate.
  cbv zeta in Hupdate. destruct Hupdate as (_ & Hlater).
  destruct (Hlater (snd (updateTruck "t1" Sample.move_west Sample.initial))
                   eq_refl r Hr Hid) as (Hmove & _).
  apply Hmove. reflexivity.
Defined.

(** ** The routes of one depot *)

Section Partition.
Variable rt : Runtime.
Import JSObject ObjectFacts.

Lemma assoc_set_push (k x : string) (arr : list string)
    (l : list (string * list string)) :
  assoc_get k l = Some arr ->
  Permutation (flat_map snd (assoc_set k (arr ++ [x]) l))
              (flat_map snd l ++ [x]).
Proof.
  induction l as [|[k' v'] l IH]; simpl; [discriminate|].
  destruct (String.eqb k k').
  - intros [= ->]. simpl. rewrite <- !app_assoc.
    apply Permutation_app_head, Permutation_app_comm.
  - intros Hget. simpl. rewrite <- app_assoc.
    apply Permutation_app_head. now apply IH.
Qed.

(** Distributing the stores adds each identifier once to the own
    properties. *)
Lemma distribute_perm (roster : list Truck.t) (l : list (Store.t * number)) :
  (forall t, In t roster -> Truck.id t <> proto_key) ->
  forall (index : nat) (o o' : t (list string)),
  forEach_local (assign_store roster) l index o = Normal o' ->
  Permutation (flat_map snd (own o')) (flat_map snd (own o) ++ store_ids l).
Proof.
  intros Hproto. induction l as [|x l IH]; intros index o o' Hrun.
  - injection Hrun as <-. simpl. now rewrite app_nil_r.
  - cbn [forEach_local] in Hrun.
    destruct (assign_store roster o x index) as [o1|] eqn:Hstep;
      [|discriminate].
    apply IH in Hrun. apply (perm_trans Hrun).
    unfold assign_store in Hstep.
    destruct (nth_error roster (index mod List.length roster)) as [truck|] eqn:Hn;
      [|discriminate].
    destruct (get (Truck.id truck) o) as [arr|] eqn:Hget; [|discriminate].
    injection Hstep as <-.
    assert (Hk : String.eqb (Truck.id truck) proto_key = false).
    { apply String.eqb_neq, Hproto. now apply nth_error_In in Hn. }
    unfold get in Hget. unfold set. rewrite Hk in *. cbn [own store_ids map].
    change (Store.id (fst x) :: map (fun s => Store.id (fst s)) l)
      with ([Store.id (fst x)] ++ store_ids l).
    rewrite app_assoc. apply Permutation_app_tail.
    now apply assoc_set_push.
Qed.

Lemma init_assignments_values (roster : list Truck.t) :
  flat_map snd (own (init_assignments roster)) = [].
Proof.
  destruct (init_assignments_spec roster) as [Hwf Hget].
  assert (Hall : forall e, In e (own (init_assignments roster)) -> snd e = []).
  { intros [k v] He. apply (own_get _ k v _ Hwf) in He. destruct He as [_ He].
    rewrite Hget in He.
    destruct (has_truck_id roster k); [now injection He | discriminate]. }
  induction (own (init_assignments roster)) as [|e l IH]; [reflexivity|].
  simpl. rewrite (Hall e (or_introl eq_refl)). apply IH.
  intros e' He'. apply Hall. now right.
Qed.

Lemma nonempty_entries (es : list (string * list string)) :
  flat_map snd (filter (fun e => negb (List.length (snd e) =? 0)) es)
  = flat_map snd es.
Proof.
  induction es as [|[k v] es IH]; simpl; [reflexivity|].
  destruct v as [|x v]; simpl; [exact IH | now rewrite IH].
Qed.

Lemma sorted_store_ids (stores : list Store.t) (w : Warehouse.t) :
  Permutation (store_ids (sorted_stores rt stores w)) (map Store.id stores).
Proof.
  unfold store_ids, sorted_stores.
  apply perm_trans
    with (map (fun s => Store.id (fst s)) (storesWithDistance_of rt stores w)).
  - apply Permutation_map, Array_sort_perm.
  - unfold storesWithDistance_of. rewrite map_map. apply Permutation_refl.
Qed.

(** The lists of the entries that become routes hold every store identifier
    once. *)
Lemma entries_partition (stores : list Store.t) (trucks : list Truck.t)
    (w : Warehouse.t) :
  warehouseTrucks_of trucks w <> [] ->
  (forall t, In t (warehouseTrucks_of trucks w) -> Truck.id t <> proto_key) ->
  Permutation (flat_map snd (route_entries rt stores trucks w))
              (map Store.id stores).
Proof.
  intros Hne Hproto. unfold route_entries.
  replace (List.length (warehouseTrucks_of trucks w) =? 0) with false
    by (symmetry; apply Nat.eqb_neq; now rewrite length_zero_iff_nil).
  destruct (truckAssignments_spec rt stores trucks w Hne) as (o & Hrun & _).
  rewrite Hrun, nonempty_entries.
  apply perm_trans with (flat_map snd (own o)).
  - apply Permutation_flat_map, entries_perm.
  - unfold truckAssignments_of in Hrun.
    apply (distribute_perm _ _ Hproto) in Hrun.
    rewrite init_assignments_values in Hrun. simpl in Hrun.
    apply (perm_trans Hrun), sorted_store_ids.
Qed.

Lemma routes_of_jobs (stores : list Store.t) (trucks : list Truck.t)
    (wid : string) (js : list (Warehouse.t * (string * list string)))
    (c : nat) :
  map (fun r => (Route.truckId r, Route.stores r))
      (filter (fun r => String.eqb (Route.warehouseId r) wid)
              (build_routes rt stores trucks js c))
  = map snd (filter (fun j => String.eqb (Warehouse.id (fst j)) wid) js).
Proof.
  revert c. induction js as [|[w [key ids]] js IH]; intros c; simpl;
    [reflexivity|].
  destruct (String.eqb (Warehouse.id w) wid); simpl; now rewrite IH.
Qed.

Lemma jobs_of_depot (st : DataState) (w : Warehouse.t) :
  NoDup (map Warehouse.id (warehouses st)) ->
  In w (warehouses st) ->
  filter (fun j => String.eqb (Warehouse.id (fst j)) (Warehouse.id w))
         (jobs rt st)
  = map (pair w) (route_entries rt (stores st) (trucks st) w).
Proof.
  unfold jobs. induction (warehouses st) as [|w' ws IH]; intros Hnd Hin;
    [destruct Hin|].
  simpl in *. inversion_clear Hnd as [|? ? Hnotin Hrest].
  rewrite filter_app.
  assert (Hmap : forall (v : Warehouse.t) (es : list (string * list string)),
             filter (fun j => String.eqb (Warehouse.id (fst j)) (Warehouse.id w))
                    (map (pair v) es)
             = if String.eqb (Warehouse.id v) (Warehouse.id w)
               then map (pair v) es else []).
  { intros v es. induction es as [|e es IHes]; simpl.
    - now destruct (String.eqb (Warehouse.id v) (Warehouse.id w)).
    - rewrite IHes. now destruct (String.eqb (Warehouse.id v) (Warehouse.id w)). }
  rewrite Hmap. destruct Hin as [-> | Hin].
  - rewrite String.eqb_refl.
    rewrite filter_none; [apply app_nil_r|].
    intros [w2 e2] H2. apply in_flat_map in H2.
    destruct H2 as (w3 & Hw3 & H2). apply in_map_iff in H2.
    destruct H2 as (e3 & [= <- <-] & _). simpl.
    apply String.eqb_neq. intros E. apply Hnotin.
    rewrite <- E. now apply in_map.
  - replace (String.eqb (Warehouse.id w') (Warehouse.id w)) with false.
    + simpl. now apply IH.
    + symmetry. apply String.eqb_neq. intros E. apply Hnotin.
      rewrite E. now apply in_map.
Qed.

(** With distinct depot identifiers, the routes carrying the identifier of
    a depot are those of the entries of its [truckAssignments]. *)
Lemma routes_of_depot (W : World) (w : Warehouse.t) :
  NoDup (map Warehouse.id (warehouses (state W))) ->
  In w (warehouses (state W)) ->
  map (fun r => (Route.truckId r, Route.stores r))
      (filter (fun r => String.eqb (Route.warehouseId r) (Warehouse.id w))
              (routes (state (snd (generateRoutes rt W)))))
  = route_entries rt (stores (state W)) (trucks (state W)) w.
Proof.
  intros Hnd Hw. rewrite routes_after, routes_of_jobs, jobs_of_depot by assumption.
  rewrite map_map. cbn [snd]. apply map_id.
Qed.

End Partition.

(** X10: with distinct depot identifiers, the routes of a depot that has at
    least one truck, none of them identified by ["__proto__"], visit every
    store exactly once: the store lists of the routes carrying the depot's
    identifier, put end to end, are a rearrangement of the identifiers of the
    store collection.  A store identifier carried by several stores is visited
    once for each of them. *)
Theorem depot_routes_partition_the_stores (rt : Runtime) (W : World)
    (w : Warehouse.t) :
  NoDup (map Warehouse.id (warehouses (state W))) ->
  In w (warehouses (state W)) ->
  warehouseTrucks_of (trucks (state W)) w <> [] ->
  (forall t, In t (warehouseTrucks_of (trucks (state W)) w) ->
             Truck.id t <> JSObject.proto_key) ->
  Permutation
    (flat_map Route.stores
       (filter (fun r => String.eqb (Route.warehouseId r) (Warehouse.id w))
               (routes (state (snd (generateRoutes rt W))))))
    (map Store.id (stores (state W))).
Proof.
  intros Hnd Hw Hne Hproto.
  apply perm_trans
    with (flat_map snd
            (route_entries rt (stores (state W)) (trucks (state W)) w)).
  - rewrite <- (routes_of_depot rt W w Hnd Hw).
    rewrite !flat_map_concat_map, map_map. cbn [snd]. apply Permutation_refl.
  - now apply entries_partition.
Qed.

(** On the sample data: the routes of the central warehouse. *)
Lemma depot_routes_partition_the_stores_witness :
  Permutation
    (flat_map Route.stores
       (filter (fun r => String.eqb (Route.warehouseId r)
                                    (Warehouse.id Sample.central))
               (routes (state (snd (generateRoutes Sample.runtime
                                      Sample.initial))))))
    (map Store.id (stores (state Sample.initial))).
Proof.
  apply (depot_routes_partition_the_stores Sample.runtime Sample.initial
           Sample.central).
  - simpl. repeat constructor; simpl; intuition discriminate.
  - simpl. now left.
  - vm_compute. discriminate.
  - intros t Ht. vm_compute in Ht.
    destruct Ht as [<- | [<- | []]]; vm_compute; discriminate.
Defined.

(** ** How many routes a depot gets *)

Lemma filter_length_perm {A} (p : A -> bool) (l l' : list A) :
  Permutation l l' ->
  List.length (filter p l) = List.length (filter p l').
Proof.
  induction 1 as [|x l l' _ IH|x y l|l l' l'' _ IH1 _ IH2]; simpl.
  - reflexivity.
  - destruct (p x); simpl; now rewrite IH.
  - destruct (p x), (p y); reflexivity.
  - now rewrite IH1.
Qed.

Lemma filter_length_by_index {A} (p : A -> bool) (q : nat -> bool)
    (l : list A) :
  (forall k x, nth_error l k = Some x -> p x = q k) ->
  List.length (filter p l) = List.length (filter q (seq 0 (List.length l))).
Proof.
  revert q. induction l as [|x l IH]; intros q H; simpl; [reflexivity|].
  assert (Hshift : forall s,
             List.length (filter q (map S s))
             = List.length (filter (fun k => q (S k)) s)).
  { induction s as [|k s IHs]; simpl; [reflexivity|].
    destruct (q (S k)); simpl; now rewrite IHs. }
  assert (Htail : List.length (filter p l)
                  = List.length (filter q (seq 1 (List.length l)))).
  { rewrite <- seq_shift, Hshift. apply IH.
    intros k y Hk. apply (H (S k) y Hk). }
  rewrite (H 0 x eq_refl). destruct (q 0); simpl; now rewrite Htail.
Qed.

Lemma count_below (M N : nat) :
  List.length (filter (fun k => k <? N) (seq 0 M)) = Nat.min M N.
Proof.
  induction M as [|M IH]; [reflexivity|].
  rewrite seq_S, filter_app, length_app, IH. cbn [Nat.add filter].
  destruct (Nat.ltb_spec M N); cbn [List.length]; lia.
Qed.

Section Counting.
Variable rt : Runtime.
Import JSObject ObjectFacts.

(** The keys listed by [Object.entries(truckAssignments)] are the
    identifiers of the roster. *)
Lemma entries_keys (stores : list Store.t) (trucks : list Truck.t)
    (w : Warehouse.t) (o : t (list string)) :
  let roster := warehouseTrucks_of trucks w in
  NoDup (map Truck.id roster) ->
  (forall t, In t roster -> Truck.id t <> proto_key) ->
  truckAssignments_of rt stores trucks w = Normal o ->
  roster <> [] ->
  Permutation (map fst (entries o)) (map Truck.id roster) /\
  forall e, In e (entries o) ->
    snd e = store_ids (select (owner_is roster (fst e)) 0
                              (sorted_stores rt stores w)).
Proof.
  intros roster Hnd Hproto Hrun Hne.
  destruct (truckAssignments_spec rt stores trucks w Hne)
    as (o' & Hrun' & Hwf & Hget).
  fold roster in Hget. rewrite Hrun in Hrun'. injection Hrun' as <-.
  split.
  - apply NoDup_Permutation; [now apply entries_NoDup | exact Hnd|].
    intros k. rewrite !in_map_iff. split.
    + intros ([k' v] & <- & He). apply (entries_In _ _ _ o Hwf) in He.
      destruct He as [_ He]. rewrite Hget in He. cbn [fst].
      destruct (has_truck_id roster k') eqn:Hhas; [|discriminate].
      apply has_truck_id_In in Hhas. destruct Hhas as (t & Ht & Hid).
      now exists t.
    + intros (t & <- & Ht).
      exists (Truck.id t,
              store_ids (select (owner_is roster (Truck.id t)) 0
                                (sorted_stores rt stores w))).
      split; [reflexivity|]. apply (entries_In _ _ _ o Hwf).
      split; [now apply Hproto|]. rewrite Hget.
      replace (has_truck_id roster (Truck.id t)) with true; [reflexivity|].
      symmetry. apply has_truck_id_In. now exists t.
  - intros [k v] He. apply (entries_In _ _ _ o Hwf) in He.
    destruct He as [_ He]. rewrite Hget in He. cbn [fst snd].
    destruct (has_truck_id roster k); [now injection He | discriminate].
Qed.

Lemma route_entries_length (stores : list Store.t) (trucks : list Truck.t)
    (w : Warehouse.t) :
  let roster := warehouseTrucks_of trucks w in
  NoDup (map Truck.id roster) ->
  (forall t, In t roster -> Truck.id t <> proto_key) ->
  List.length (route_entries rt stores trucks w)
  = Nat.min (List.length roster) (List.length stores).
Proof.
  intros roster Hnd Hproto. unfold route_entries. fold roster.
  destruct (List.length roster =? 0) eqn:Hlen.
  - apply Nat.eqb_eq in Hlen. now rewrite Hlen.
  - assert (Hne : roster <> []) by (intros E; rewrite E in Hlen; discriminate).
    destruct (truckAssignments_spec rt stores trucks w Hne) as (o & Hrun & _).
    rewrite Hrun.
    destruct (entries_keys stores trucks w o Hnd Hproto Hrun Hne)
      as [Hkeys Hvalues].
    set (sorted := sorted_stores rt stores w) in *.
    set (served := fun key =>
           negb (List.length
                   (store_ids (select (owner_is roster key) 0 sorted)) =? 0)).
    assert (Hfilter : forall es : list (string * list string),
               (forall e, In e es ->
                          snd e = store_ids (select (owner_is roster (fst e)) 0
                                                    sorted)) ->
               List.length (filter (fun e => negb (List.length (snd e) =? 0)) es)
               = List.length (filter served (map fst es))).
    { induction es as [|e es IH]; intros Hes; simpl; [reflexivity|].
      assert (Hhead : served (fst e) = negb (List.length (snd e) =? 0)).
      { unfold served. now rewrite <- (Hes e (or_introl eq_refl)). }
      assert (Htail := IH (fun e' He' => Hes e' (or_intror He'))).
      rewrite Hhead.
      destruct (negb (List.length (snd e) =? 0)); simpl; now rewrite Htail. }
    rewrite (Hfilter _ Hvalues), (filter_length_perm served _ _ Hkeys).
    assert (Hmap : forall l : list Truck.t,
               List.length (filter served (map Truck.id l))
               = List.length (filter (fun t => served (Truck.id t)) l)).
    { induction l as [|t l IH]; simpl; [reflexivity|].
      destruct (served (Truck.id t)); simpl; now rewrite IH. }
    rewrite Hmap.
    set (M := List.length roster). set (N := List.length stores).
    assert (HM : 0 < M) by (unfold M; destruct roster; [contradiction | simpl; lia]).
    assert (Hsorted : List.length sorted = N).
    { unfold sorted, sorted_stores, storesWithDistance_of.
      now rewrite Array_sort_length, length_map. }
    rewrite (filter_length_by_index _ (fun k => k <? N)).
    + apply count_below.
    + intros k t Hk. unfold served.
      rewrite (select_ext _ _ sorted (owner_is_share roster k t Hnd Hk) 0).
      fold (share (List.length roster) k sorted). unfold store_ids.
      rewrite length_map. fold M.
      assert (HkM : k < M).
      { apply (proj1 (nth_error_Some roster k)). fold roster in Hk.
        now rewrite Hk. }
      rewrite share_length, Hsorted by exact HkM.
      pose proof (Nat.div_mod_eq N M) as Hdiv.
      pose proof (Nat.mod_upper_bound N M ltac:(lia)) as Hmod.
      destruct (Nat.ltb_spec k N) as [HkN | HkN].
      * destruct (Nat.ltb_spec k (N mod M)); [now rewrite Nat.add_1_r|].
        assert (0 < N / M) by nia.
        destruct (N / M); [lia | reflexivity].
      * assert (Hq : N / M = 0) by (apply Nat.div_small; lia).
        rewrite Hq. rewrite (Nat.mod_small N M) by lia.
        destruct (Nat.ltb_spec k N); [lia | reflexivity].
Qed.

End Counting.

(** X11: with distinct depot identifiers, a depot with [M] trucks (distinct
    identifiers, none of them ["__proto__"]) gets exactly [min(M, N)] routes,
    [N] being the number of stores in the store collection; a depot without a
    truck gets none. *)
Theorem depot_gets_min_routes (rt : Runtime) (W : World) (w : Warehouse.t) :
  let roster := warehouseTrucks_of (trucks (state W)) w in
  NoDup (map Warehouse.id (warehouses (state W))) ->
  In w (warehouses (state W)) ->
  NoDup (map Truck.id roster) ->
  (forall t, In t roster -> Truck.id t <> JSObject.proto_key) ->
  List.length
    (filter (fun r => String.eqb (Route.warehouseId r) (Warehouse.id w))
            (routes (state (snd (generateRoutes rt W)))))
  = Nat.min (List.length roster) (List.length (stores (state W))).
Proof.
  intros roster Hnd Hw Hroster Hproto.
  rewrite <- (route_entries_length rt _ _ w Hroster Hproto).
  rewrite <- (routes_of_depot rt W w Hnd Hw). now rewrite length_map.
Qed.

(** On the sample data: two trucks and three stores, two routes. *)
Lemma depot_gets_min_routes_witness :
  List.length
    (filter (fun r => String.eqb (Route.warehouseId r)
                                 (Warehouse.id Sample.central))
            (routes (state (snd (generateRoutes Sample.runtime
                                   Sample.initial)))))
  = 2.
Proof.
  apply (depot_gets_min_routes Sample.runtime Sample.initial Sample.central).
  - simpl. repeat constructor; simpl; intuition discriminate.
  - simpl. now left.
  - vm_compute. repeat constructor; simpl; intuition discriminate.
  - intros t Ht. vm_compute in Ht.
    destruct Ht as [<- | [<- | []]]; vm_compute; discriminate.
Defined.

(** ** When routes are emitted *)

Lemma store_on_an_entry (rt : Runtime) (stores : list Store.t)
    (trucks : list Truck.t) (w : Warehouse.t) (s : Store.t) :
  warehouseTrucks_of trucks w <> [] ->
  (forall t, In t (warehouseTrucks_of trucks w) ->
             Truck.id t <> JSObject.proto_key) ->
  In s stores ->
  exists e, In e (route_entries rt stores trucks w) /\ In (Store.id s) (snd e).
Proof.
  intros Hne Hproto Hs.
  assert (Hin : In (Store.id s) (flat_map snd (route_entries rt stores trucks w))).
  { apply (Permutation_in (l := map Store.id stores)).
    - apply Permutation_sym. now apply entries_partition.
    - now apply in_map. }
  apply in_flat_map in Hin. exact Hin.
Qed.

(** X12: when no truck is identified by ["__proto__"], [generateRoutes] leaves
    the route collection empty exactly when there is no store or no truck is
    anchored to a warehouse of the collection; in every other case it emits at
    least one route (the test [generates routes] of the source). *)
Theorem routes_emitted_iff (rt : Runtime) (W : World) :
  (forall t, In t (trucks (state W)) -> Truck.id t <> JSObject.proto_key) ->
  routes (state (snd (generateRoutes rt W))) = [] <->
  stores (state W) = [] \/
  forall w t, In w (warehouses (state W)) -> In t (trucks (state W)) ->
              Truck.warehouseId t <> Warehouse.id w.
Proof.
  intros Hproto. split.
  - intros Hnone. destruct (stores (state W)) as [|s ss] eqn:Hstores;
      [now left | right].
    intros w t Hw Ht Hanchor.
    assert (Hroster : In t (warehouseTrucks_of (trucks (state W)) w))
      by now apply warehouseTrucks_In.
    destruct (store_on_an_entry rt (stores (state W)) (trucks (state W)) w s)
      as ([key ids] & He & _).
    + intros E. rewrite E in Hroster. destruct Hroster.
    + intros t' Ht'. apply Hproto. now apply warehouseTrucks_In in Ht'.
    + rewrite Hstores. now left.
    + assert (Hjob : In (w, (key, ids)) (jobs rt (state W))).
      { unfold jobs. apply in_flat_map. exists w. split; [exact Hw|].
        now apply in_map. }
      destruct (job_route rt W _ Hjob) as (n & Hr).
      rewrite Hnone in Hr. destruct Hr.
  - intros Hempty.
    destruct (routes (state (snd (generateRoutes rt W)))) as [|r rs] eqn:Hroutes;
      [reflexivity | exfalso].
    assert (Hr : In r (routes (state (snd (generateRoutes rt W)))))
      by (rewrite Hroutes; now left).
    destruct (route_references rt W r Hr)
      as ((w & Hw & Hwid) & (t & Ht & _ & Hanchor) & Hids & Hknown).
    destruct Hempty as [Hempty | Hempty].
    + destruct (Route.stores r) as [|storeId ids]; [now apply Hids|].
      destruct (Hknown storeId (or_introl eq_refl)) as (s & Hs & _).
      rewrite Hempty in Hs. destruct Hs.
    + apply (Hempty w t Hw Ht). congruence.
Qed.

(** On the sample data routes are emitted. *)
Lemma routes_emitted_iff_witness :
  routes (state (snd (generateRoutes Sample.runtime Sample.initial))) <> [].
Proof.
  intros Hnone.
  apply (routes_emitted_iff Sample.runtime Sample.initial) in Hnone.
  - destruct Hnone as [Hnone | Hnone]; [discriminate|].
    apply (Hnone Sample.central Sample.truck1); simpl; auto.
  - intros t Ht. simpl in Ht.
    destruct Ht as [<- | [<- | [<- | []]]]; vm_compute; discriminate.
Defined.

(** ** What the routes do not depend on *)

Section Views.
Variable rt : Runtime.
Import JSObject.

Lemma sort_insert_view {A B} (view : A -> B) (cmp : A -> A -> number)
    (cmpB : B -> B -> number) (x : A) (l : list A) :
  (forall a b, cmp a b = cmpB (view a) (view b)) ->
  map view (sort_insert cmp x l) = sort_insert cmpB (view x) (map view l).
Proof.
  intros Hcmp. induction l as [|y l IH]; simpl; [reflexivity|].
  unfold SortCompare. rewrite Hcmp.
  destruct (0 <? (if is_nan (cmpB (view x) (view y)) then 0
                  else cmpB (view x) (view y)))%float; simpl;
    [now rewrite IH | reflexivity].
Qed.

Lemma Array_sort_view {A B} (view : A -> B) (cmp : A -> A -> number)
    (cmpB : B -> B -> number) (l : list A) :
  (forall a b, cmp a b = cmpB (view a) (view b)) ->
  map view (Array_sort cmp l) = Array_sort cmpB (map view l).
Proof.
  intros Hcmp. induction l as [|x l IH]; simpl; [reflexivity|].
  unfold Array_sort in *. rewrite <- IH. now apply sort_insert_view.
Qed.

Lemma select_map {A B} (g : A -> B) (p : nat -> bool) (l : list A) :
  forall index, select p index (map g l) = map g (select p index l).
Proof.
  induction l as [|x l IH]; intros index; simpl; [reflexivity|].
  destruct (p index); simpl; now rewrite IH.
Qed.

Lemma find_view {A B} (view : A -> B) (p : A -> bool) (q : B -> bool)
    (l1 l2 : list A) :
  (forall a, p a = q (view a)) ->
  map view l1 = map view l2 ->
  option_map view (Array_find p l1) = option_map view (Array_find p l2).
Proof.
  intros Hp. unfold Array_find. revert l2.
  induction l1 as [|x l1 IH]; intros [|y l2] Hsame; try discriminate;
    [reflexivity|].
  simpl in *. injection Hsame as Hxy Hrest. rewrite !Hp, Hxy.
  destruct (q (view y)); [simpl; now rewrite Hxy | now apply IH].
Qed.

Lemma filter_view {A B} (view : A -> B) (p p' : A -> bool) (q : B -> bool)
    (l1 l2 : list A) :
  (forall a, p a = q (view a)) -> (forall a, p' a = q (view a)) ->
  map view l1 = map view l2 ->
  map view (filter p l1) = map view (filter p' l2).
Proof.
  intros Hp Hp'. revert l2.
  induction l1 as [|x l1 IH]; intros [|y l2] Hsame; try discriminate;
    [reflexivity|].
  simpl in *. injection Hsame as Hxy Hrest. rewrite Hp, Hp', Hxy.
  destruct (q (view y)); simpl; [rewrite Hxy; f_equal|]; now apply IH.
Qed.

Lemma rosters_alike (trucks1 trucks2 : list Truck.t) (w1 w2 : Warehouse.t) :
  map routing_truck trucks1 = map routing_truck trucks2 ->
  Warehouse.id w1 = Warehouse.id w2 ->
  map routing_truck (warehouseTrucks_of trucks1 w1)
  = map routing_truck (warehouseTrucks_of trucks2 w2).
Proof.
  intros Htrucks Hid. unfold warehouseTrucks_of.
  apply (filter_view routing_truck _ _
           (fun v => String.eqb (snd v) (Warehouse.id w2)));
    [intros t; now rewrite Hid | reflexivity | exact Htrucks].
Qed.

Lemma sorted_alike (stores1 stores2 : list Store.t) (w1 w2 : Warehouse.t) :
  map routing_store stores1 = map routing_store stores2 ->
  routing_warehouse w1 = routing_warehouse w2 ->
  store_ids (sorted_stores rt stores1 w1)
  = store_ids (sorted_stores rt stores2 w2).
Proof.
  intros Hstores Hw. unfold routing_warehouse in Hw.
  injection Hw as Hid Hloc.
  set (view := fun a : Store.t * number => (Store.id (fst a), snd a)).
  assert (Hview : forall w stores,
             store_ids (sorted_stores rt stores w)
             = map fst (Array_sort (fun a b : string * number =>
                                      (snd a - snd b)%float)
                                   (map view (storesWithDistance_of rt stores w)))).
  { intros w stores. unfold store_ids, sorted_stores.
    rewrite <- (Array_sort_view view by_distance) by reflexivity.
    now rewrite map_map. }
  rewrite !Hview. do 2 f_equal.
  unfold storesWithDistance_of. rewrite !map_map. unfold view. cbn [fst snd].
  rewrite Hloc. clear Hview view Hid Hloc. revert stores2 Hstores.
  induction stores1 as [|s1 stores1 IH]; intros [|s2 stores2] Hsame;
    try discriminate; [reflexivity|].
  simpl in *. injection Hsame as Hid Hloc Hrest.
  rewrite Hid, Hloc. f_equal. now apply IH.
Qed.

Lemma distribute_alike (roster1 roster2 : list Truck.t)
    (l1 l2 : list (Store.t * number)) :
  map Truck.id roster1 = map Truck.id roster2 ->
  store_ids l1 = store_ids l2 ->
  forall index o,
  forEach_local (assign_store roster1) l1 index o
  = forEach_local (assign_store roster2) l2 index o.
Proof.
  intros Hroster. revert l2.
  assert (Hlen : List.length roster1 = List.length roster2).
  { apply (f_equal (@List.length _)) in Hroster.
    now rewrite !length_map in Hroster. }
  assert (Hnth : forall k, option_map Truck.id (nth_error roster1 k)
                           = option_map Truck.id (nth_error roster2 k)).
  { intros k. now rewrite <- !nth_error_map, Hroster. }
  induction l1 as [|x l1 IH]; intros [|y l2] Hids index o; try discriminate;
    [reflexivity|].
  unfold store_ids in Hids. simpl in Hids. injection Hids as Hxy Hrest.
  cbn [forEach_local].
  assert (Hstep : assign_store roster1 o x index
                  = assign_store roster2 o y index).
  { unfold assign_store. rewrite Hlen.
    specialize (Hnth (index mod List.length roster2)).
    destruct (nth_error roster1 _) as [t1|], (nth_error roster2 _) as [t2|];
      try discriminate; [|reflexivity].
    injection Hnth as ->. now rewrite Hxy. }
  rewrite Hstep. destruct (assign_store roster2 o y index); [|reflexivity].
  now apply IH.
Qed.

Lemma init_alike (roster1 roster2 : list Truck.t) :
  map Truck.id roster1 = map Truck.id roster2 ->
  init_assignments roster1 = init_assignments roster2.
Proof.
  unfold init_assignments. generalize (@empty (list string)). revert roster2.
  induction roster1 as [|t1 roster1 IH]; intros [|t2 roster2] o Hsame;
    try discriminate; [reflexivity|].
  simpl in *. injection Hsame as Hid Hrest. rewrite Hid. now apply IH.
Qed.

Lemma entries_alike (stores1 stores2 : list Store.t)
    (trucks1 trucks2 : list Truck.t) (w1 w2 : Warehouse.t) :
  map routing_store stores1 = map routing_store stores2 ->
  map routing_truck trucks1 = map routing_truck trucks2 ->
  routing_warehouse w1 = routing_warehouse w2 ->
  route_entries rt stores1 trucks1 w1 = route_entries rt stores2 trucks2 w2.
Proof.
  intros Hstores Htrucks Hw.
  assert (Hid : Warehouse.id w1 = Warehouse.id w2)
    by (now injection Hw).
  pose proof (rosters_alike trucks1 trucks2 w1 w2 Htrucks Hid) as Hroster.
  assert (Hids : map Truck.id (warehouseTrucks_of trucks1 w1)
                 = map Truck.id (warehouseTrucks_of trucks2 w2)).
  { apply (f_equal (map (fun v : string * number * string => fst (fst v))))
      in Hroster.
    now rewrite !map_map in Hroster. }
  unfold route_entries, truckAssignments_of.
  rewrite (init_alike _ _ Hids).
  rewrite (distribute_alike _ _ _ _ Hids (sorted_alike _ _ _ _ Hstores Hw)).
  apply (f_equal (@List.length _)) in Hids. rewrite !length_map in Hids.
  now rewrite Hids.
Qed.

Lemma legs_alike (stores1 stores2 : list Store.t) (ids : list string) :
  map routing_store stores1 = map routing_store stores2 ->
  forall index acc,
  forEach_local (add_leg rt stores1) ids index acc
  = forEach_local (add_leg rt stores2) ids index acc.
Proof.
  intros Hstores. induction ids as [|id ids IH]; intros index acc;
    [reflexivity|].
  cbn [forEach_local].
  assert (Hstep : add_leg rt stores1 acc id index
                  = add_leg rt stores2 acc id index).
  { unfold add_leg. destruct acc as [[total plat] plng].
    pose proof (find_view routing_store
                  (fun s => String.eqb (Store.id s) id)
                  (fun v => String.eqb (fst v) id) stores1 stores2
                  (fun s => eq_refl) Hstores) as Hfind.
    destruct (Array_find _ stores1) as [s1|], (Array_find _ stores2) as [s2|];
      try discriminate; [|reflexivity].
    injection Hfind as _ Hloc. now rewrite Hloc. }
  rewrite Hstep. destruct (add_leg rt stores2 acc id index); [|reflexivity].
  apply IH.
Qed.

Lemma route_alike (stores1 stores2 : list Store.t)
    (trucks1 trucks2 : list Truck.t) (w1 w2 : Warehouse.t)
    (e : string * list string) (c : nat) :
  map routing_store stores1 = map routing_store stores2 ->
  map routing_truck trucks1 = map routing_truck trucks2 ->
  routing_warehouse w1 = routing_warehouse w2 ->
  build_route rt stores1 trucks1 (w1, e) c
  = build_route rt stores2 trucks2 (w2, e) c.
Proof.
  intros Hstores Htrucks Hw. injection Hw as Hid Hloc.
  destruct e as [key ids]. unfold build_route, totalDistance_of, speed_of.
  rewrite Hid, Hloc, (legs_alike _ _ ids Hstores).
  pose proof (find_view routing_truck
                (fun t => String.eqb (Truck.id t) key)
                (fun v => String.eqb (fst (fst v)) key) trucks1 trucks2
                (fun t => eq_refl) Htrucks) as Hfind.
  destruct (Array_find _ trucks1) as [t1|], (Array_find _ trucks2) as [t2|];
    try discriminate; [|reflexivity].
  injection Hfind as _ Hspeed _. now rewrite Hspeed.
Qed.

Lemma routes_alike (stores1 stores2 : list Store.t)
    (trucks1 trucks2 : list Truck.t) (ws1 ws2 : list Warehouse.t) :
  map routing_store stores1 = map routing_store stores2 ->
  map routing_truck trucks1 = map routing_truck trucks2 ->
  map routing_warehouse ws1 = map routing_warehouse ws2 ->
  forall c,
  build_routes rt stores1 trucks1
    (flat_map (fun w => map (pair w) (route_entries rt stores1 trucks1 w)) ws1)
    c
  = build_routes rt stores2 trucks2
      (flat_map (fun w => map (pair w) (route_entries rt stores2 trucks2 w)) ws2)
      c.
Proof.
  intros Hstores Htrucks. revert ws2.
  induction ws1 as [|w1 ws1 IH]; intros [|w2 ws2] Hws c; try discriminate;
    [reflexivity|].
  simpl in Hws. injection Hws as Hid Hloc Hrest.
  assert (Hw : routing_warehouse w1 = routing_warehouse w2).
  { unfold routing_warehouse. now rewrite Hid, Hloc. }
  cbn [flat_map]. rewrite !build_routes_app, !length_map.
  rewrite (entries_alike _ _ _ _ w1 w2 Hstores Htrucks Hw).
  rewrite (IH ws2 Hrest). f_equal.
  generalize (route_entries rt stores2 trucks2 w2). intros es. revert c.
  induction es as [|e es IHes]; intros c; cbn [map build_routes];
    [reflexivity|].
  now rewrite IHes, (route_alike _ _ _ _ w1 w2 e c Hstores Htrucks Hw).
Qed.

End Views.

(** X13: [generateRoutes] reads the identifier and the location of the
    warehouses and of the stores, and the identifier, the speed and the
    [warehouseId] of the trucks, and nothing else: two stores that agree on
    these, element by element, get the same routes (the same identifiers and
    timestamps too, when the runtime is asked at the same point).  The
    capacity of the trucks and of the warehouses, the demand and the time
    window of the stores, the names and the addresses play no part in the
    routes. *)
Theorem routes_ignore_capacity_and_demand (rt : Runtime) (W1 W2 : World) :
  map routing_warehouse (warehouses (state W1))
  = map routing_warehouse (warehouses (state W2)) ->
  map routing_store (stores (state W1))
  = map routing_store (stores (state W2)) ->
  map routing_truck (trucks (state W1))
  = map routing_truck (trucks (state W2)) ->
  calls W1 = calls W2 ->
  routes (state (snd (generateRoutes rt W1)))
  = routes (state (snd (generateRoutes rt W2))).
Proof.
  intros Hws Hstores Htrucks Hcalls. rewrite !routes_after, Hcalls.
  unfold jobs. now apply routes_alike.
Qed.

(** On the sample data: the trucks loaded to any capacity. *)
Lemma routes_ignore_capacity_and_demand_witness :
  routes (state (snd (generateRoutes Sample.runtime Sample.initial)))
  = routes (state (snd (generateRoutes Sample.runtime Sample.overloaded))).
Proof.
  apply (routes_ignore_capacity_and_demand Sample.runtime Sample.initial
           Sample.overloaded); reflexivity.
Defined.

(** ** The order of the store collection *)

Lemma SFleb_antisym (x y : spec_float) :
  SFleb x y = true -> SFleb y x = true -> SFeqb x y = true.
Proof. intros Hxy Hyx. NumberOrder.by_cases. Qed.

Lemma leb_antisym (x y : number) :
  (x <=? y)%float = true -> (y <=? x)%float = true -> (x =? y)%float = true.
Proof.
  rewrite !FloatAxioms.leb_spec, FloatAxioms.eqb_spec. apply SFleb_antisym.
Qed.

(** A list has one ascending arrangement when no two elements tie. *)
Lemma sorted_unique (l1 l2 : list (Store.t * number)) :
  StronglySorted closer_or_equal l1 -> StronglySorted closer_or_equal l2 ->
  Permutation l1 l2 -> distances_differ l1 -> l1 = l2.
Proof.
  intros Hs1. revert l2.
  induction Hs1 as [|x l1 Hs1 IH Hx]; intros l2 Hs2 Hperm Hdiff.
  - now apply Permutation_nil in Hperm.
  - destruct Hs2 as [|y l2 Hs2 Hy].
    + symmetry in Hperm. now apply Permutation_nil in Hperm.
    + rewrite Forall_forall in Hx, Hy.
      assert (Hxy : x = y).
      { assert (Hin1 : In x (y :: l2))
          by (apply (Permutation_in _ Hperm); now left).
        assert (Hin2 : In y (x :: l1))
          by (apply (Permutation_in _ (Permutation_sym Hperm)); now left).
        destruct Hin1 as [Heq | Hin1]; [now symmetry|].
        destruct Hin2 as [Heq | Hin2]; [exact Heq|].
        apply Hdiff; [now left | now right|].
        apply leb_antisym; [now apply Hx | now apply Hy]. }
      subst y. f_equal. apply IH; [exact Hs2 | |].
      * now apply Permutation_cons_inv in Hperm.
      * intros a b Ha Hb. apply Hdiff; now right.
Qed.

Section Reordering.
Variable rt : Runtime.

Lemma sorted_stores_perm (stores1 stores2 : list Store.t) (w : Warehouse.t) :
  Permutation stores1 stores2 ->
  distances_are_numbers (storesWithDistance_of rt stores1 w) ->
  distances_differ (storesWithDistance_of rt stores1 w) ->
  sorted_stores rt stores1 w = sorted_stores rt stores2 w.
Proof.
  intros Hperm Hnum Hdiff.
  assert (Hpairs : Permutation (storesWithDistance_of rt stores1 w)
                               (storesWithDistance_of rt stores2 w))
    by now apply Permutation_map.
  assert (Hsorted : Permutation (sorted_stores rt stores1 w)
                                (storesWithDistance_of rt stores1 w))
    by apply Array_sort_perm.
  apply sorted_unique.
  - now apply sorted_by_distance.
  - apply sorted_by_distance.
    apply (Permutation_Forall Hpairs), Hnum.
  - rewrite Hsorted, Hpairs. symmetry. apply Array_sort_perm.
  - intros a b Ha Hb. apply Hdiff; now apply (Permutation_in _ Hsorted).
Qed.

Lemma find_perm (stores1 stores2 : list Store.t) (id : string) :
  NoDup (map Store.id stores1) -> Permutation stores1 stores2 ->
  Array_find (fun s => String.eqb (Store.id s) id) stores1
  = Array_find (fun s => String.eqb (Store.id s) id) stores2.
Proof.
  intros Hnd Hperm.
  assert (Hnd2 : NoDup (map Store.id stores2)).
  { apply (Permutation_NoDup (l := map Store.id stores1));
      [now apply Permutation_map | exact Hnd]. }
  destruct (Array_find _ stores1) as [s|] eqn:Hfind; unfold Array_find in *.
  - apply find_some in Hfind. destruct Hfind as [Hin Hid].
    apply String.eqb_eq in Hid. subst id. symmetry.
    apply (find_unique Store.id); [exact Hnd2|].
    now apply (Permutation_in _ Hperm).
  - destruct (find _ stores2) as [s|] eqn:Hfind2; [|reflexivity].
    apply find_some in Hfind2. destruct Hfind2 as [Hin Hid].
    apply (Permutation_in _ (Permutation_sym Hperm)) in Hin.
    now rewrite (find_none _ _ Hfind s Hin) in Hid.
Qed.

Lemma legs_perm (stores1 stores2 : list Store.t) (ids : list string) :
  NoDup (map Store.id stores1) -> Permutation stores1 stores2 ->
  forall index acc,
  forEach_local (add_leg rt stores1) ids index acc
  = forEach_local (add_leg rt stores2) ids index acc.
Proof.
  intros Hnd Hperm. induction ids as [|id ids IH]; intros index acc;
    [reflexivity|].
  cbn [forEach_local].
  assert (Hstep : add_leg rt stores1 acc id index
                  = add_leg rt stores2 acc id index).
  { unfold add_leg. destruct acc as [[total plat] plng].
    now rewrite (find_perm stores1 stores2 id Hnd Hperm). }
  rewrite Hstep. destruct (add_leg rt stores2 acc id index); [|reflexivity].
  apply IH.
Qed.

Lemma routes_perm (stores1 stores2 : list Store.t) (trucks : list Truck.t)
    (ws : list Warehouse.t) :
  NoDup (map Store.id stores1) -> Permutation stores1 stores2 ->
  (forall w, In w ws ->
     sorted_stores rt stores1 w = sorted_stores rt stores2 w) ->
  forall c,
  build_routes rt stores1 trucks
    (flat_map (fun w => map (pair w) (route_entries rt stores1 trucks w)) ws) c
  = build_routes rt stores2 trucks
      (flat_map (fun w => map (pair w) (route_entries rt stores2 trucks w)) ws)
      c.
Proof.
  intros Hnd Hperm. induction ws as [|w ws IH]; intros Hsorted c;
    [reflexivity|].
  assert (Hentries : route_entries rt stores1 trucks w
                     = route_entries rt stores2 trucks w).
  { unfold route_entries, truckAssignments_of.
    rewrite (Hsorted w); [reflexivity | now left]. }
  cbn [flat_map]. rewrite !build_routes_app, !length_map, Hentries.
  rewrite IH by (intros w' Hw'; apply Hsorted; now right). f_equal.
  generalize (route_entries rt stores2 trucks w). intros es. revert c.
  induction es as [|[key ids] es IHes]; intros c; cbn [map build_routes];
    [reflexivity|].
  rewrite IHes. f_equal. unfold build_route, totalDistance_of.
  now rewrite (legs_perm stores1 stores2 ids Hnd Hperm).
Qed.

End Reordering.

(** X14: the routes do not depend on the order of the store collection when
    no depot has two stores at the same distance: for two stores holding the
    same warehouses and trucks and the same stores in another order, with
    distinct store identifiers, where the distance from every warehouse to
    every store is a number and differs from one store to the next,
    [generateRoutes] leaves the same routes (which ties alone could tell
    apart). *)
Theorem routes_ignore_the_order_of_the_stores (rt : Runtime) (W1 W2 : World) :
  warehouses (state W1) = warehouses (state W2) ->
  trucks (state W1) = trucks (state W2) ->
  Permutation (stores (state W1)) (stores (state W2)) ->
  calls W1 = calls W2 ->
  NoDup (map Store.id (stores (state W1))) ->
  (forall w, In w (warehouses (state W1)) ->
     distances_are_numbers (storesWithDistance_of rt (stores (state W1)) w) /\
     distances_differ (storesWithDistance_of rt (stores (state W1)) w)) ->
  routes (state (snd (generateRoutes rt W1)))
  = routes (state (snd (generateRoutes rt W2))).
Proof.
  intros Hws Htrucks Hperm Hcalls Hnd Hdist.
  rewrite !routes_after. unfold jobs. rewrite <- Hws, <- Htrucks, <- Hcalls.
  apply routes_perm; [exact Hnd | exact Hperm|].
  intros w Hw. destruct (Hdist w Hw) as [Hnum Hdiff].
  now apply sorted_stores_perm.
Qed.

(** On the sample data: the stores in the opposite order. *)
Lemma routes_ignore_the_order_of_the_stores_witness :
  routes (state (snd (generateRoutes Sample.runtime Sample.initial)))
  = routes (state (snd (generateRoutes Sample.runtime Sample.reordered))).
Proof.
  apply (routes_ignore_the_order_of_the_stores Sample.runtime Sample.initial
           Sample.reordered).
  - reflexivity.
  - reflexivity.
  - apply Permutation_rev.
  - reflexivity.
  - vm_compute. repeat constructor; simpl; intuition discriminate.
  - intros w Hw. split.
    + destruct Hw as [<- | [<- | []]]; vm_compute; repeat constructor.
    + intros a b Ha Hb Hsame.
      destruct Hw as [<- | [<- | []]];
        vm_compute in Ha, Hb;
        destruct Ha as [<- | [<- | [<- | []]]];
        destruct Hb as [<- | [<- | [<- | []]]];
        first [reflexivity | vm_compute in Hsame; discriminate].
Defined.

(* ================================================================== *)
(** * What the pages read from the routes *)

Lemma includes_In (x : string) (arr : list string) :
  Array_includes x arr = true <-> In x arr.
Proof.
  unfold Array_includes. rewrite existsb_exists. split.
  - intros (y & Hy & E). apply String.eqb_eq in E. now subst y.
  - intros Hin. exists x. split; [exact Hin | apply String.eqb_refl].
Qed.

(** ** The warehouse serving a store *)

Lemma serving_in_prefix (ws : list Warehouse.t) (rs1 rs2 : list Route.t)
    (wid storeId : string) :
  (forall r, In r rs1 -> Route.warehouseId r = wid) ->
  (exists r, In r rs1 /\ In storeId (Route.stores r)) ->
  getServingWarehouse ws (rs1 ++ rs2) storeId
  = match Array_find (fun w => String.eqb (Warehouse.id w) wid) ws with
    | Some warehouse => Served warehouse
    | None => Served_undefined
    end.
Proof.
  induction rs1 as [|r rs1 IH]; intros Hwid (r' & Hr' & Hin); [destruct Hr'|].
  cbn [app getServingWarehouse].
  destruct (Array_includes storeId (Route.stores r)) eqn:Hinc.
  - now rewrite (Hwid r (or_introl eq_refl)).
  - apply IH; [intros r0 H0; apply Hwid; now right|].
    exists r'. split; [|exact Hin].
    destruct Hr' as [-> | Hr']; [|exact Hr'].
    apply includes_In in Hin. congruence.
Qed.

(** X15: after [generateRoutes] the store details page names the same
    warehouse for every store: the first warehouse of the collection that has
    a truck (distinct warehouse identifiers, no truck of that warehouse
    identified by ["__proto__"]), however far from the store it is and
    whatever other warehouses serve the store as well. *)
Theorem first_depot_is_the_serving_warehouse (rt : Runtime) (W : World)
    (before after : list Warehouse.t) (w : Warehouse.t) (s : Store.t) :
  let st := state (snd (generateRoutes rt W)) in
  warehouses (state W) = before ++ w :: after ->
  (forall w', In w' before -> warehouseTrucks_of (trucks (state W)) w' = []) ->
  warehouseTrucks_of (trucks (state W)) w <> [] ->
  (forall t, In t (warehouseTrucks_of (trucks (state W)) w) ->
             Truck.id t <> JSObject.proto_key) ->
  NoDup (map Warehouse.id (warehouses (state W))) ->
  In s (stores (state W)) ->
  getServingWarehouse (warehouses st) (routes st) (Store.id s) = Served w.
Proof.
  intros st Hsplit Hbefore Hne Hproto Hnd Hs. unfold st.
  destruct (generateRoutes_frame rt W) as (Hw & _). rewrite Hw, routes_after.
  assert (Hin : In w (warehouses (state W)))
    by (rewrite Hsplit; apply in_elt).
  unfold jobs. rewrite Hsplit at 2. rewrite flat_map_app. cbn [flat_map].
  replace (flat_map
             (fun w0 => map (pair w0)
                (route_entries rt (stores (state W)) (trucks (state W)) w0))
             before)
    with (@nil (Warehouse.t * (string * list string))).
  - cbn [app]. rewrite build_routes_app.
    rewrite (serving_in_prefix _ _ _ (Warehouse.id w)).
    + now rewrite (find_unique Warehouse.id _ w Hnd Hin).
    + intros r Hr. apply build_routes_In in Hr.
      destruct Hr as (n & job & Hn & ->). apply nth_error_In in Hn.
      apply in_map_iff in Hn. destruct Hn as ([key ids] & <- & _).
      reflexivity.
    + destruct (store_on_an_entry rt _ _ w s Hne Hproto Hs)
        as ([key ids] & He & Hid).
      apply In_nth_error in He. destruct He as (n & Hn).
      exists (build_route rt (stores (state W)) (trucks (state W))
                (w, (key, ids)) (calls W + 2 * n)).
      split; [|exact Hid]. apply build_routes_In.
      exists n, (w, (key, ids)). split; [|reflexivity].
      now rewrite nth_error_map, Hn.
  - symmetry. clear Hsplit.
    induction before as [|w' before IH]; [reflexivity|]. cbn [flat_map].
    rewrite IH by (intros w0 H0; apply Hbefore; now right).
    unfold route_entries. rewrite (Hbefore w' (or_introl eq_refl)).
    reflexivity.
Qed.

(** On the sample data: the store in San Francisco, one kilometre from the
    West Distribution Center, is shown as served by the Central Warehouse in
    New York. *)
Lemma first_depot_is_the_serving_warehouse_witness :
  getServingWarehouse
    (warehouses (state (snd (generateRoutes Sample.runtime Sample.initial))))
    (routes (state (snd (generateRoutes Sample.runtime Sample.initial))))
    (Store.id Sample.sf_downtown)
  = Served Sample.central.
Proof.
  apply (first_depot_is_the_serving_warehouse Sample.runtime Sample.initial
           [] [Sample.west] Sample.central Sample.sf_downtown).
  - reflexivity.
  - intros w' [].
  - vm_compute. discriminate.
  - intros t Ht. vm_compute in Ht.
    destruct Ht as [<- | [<- | []]]; vm_compute; discriminate.
  - simpl. repeat constructor; simpl; intuition discriminate.
  - simpl. auto.
Defined.

Lemma find_after_delete (ws : list Warehouse.t) (id key : string) :
  Array_find (fun w => String.eqb (Warehouse.id w) key)
             (filter (fun w => negb (String.eqb (Warehouse.id w) id)) ws)
  = if String.eqb key id then None
    else Array_find (fun w => String.eqb (Warehouse.id w) key) ws.
Proof.
  unfold Array_find. induction ws as [|w ws IH]; simpl.
  - now destruct (String.eqb key id).
  - destruct (String.eqb (Warehouse.id w) id) eqn:Eid; simpl.
    + rewrite IH. destruct (String.eqb key id) eqn:Ek; [reflexivity|].
      replace (String.eqb (Warehouse.id w) key) with false; [reflexivity|].
      symmetry. apply String.eqb_neq. apply String.eqb_eq in Eid.
      apply String.eqb_neq in Ek. congruence.
    + destruct (String.eqb (Warehouse.id w) key) eqn:Ekey; [|exact IH].
      replace (String.eqb key id) with false; [reflexivity|].
      symmetry. apply String.eqb_neq. apply String.eqb_eq in Ekey.
      apply String.eqb_neq in Eid. congruence.
Qed.

(** X16: [getServingWarehouse] gives [null] exactly for the stores that no
    route lists.  After [deleteWarehouse] it gives [undefined] for the stores
    it gave a warehouse of the deleted identifier for, although the routes
    still list them; for every other store the answer is the one given before. *)
Theorem serving_warehouse_after_delete (W : World) (id storeId : string) :
  let serving st := getServingWarehouse (warehouses st) (routes st) storeId in
  let st' := state (snd (deleteWarehouse id W)) in
  (serving (state W) = Served_null <->
   forall r, In r (routes (state W)) -> ~ In storeId (Route.stores r)) /\
  serving st'
  = match serving (state W) with
    | Served warehouse =>
        if String.eqb (Warehouse.id warehouse) id then Served_undefined
        else Served warehouse
    | other => other
    end.
Proof.
  intros serving st'. unfold serving, st', deleteWarehouse, set_warehouses.
  cbn [snd state publish warehouses routes]. split.
  - induction (routes (state W)) as [|r rs IH]; cbn [getServingWarehouse].
    + split; [intros _ r [] | reflexivity].
    + destruct (Array_includes storeId (Route.stores r)) eqn:Hinc.
      * split.
        -- destruct (Array_find _ _); discriminate.
        -- intros Hnone. exfalso. apply (Hnone r (or_introl eq_refl)).
           now apply includes_In.
      * rewrite IH. split.
        -- intros Hnone r' [<- | Hr']; [|now apply Hnone].
           intros Hin. apply includes_In in Hin. congruence.
        -- intros Hnone r' Hr'. apply Hnone. now right.
  - induction (routes (state W)) as [|r rs IH]; cbn [getServingWarehouse];
      [reflexivity|].
    destruct (Array_includes storeId (Route.stores r)); [|exact IH].
    rewrite find_after_delete.
    destruct (Array_find _ (warehouses (state W))) as [w|] eqn:Hfind.
    + apply (find_key _ Warehouse.id) in Hfind. rewrite Hfind.
      now destruct (String.eqb (Route.warehouseId r) id).
    + now destruct (String.eqb (Route.warehouseId r) id).
Qed.

(** ** The pie chart of the stores per warehouse *)

Lemma Set_size_perm (l l' : list string) :
  Permutation l l' -> Set_size l = Set_size l'.
Proof.
  intros Hperm. unfold Set_size. apply Permutation_length.
  apply NoDup_Permutation; try apply NoDup_nodup.
  intros x. rewrite !nodup_In. split; apply Permutation_in;
    [exact Hperm | now apply Permutation_sym].
Qed.

(** X17: after [generateRoutes], with distinct warehouse identifiers and no
    truck identified by ["__proto__"], the pie chart of the time analysis page
    gives the same number to every warehouse that has a truck, the number of
    different store identifiers of the whole store collection, and [0] to
    every warehouse without a truck. *)
Theorem pie_chart_after_generation (rt : Runtime) (W : World) :
  NoDup (map Warehouse.id (warehouses (state W))) ->
  (forall t, In t (trucks (state W)) -> Truck.id t <> JSObject.proto_key) ->
  storeDistributionData (state (snd (generateRoutes rt W)))
  = map (fun w =>
           (Warehouse.name w,
            if List.length (warehouseTrucks_of (trucks (state W)) w) =? 0
            then 0
            else Set_size (map Store.id (stores (state W)))))
        (warehouses (state W)).
Proof.
  intros Hnd Hproto. unfold storeDistributionData.
  destruct (generateRoutes_frame rt W) as (Hw & _). rewrite Hw.
  apply map_ext_in. intros w Hin. f_equal.
  assert (Hstores :
            flat_map Route.stores
              (filter (fun r => String.eqb (Route.warehouseId r) (Warehouse.id w))
                      (routes (state (snd (generateRoutes rt W)))))
            = flat_map snd
                (route_entries rt (stores (state W)) (trucks (state W)) w)).
  { rewrite <- (routes_of_depot rt W w Hnd Hin).
    rewrite !flat_map_concat_map, map_map. reflexivity. }
  rewrite Hstores.
  destruct (List.length (warehouseTrucks_of (trucks (state W)) w) =? 0) eqn:Hlen.
  - unfold route_entries. now rewrite Hlen.
  - apply Set_size_perm, entries_partition.
    + now apply roster_nonempty.
    + intros t Ht. apply Hproto. now apply warehouseTrucks_In in Ht.
Qed.

(** On the sample data both warehouses are shown with the three stores. *)
Lemma pie_chart_after_generation_witness :
  storeDistributionData
    (state (snd (generateRoutes Sample.runtime Sample.initial)))
  = [("Central Warehouse"%string, 3); ("West Distribution Center"%string, 3)].
Proof.
  rewrite (pie_chart_after_generation Sample.runtime Sample.initial).
  - reflexivity.
  - simpl. repeat constructor; simpl; intuition discriminate.
  - intros t Ht. simpl in Ht.
    destruct Ht as [<- | [<- | [<- | []]]]; vm_compute; discriminate.
Defined.

(** ** The routes drawn on the map *)

Lemma select_NoDup {A B} (f : A -> B) (p : nat -> bool) (l : list A) :
  NoDup (map f l) -> forall index, NoDup (map f (select p index l)).
Proof.
  induction l as [|x l IH]; intros Hnd index; simpl; [constructor|].
  simpl in Hnd. inversion_clear Hnd as [|? ? Hnotin Hrest].
  destruct (p index); simpl; [|now apply IH].
  constructor; [|now apply IH].
  intros Hin. apply Hnotin. apply in_map_iff in Hin.
  destruct Hin as (y & Hy & Hin). apply select_In in Hin.
  rewrite <- Hy. now apply in_map.
Qed.

(** With distinct store identifiers no route of [generateRoutes] lists a
    store twice. *)
Lemma route_stores_NoDup (rt : Runtime) (W : World) (r : Route.t) :
  NoDup (map Store.id (stores (state W))) ->
  In r (routes (state (snd (generateRoutes rt W)))) ->
  NoDup (Route.stores r).
Proof.
  intros Hnd Hr. apply route_job in Hr.
  destruct Hr as (w & key & ids & n & Hjob & ->). cbn [build_route Route.stores].
  apply jobs_In in Hjob. destruct Hjob as (_ & Hne & o & Hrun & He & _).
  destruct (truckAssignments_spec rt (stores (state W)) (trucks (state W)) w Hne)
    as (o' & Hrun' & Hwf & Hget).
  rewrite Hrun in Hrun'. injection Hrun' as <-.
  apply (ObjectFacts.entries_In _ _ _ o Hwf) in He. destruct He as [_ He].
  rewrite Hget in He.
  destruct (has_truck_id (warehouseTrucks_of (trucks (state W)) w) key);
    [|discriminate].
  injection He as <-. unfold store_ids. apply select_NoDup.
  apply (Permutation_NoDup (l := map Store.id (stores (state W))));
    [|exact Hnd].
  apply Permutation_sym, sorted_store_ids.
Qed.

(** After [generateRoutes], with distinct store identifiers, the callback of
    [filteredRoutes.map] returns a layer for every route of the store. *)
Lemma route_layer_drawn (rt : Runtime) (W : World) (r : Route.t) :
  NoDup (map Store.id (stores (state W))) ->
  In r (routes (state (snd (generateRoutes rt W)))) ->
  exists warehouse routeStores,
    route_layer (state (snd (generateRoutes rt W))) r
    = Some (warehouse, routeStores) /\
    Warehouse.id warehouse = Route.warehouseId r /\
    (NoDup (map Warehouse.id (warehouses (state W))) ->
     forall w, In w (warehouses (state W)) ->
               Warehouse.id w = Route.warehouseId r -> warehouse = w) /\
    routeStores
    = filter (fun s => Array_includes (Store.id s) (Route.stores r))
             (stores (state W)) /\
    Permutation (map Store.id routeStores) (Route.stores r) /\
    waypoints warehouse routeStores = round_trip warehouse routeStores.
Proof.
  intros Hnd Hr.
  destruct (generateRoutes_frame rt W) as (Hw & Hs & _).
  destruct (route_references rt W r Hr) as ((w & Hin & Hid) & _ & Hne & Hknown).
  destruct (find_by_id Warehouse.id (warehouses (state W))
              (Route.warehouseId r)) as (w' & Hfind & Hin' & Hid').
  { now exists w. }
  set (routeStores :=
         filter (fun s => Array_includes (Store.id s) (Route.stores r))
                (stores (state W))).
  assert (Hperm : Permutation (map Store.id routeStores) (Route.stores r)).
  { apply NoDup_Permutation.
    - now apply distinct_keys_filter.
    - now apply (route_stores_NoDup rt W).
    - intros id. unfold routeStores. rewrite in_map_iff. split.
      + intros (s & <- & Hs'). apply filter_In in Hs'.
        now apply includes_In.
      + intros Hlisted. destruct (Hknown id Hlisted) as (s & Hs' & <-).
        exists s. split; [reflexivity|]. apply filter_In.
        split; [exact Hs' | now apply includes_In]. }
  exists w', routeStores. split; [|split; [exact Hid'|split; [|split; [|split]]]].
  - unfold route_layer. rewrite Hw, Hs, Hfind. fold routeStores.
    destruct routeStores as [|s0 rest] eqn:E; [|reflexivity].
    exfalso. apply Permutation_nil in Hperm. now apply Hne.
  - intros Hwnd w0 Hw0 Hid0.
    apply (same_key_same_element Warehouse.id (warehouses (state W))); auto.
    congruence.
  - reflexivity.
  - exact Hperm.
  - reflexivity.
Qed.

(** [filteredRoutes] holds the routes of the store, or those of them that
    carry the selected identifier. *)
Lemma filteredRoutes_In (props : MapViewProps) (rs : list Route.t)
    (r : Route.t) :
  In r (filteredRoutes props rs) <->
  In r rs /\
  (forall id, selectedRoute props = Some id -> id <> EmptyString ->
              Route.id r = id).
Proof.
  unfold filteredRoutes, truthy.
  destruct (selectedRoute props) as [id|].
  - destruct (String.eqb_spec id "") as [-> | Hid]; cbn [negb].
    + split; [intros Hr; split; [exact Hr|] | tauto].
      intros id [= <-] Hne. now contradiction Hne.
    + rewrite filter_In, String.eqb_eq. split.
      * intros [Hr Heq]. split; [exact Hr|]. now intros id' [= <-] _.
      * intros [Hr Heq]. split; [exact Hr|]. now apply Heq.
  - split; [intros Hr; split; [exact Hr|] | tauto]. discriminate.
Qed.

Lemma Forall2_map_In {A B} (P : A -> B -> Prop) (f : A -> B) (l : list A) :
  (forall x, In x l -> P x (f x)) -> Forall2 P l (map f l).
Proof.
  induction l as [|x l IH]; intros H; cbn [map]; constructor.
  - apply H. now left.
  - apply IH. intros y Hy. apply H. now right.
Qed.

(** X18: what [MapView] draws under [Routes] after [generateRoutes], with
    distinct store identifiers.  With [showRoutes] false it draws nothing.
    Otherwise it draws a layer, never [null], for every route of
    [filteredRoutes], in their order: these are all the routes of the store,
    or, when [selectedRoute] is given and is not empty, those that carry that
    identifier.  The layer of a route goes through the route's own depot when
    the depot identifiers are distinct, and through exactly the stores the
    route lists; but in the order of the store collection, not in the order
    in which the route visits them, which is the order its distance was added
    up in. *)
Theorem map_draws_the_stops_in_collection_order (rt : Runtime) (W : World)
    (props : MapViewProps) :
  NoDup (map Store.id (stores (state W))) ->
  (showRoutes props = false ->
   route_layers props (state (snd (generateRoutes rt W))) = []) /\
  (forall r,
      In r (filteredRoutes props (routes (state (snd (generateRoutes rt W)))))
      <-> In r (routes (state (snd (generateRoutes rt W)))) /\
          (forall id, selectedRoute props = Some id -> id <> EmptyString ->
                      Route.id r = id)) /\
  (showRoutes props = true ->
   Forall2
     (fun r layer =>
        exists warehouse routeStores,
          layer = Some (warehouse, routeStores) /\
          Warehouse.id warehouse = Route.warehouseId r /\
          (NoDup (map Warehouse.id (warehouses (state W))) ->
           forall w, In w (warehouses (state W)) ->
                     Warehouse.id w = Route.warehouseId r -> warehouse = w) /\
          routeStores
          = filter (fun s => Array_includes (Store.id s) (Route.stores r))
                   (stores (state W)) /\
          Permutation (map Store.id routeStores) (Route.stores r) /\
          waypoints warehouse routeStores = round_trip warehouse routeStores)
     (filteredRoutes props (routes (state (snd (generateRoutes rt W)))))
     (route_layers props (state (snd (generateRoutes rt W))))).
Proof.
  intros Hnd. split; [|split].
  - intros Hoff. unfold route_layers. now rewrite Hoff.
  - intros r. apply filteredRoutes_In.
  - intros Hon. unfold route_layers. rewrite Hon.
    apply Forall2_map_In. intros r Hr.
    apply filteredRoutes_In in Hr. destruct Hr as [Hr _].
    destruct (route_layer_drawn rt W r Hnd Hr)
      as (w & routeStores & Hlayer & Hfacts).
    exists w, routeStores. split; [exact Hlayer | exact Hfacts].
Qed.

(** On the stores of the equator, listed farthest first: the first vehicle
    visits the store at one degree before the store at three degrees, and
    the map draws them the other way round; with the first route selected
    the map draws that route alone, and with [showRoutes] false none. *)
Lemma map_draws_the_stops_in_collection_order_witness :
  map (fun r => (Route.id r, Route.stores r))
      (routes (state (snd (generateRoutes Sample.runtime Sample.equator))))
  = [("r", ["D1"; "D3"]); ("rii", ["D2"])]%string /\
  map (option_map (fun layer => map Store.id (snd layer)))
      (route_layers default_props
         (state (snd (generateRoutes Sample.runtime Sample.equator))))
  = [Some ["D3"; "D1"]; Some ["D2"]]%string /\
  map (option_map (fun layer => map Store.id (snd layer)))
      (route_layers {| showRoutes := true; selectedRoute := Some "r"%string |}
         (state (snd (generateRoutes Sample.runtime Sample.equator))))
  = [Some ["D3"; "D1"]]%string /\
  route_layers {| showRoutes := false; selectedRoute := None |}
    (state (snd (generateRoutes Sample.runtime Sample.equator)))
  = [] /\
  Forall2 (fun r layer =>
             exists warehouse routeStores,
               layer = Some (warehouse, routeStores) /\
               Permutation (map Store.id routeStores) (Route.stores r))
          (routes (state (snd (generateRoutes Sample.runtime Sample.equator))))
          (route_layers default_props
             (state (snd (generateRoutes Sample.runtime Sample.equator)))).
Proof.
  split; [vm_compute; reflexivity|]. split; [vm_compute; reflexivity|].
  split; [vm_compute; reflexivity|]. split; [vm_compute; reflexivity|].
  assert (Hnd : NoDup (map Store.id (stores (state Sample.equator)))).
  { cbn. repeat constructor; cbn; intuition discriminate. }
  pose proof (map_draws_the_stops_in_collection_order Sample.runtime
                Sample.equator default_props Hnd) as (_ & _ & Hdrawn).
  specialize (Hdrawn eq_refl).
  change (filteredRoutes default_props
            (routes (state (snd (generateRoutes Sample.runtime
                                   Sample.equator)))))
    with (routes (state (snd (generateRoutes Sample.runtime Sample.equator))))
    in Hdrawn.
  revert Hdrawn. apply Forall2_impl.
  intros r layer (w & routeStores & Hlayer & _ & _ & _ & Hperm & _).
  exists w, routeStores. split; [exact Hlayer | exact Hperm].
Defined.

(* ================================================================== *)
(** * The checks of the forms *)

(** ** Numbers accepted by the forms *)

(** [isNaN(x) || x <= 0] rejects exactly the numbers that are not above
    zero. *)
Lemma rejects_unless_positive (x : number) :
  is_nan x || (x <=? 0)%float = negb (0 <? x)%float.
Proof.
  unfold is_nan.
  rewrite FloatAxioms.eqb_spec, FloatAxioms.leb_spec, FloatAxioms.ltb_spec.
  change (Prim2SF 0) with (S754_zero false).
  destruct (Prim2SF x) as [s| s| |s m e]; try destruct s; try reflexivity;
    unfold SFeqb, SFleb, SFltb, SFcompare; cbn;
    now rewrite ?Z.compare_refl, ?Pos.compare_cont_refl.
Qed.

Lemma SFltb_negb_leb (x y : spec_float) :
  SFeqb x x = true -> SFeqb y y = true -> SFltb y x = negb (SFleb x y).
Proof. intros Hx Hy. NumberOrder.by_cases. Qed.

(** [isNaN(x) || x < lo || x > hi] rejects exactly the numbers outside
    [lo .. hi]. *)
Lemma rejects_unless_within (lo hi x : number) :
  is_nan lo = false -> is_nan hi = false ->
  is_nan x || (x <? lo)%float || (hi <? x)%float
  = negb ((lo <=? x)%float && (x <=? hi)%float).
Proof.
  unfold is_nan. intros Hlo Hhi. apply negb_false_iff in Hlo, Hhi.
  destruct (x =? x)%float eqn:Hx; cbn [negb orb].
  - rewrite FloatAxioms.eqb_spec in Hlo, Hhi, Hx.
    rewrite !FloatAxioms.leb_spec, !FloatAxioms.ltb_spec.
    rewrite (SFltb_negb_leb _ _ Hlo Hx), (SFltb_negb_leb _ _ Hx Hhi).
    now rewrite negb_andb.
  - rewrite FloatAxioms.eqb_spec in Hx. rewrite FloatAxioms.leb_spec.
    destruct (Prim2SF x) as [s|s| |s m e]; try destruct s; cbn in Hx;
      try discriminate.
    + unfold SFleb. now destruct (Prim2SF lo).
    + unfold SFeqb, SFcompare in Hx.
      rewrite Z.compare_refl, Pos.compare_cont_refl in Hx. discriminate.
    + unfold SFeqb, SFcompare in Hx.
      rewrite Z.compare_refl, Pos.compare_cont_refl in Hx. discriminate.
Qed.

Lemma spread_sound {A} (sound : A -> bool) (id_of : A -> string) (id : string)
    (f : A -> A) (l : list A) :
  (forall x, sound (f x) = true) ->
  Forall (fun x => sound x = true) l ->
  Forall (fun x => sound x = true)
         (map (fun x => if String.eqb (id_of x) id then f x else x) l).
Proof.
  intros Hf Hl. apply Forall_forall. intros y Hy. apply in_map_iff in Hy.
  destruct Hy as (x & <- & Hx). rewrite Forall_forall in Hl.
  destruct (String.eqb (id_of x) id); [apply Hf | now apply Hl].
Qed.

Lemma append_sound {A} (sound : A -> bool) (x : A) (l : list A) :
  sound x = true ->
  Forall (fun x => sound x = true) l ->
  Forall (fun x => sound x = true) (l ++ [x]).
Proof.
  intros Hx Hl. apply Forall_app. split; [exact Hl|]. now constructor.
Qed.

(** ** The truck form *)

(** X19: [handleSubmit] of the truck form reaches the store exactly when the
    name and the texts of capacity and speed are not blank, capacity and speed
    stand for numbers above zero and a warehouse is selected.  Otherwise it
    records error messages and leaves the store alone, subscribers
    included.  When it reaches the store it calls [updateTruck] for the truck
    the form was opened for, [addTruck] for a new truck, with the numbers the
    texts stand for.  So a store in which every truck has a speed and a
    capacity above zero stays such a store: the form never lets in the speed
    zero, a negative speed or [NaN]. *)
Theorem truck_form_validates (rt : Runtime) (cv : Conversions)
    (truck : option Truck.t) (form : TruckForm.fields) (W : World) :
  let run := TruckForm.handleSubmit rt cv truck form W in
  let accepted :=
    (truthy (String_trim cv (TruckForm.name form)) &&
     truthy (String_trim cv (TruckForm.capacity form)) &&
     (0 <? Number cv (TruckForm.capacity form))%float &&
     truthy (String_trim cv (TruckForm.speed form)) &&
     (0 <? Number cv (TruckForm.speed form))%float &&
     truthy (TruckForm.warehouseId form))%bool in
  (accepted = false ->
   exists newErrors, run = (Normal (Rejected newErrors), W)) /\
  (accepted = true ->
   run
   = (Normal Completed,
      snd (match truck with
           | Some truck =>
               updateTruck (Truck.id truck)
                           (TruckForm.truckData_partial cv form) W
           | None => addTruck rt (TruckForm.truckData cv form) W
           end))) /\
  (Forall (fun t => sound_truck t = true) (trucks (state W)) ->
   Forall (fun t => sound_truck t = true) (trucks (state (snd run)))).
Proof.
  intros run accepted.
  assert (Hcheck : exists newErrors,
             TruckForm.validate cv form = (newErrors, negb accepted)).
  { unfold TruckForm.validate, accepted.
    rewrite !rejects_unless_positive.
    destruct (truthy (String_trim cv (TruckForm.name form)));
      destruct (truthy (String_trim cv (TruckForm.capacity form)));
      destruct (0 <? Number cv (TruckForm.capacity form))%float;
      destruct (truthy (String_trim cv (TruckForm.speed form)));
      destruct (0 <? Number cv (TruckForm.speed form))%float;
      destruct (truthy (TruckForm.warehouseId form));
      cbn; eexists; reflexivity. }
  destruct Hcheck as (newErrors & Hcheck).
  assert (Hrejected : accepted = false -> run = (Normal (Rejected newErrors), W)).
  { intros Hno. unfold run, TruckForm.handleSubmit.
    now rewrite Hcheck, Hno. }
  assert (Haccepted :
            accepted = true ->
            run
            = (Normal Completed,
               snd (match truck with
                    | Some truck =>
                        updateTruck (Truck.id truck)
                                    (TruckForm.truckData_partial cv form) W
                    | None => addTruck rt (TruckForm.truckData cv form) W
                    end))).
  { intros Hyes. unfold run, TruckForm.handleSubmit.
    rewrite Hcheck, Hyes. now destruct truck. }
  split; [intros Hno; exists newErrors; now apply Hrejected|].
  split; [exact Haccepted|].
  intros Hsound. destruct accepted eqn:Hacc.
  - rewrite (Haccepted eq_refl). cbn [snd].
    unfold accepted in Hacc. repeat rewrite andb_true_iff in Hacc.
    destruct Hacc as (((((_ & _) & Hcapacity) & _) & Hspeed) & _).
    assert (Hnew : forall t, sound_truck
                     (Truck.spread t (TruckForm.truckData_partial cv form))
                   = true).
    { intros t. unfold sound_truck. cbn. now rewrite Hcapacity, Hspeed. }
    destruct truck as [truck|].
    + cbn. now apply spread_sound.
    + cbn. apply append_sound; [|exact Hsound].
      unfold sound_truck. cbn. now rewrite Hcapacity, Hspeed.
  - now rewrite (Hrejected eq_refl).
Qed.

(** On the sample data: a truck of 70 km/h is added, a truck of speed zero
    is turned down. *)
Lemma truck_form_validates_witness :
  fst (TruckForm.handleSubmit Sample.runtime Sample.conversions None
         Sample.truck_entry Sample.initial) = Normal Completed /\
  (exists newErrors,
      TruckForm.handleSubmit Sample.runtime Sample.conversions None
        Sample.stalled_entry Sample.initial
      = (Normal (Rejected newErrors), Sample.initial)).
Proof.
  split.
  - destruct (truck_form_validates Sample.runtime Sample.conversions None
                Sample.truck_entry Sample.initial) as (_ & Hyes & _).
    now rewrite Hyes.
  - destruct (truck_form_validates Sample.runtime Sample.conversions None
                Sample.stalled_entry Sample.initial) as (Hno & _).
    now apply Hno.
Defined.

(** ** The store form *)

(** X20: [handleSubmit] of the store form reaches the store exactly when name
    and address are not blank, the texts of latitude, longitude and demand are
    not blank and stand for a latitude within -90 .. 90, a longitude within
    -180 .. 180 and a demand above zero, and the two times are both given or
    both left empty.  Otherwise it records error messages and leaves the store
    alone.  A store collection whose stores all lie on the globe with a demand
    above zero stays such a collection.  When the form was opened for a store
    and is submitted with both times empty, the key [timeWindow] is passed
    with the value [undefined], and every store carrying the identifier loses
    the time window it had. *)
Theorem store_form_validates (rt : Runtime) (cv : Conversions)
    (store : option Store.t) (form : StoreForm.fields) (W : World) :
  let run := StoreForm.handleSubmit rt cv store form W in
  let accepted :=
    (truthy (String_trim cv (StoreForm.name form)) &&
     truthy (String_trim cv (StoreForm.lat form)) &&
     within (-90) 90 (Number cv (StoreForm.lat form)) &&
     truthy (String_trim cv (StoreForm.lng form)) &&
     within (-180) 180 (Number cv (StoreForm.lng form)) &&
     truthy (String_trim cv (StoreForm.demand form)) &&
     (0 <? Number cv (StoreForm.demand form))%float &&
     truthy (String_trim cv (StoreForm.address form)) &&
     Bool.eqb (truthy (StoreForm.startTime form))
              (truthy (StoreForm.endTime form)))%bool in
  (accepted = false ->
   exists newErrors, run = (Normal (Rejected newErrors), W)) /\
  (accepted = true ->
   run
   = (Normal Completed,
      snd (match store with
           | Some store =>
               updateStore (Store.id store)
                           (StoreForm.storeData_partial cv form) W
           | None => addStore rt (StoreForm.storeData cv form) W
           end))) /\
  (Forall (fun s => sound_store s = true) (stores (state W)) ->
   Forall (fun s => sound_store s = true) (stores (state (snd run)))) /\
  (accepted = true ->
   forall edited, store = Some edited ->
   forall s, In s (stores (state (snd run))) ->
             Store.id s = Store.id edited ->
             Store.timeWindow s
             = if truthy (StoreForm.startTime form)
               then Some {| TimeWindow.start := StoreForm.startTime form;
                            TimeWindow.end_ := StoreForm.endTime form |}
               else None).
Proof.
  intros run accepted.
  assert (Hcheck : exists newErrors,
             StoreForm.validate cv form = (newErrors, negb accepted)).
  { unfold StoreForm.validate, accepted, within.
    rewrite !rejects_unless_positive, !rejects_unless_within by reflexivity.
    destruct (truthy (String_trim cv (StoreForm.name form)));
      destruct (truthy (String_trim cv (StoreForm.lat form)));
      destruct ((-90 <=? Number cv (StoreForm.lat form))%float
                && (Number cv (StoreForm.lat form) <=? 90)%float);
      destruct (truthy (String_trim cv (StoreForm.lng form)));
      destruct ((-180 <=? Number cv (StoreForm.lng form))%float
                && (Number cv (StoreForm.lng form) <=? 180)%float);
      destruct (truthy (String_trim cv (StoreForm.demand form)));
      destruct (0 <? Number cv (StoreForm.demand form))%float;
      destruct (truthy (String_trim cv (StoreForm.address form)));
      destruct (truthy (StoreForm.startTime form));
      destruct (truthy (StoreForm.endTime form));
      cbn; eexists; reflexivity. }
  destruct Hcheck as (newErrors & Hcheck).
  assert (Hrejected : accepted = false -> run = (Normal (Rejected newErrors), W)).
  { intros Hno. unfold run, StoreForm.handleSubmit.
    now rewrite Hcheck, Hno. }
  assert (Haccepted :
            accepted = true ->
            run
            = (Normal Completed,
               snd (match store with
                    | Some store =>
                        updateStore (Store.id store)
                                    (StoreForm.storeData_partial cv form) W
                    | None => addStore rt (StoreForm.storeData cv form) W
                    end))).
  { intros Hyes. unfold run, StoreForm.handleSubmit.
    rewrite Hcheck, Hyes. now destruct store. }
  split; [intros Hno; exists newErrors; now apply Hrejected|].
  split; [exact Haccepted|].
  split.
  - intros Hsound. destruct accepted eqn:Hacc.
    + rewrite (Haccepted eq_refl). cbn [snd].
      unfold accepted in Hacc. repeat rewrite andb_true_iff in Hacc.
      destruct Hacc
        as ((((((((_ & _) & Hlat) & _) & Hlng) & _) & Hdemand) & _) & _).
      assert (Hnew : forall s, sound_store
                       (Store.spread s (StoreForm.storeData_partial cv form))
                     = true).
      { intros s. unfold sound_store, on_the_globe. cbn.
        now rewrite Hlat, Hlng, Hdemand. }
      destruct store as [store|].
      * cbn. now apply spread_sound.
      * cbn. apply append_sound; [|exact Hsound].
        unfold sound_store, on_the_globe. cbn.
        now rewrite Hlat, Hlng, Hdemand.
    + now rewrite (Hrejected eq_refl).
  - intros Hyes edited -> s Hs Hid.
    rewrite (Haccepted Hyes) in Hs. cbn in Hs.
    apply in_map_iff in Hs. destruct Hs as (s0 & <- & _).
    unfold accepted in Hyes. repeat rewrite andb_true_iff in Hyes.
    destruct Hyes as (_ & Htimes). apply Bool.eqb_prop in Htimes.
    destruct (String.eqb (Store.id s0) (Store.id edited)) eqn:E.
    + cbn. unfold StoreForm.timeWindow_of. rewrite <- Htimes.
      now destruct (truthy (StoreForm.startTime form)).
    + exfalso. apply String.eqb_neq in E. now apply E.
Qed.

(** On the sample data: editing the downtown store with the form left
    without times removes its business hours. *)
Lemma store_form_validates_witness :
  map Store.timeWindow
      (stores (state (snd (StoreForm.handleSubmit Sample.runtime
                             Sample.conversions (Some Sample.downtown)
                             Sample.store_entry Sample.initial))))
  = [None; Store.timeWindow Sample.uptown; Store.timeWindow Sample.sf_downtown].
Proof.
  destruct (store_form_validates Sample.runtime Sample.conversions
              (Some Sample.downtown) Sample.store_entry Sample.initial)
    as (_ & Hyes & _).
  now rewrite Hyes.
Defined.

(** ** The warehouse form *)

(** X21: [handleSubmit] of the warehouse form reaches the store exactly when
    name and address are not blank and the texts of latitude, longitude and
    capacity are not blank and stand for a latitude within -90 .. 90, a
    longitude within -180 .. 180 and a capacity above zero; otherwise it
    records error messages and leaves the store alone.  A warehouse collection
    whose warehouses all lie on the globe with a capacity above zero stays
    such a collection. *)
Theorem warehouse_form_validates (rt : Runtime) (cv : Conversions)
    (warehouse : option Warehouse.t) (form : WarehouseForm.fields)
    (W : World) :
  let run := WarehouseForm.handleSubmit rt cv warehouse form W in
  let accepted :=
    (truthy (String_trim cv (WarehouseForm.name form)) &&
     truthy (String_trim cv (WarehouseForm.lat form)) &&
     within (-90) 90 (Number cv (WarehouseForm.lat form)) &&
     truthy (String_trim cv (WarehouseForm.lng form)) &&
     within (-180) 180 (Number cv (WarehouseForm.lng form)) &&
     truthy (String_trim cv (WarehouseForm.capacity form)) &&
     (0 <? Number cv (WarehouseForm.capacity form))%float &&
     truthy (String_trim cv (WarehouseForm.address form)))%bool in
  (accepted = false ->
   exists newErrors, run = (Normal (Rejected newErrors), W)) /\
  (accepted = true ->
   run
   = (Normal Completed,
      snd (match warehouse with
           | Some warehouse =>
               updateWarehouse (Warehouse.id warehouse)
                               (WarehouseForm.warehouseData_partial cv form) W
           | None =>
               addWarehouse rt (WarehouseForm.warehouseData cv form) W
           end))) /\
  (Forall (fun w => sound_warehouse w = true) (warehouses (state W)) ->
   Forall (fun w => sound_warehouse w = true)
          (warehouses (state (snd run)))).
Proof.
  intros run accepted.
  assert (Hcheck : exists newErrors,
             WarehouseForm.validate cv form = (newErrors, negb accepted)).
  { unfold WarehouseForm.validate, accepted, within.
    rewrite !rejects_unless_positive, !rejects_unless_within by reflexivity.
    destruct (truthy (String_trim cv (WarehouseForm.name form)));
      destruct (truthy (String_trim cv (WarehouseForm.lat form)));
      destruct ((-90 <=? Number cv (WarehouseForm.lat form))%float
                && (Number cv (WarehouseForm.lat form) <=? 90)%float);
      destruct (truthy (String_trim cv (WarehouseForm.lng form)));
      destruct ((-180 <=? Number cv (WarehouseForm.lng form))%float
                && (Number cv (WarehouseForm.lng form) <=? 180)%float);
      destruct (truthy (String_trim cv (WarehouseForm.capacity form)));
      destruct (0 <? Number cv (WarehouseForm.capacity form))%float;
      destruct (truthy (String_trim cv (WarehouseForm.address form)));
      cbn; eexists; reflexivity. }
  destruct Hcheck as (newErrors & Hcheck).
  assert (Hrejected : accepted = false -> run = (Normal (Rejected newErrors), W)).
  { intros Hno. unfold run, WarehouseForm.handleSubmit.
    now rewrite Hcheck, Hno. }
  assert (Haccepted :
            accepted = true ->
            run
            = (Normal Completed,
               snd (match warehouse with
                    | Some warehouse =>
                        updateWarehouse (Warehouse.id warehouse)
                          (WarehouseForm.warehouseData_partial cv form) W
                    | None =>
                        addWarehouse rt (WarehouseForm.warehouseData cv form) W
                    end))).
  { intros Hyes. unfold run, WarehouseForm.handleSubmit.
    rewrite Hcheck, Hyes. now destruct warehouse. }
  split; [intros Hno; exists newErrors; now apply Hrejected|].
  split; [exact Haccepted|].
  intros Hsound. destruct accepted eqn:Hacc.
  - rewrite (Haccepted eq_refl). cbn [snd].
    unfold accepted in Hacc. repeat rewrite andb_true_iff in Hacc.
    destruct Hacc as (((((((_ & _) & Hlat) & _) & Hlng) & _) & Hcapacity) & _).
    assert (Hnew : forall w, sound_warehouse
                     (Warehouse.spread w
                        (WarehouseForm.warehouseData_partial cv form))
                   = true).
    { intros w. unfold sound_warehouse, on_the_globe. cbn.
      now rewrite Hlat, Hlng, Hcapacity. }
    destruct warehouse as [warehouse|].
    + cbn. now apply spread_sound.
    + cbn. apply append_sound; [|exact Hsound].
      unfold sound_warehouse, on_the_globe. cbn.
      now rewrite Hlat, Hlng, Hcapacity.
  - now rewrite (Hrejected eq_refl).
Qed.

(** On the sample data: a third warehouse is added. *)
Lemma warehouse_form_validates_witness :
  List.length
    (warehouses (state (snd (WarehouseForm.handleSubmit Sample.runtime
                               Sample.conversions None Sample.warehouse_entry
                               Sample.initial))))
  = 3.
Proof.
  destruct (warehouse_form_validates Sample.runtime Sample.conversions None
              Sample.warehouse_entry Sample.initial) as (_ & Hyes & _).
  now rewrite Hyes.
Defined.

(* ================================================================== *)
(** * The stores of a warehouse on the reports page *)

Section Grouping.
Import JSObject ObjectFacts.

Lemma group_store_run (k : string) (ids : list string) :
  forall (i : nat) (acc : list (string * list string)) (arr : list string),
  assoc_get k acc = Some arr -> NoDup arr ->
  exists acc' arr',
    forEach_local (group_store k) ids i acc = Normal acc' /\
    assoc_get k acc' = Some arr' /\ NoDup arr' /\
    (forall x, In x arr' <-> In x arr \/ In x ids) /\
    forall k', k' <> k -> assoc_get k' acc' = assoc_get k' acc.
Proof.
  induction ids as [|id ids IH]; intros i acc arr Hget Hnd.
  - exists acc, arr. simpl. repeat split; auto; tauto.
  - cbn [forEach_local]. unfold group_store at 1. rewrite Hget.
    destruct (Array_includes id arr) eqn:Hinc; cbn [negb].
    + destruct (IH (S i) acc arr Hget Hnd)
        as (acc' & arr' & Hrun & Hget' & Hnd' & Hin & Hother).
      exists acc', arr'. repeat split; auto.
      * intros Hx. apply Hin in Hx. simpl. tauto.
      * intros [Hx | [<- | Hx]]; apply Hin; auto.
        left. now apply includes_In.
    + assert (Hnew : ~ In id arr).
      { intros Hin. apply includes_In in Hin. congruence. }
      destruct (IH (S i) (assoc_set k (arr ++ [id]) acc) (arr ++ [id]))
        as (acc' & arr' & Hrun & Hget' & Hnd' & Hin & Hother).
      { apply assoc_get_set_same. }
      { now apply NoDup_snoc. }
      exists acc', arr'. repeat split; auto.
      * intros Hx. apply Hin in Hx. rewrite in_app_iff in Hx. simpl in *. tauto.
      * intros Hx. apply Hin. rewrite in_app_iff. simpl in *. tauto.
      * intros k' Hk'. rewrite Hother by exact Hk'.
        now apply assoc_get_set_other.
Qed.

Lemma group_route_run (r : Route.t) (i : nat)
    (acc : list (string * list string)) :
  grouped acc ->
  if unreadable r then group_route acc r i = Throw TypeError
  else
    exists acc',
      group_route acc r i = Normal acc' /\ grouped acc' /\
      (forall k, k <> Route.warehouseId r ->
                 assoc_get k acc' = assoc_get k acc) /\
      (inherited (Route.warehouseId r) = true ->
       assoc_get (Route.warehouseId r) acc' = None) /\
      (inherited (Route.warehouseId r) = false ->
       exists arr',
         assoc_get (Route.warehouseId r) acc' = Some arr' /\
         forall x, In x arr' <->
                   In x (group_of (Route.warehouseId r) acc)
                   \/ In x (Route.stores r)).
Proof.
  intros Hacc. unfold unreadable, group_route.
  set (k := Route.warehouseId r).
  destruct (inherited k) eqn:Hk; cbn [andb].
  - assert (Hnone : assoc_get k acc = None).
    { destruct (assoc_get k acc) as [arr|] eqn:E; [|reflexivity].
      apply Hacc in E. destruct E as [_ E]. congruence. }
    rewrite Hnone. cbn [negb].
    destruct (Route.stores r) as [|id ids]; cbn [List.length Nat.eqb negb].
    + exists acc. split; [reflexivity|]. split; [exact Hacc|].
      split; [reflexivity|]. split; [intros _; exact Hnone | discriminate].
    + cbn [forEach_local]. unfold group_store. now rewrite Hnone.
  - assert (Hstart : exists acc0 arr0,
               (if match assoc_get k acc with
                   | Some _ => false
                   | None => negb false
                   end
                then assoc_set k [] acc else acc) = acc0 /\
               assoc_get k acc0 = Some arr0 /\ NoDup arr0 /\
               arr0 = group_of k acc /\
               forall k', k' <> k -> assoc_get k' acc0 = assoc_get k' acc).
    { unfold group_of. destruct (assoc_get k acc) as [arr|] eqn:E.
      - exists acc, arr. repeat split; auto. now apply (Hacc k).
      - exists (assoc_set k [] acc), []. cbn [negb].
        split; [reflexivity|]. split; [apply assoc_get_set_same|].
        split; [constructor|]. split; [reflexivity|].
        intros k' Hk'. now apply assoc_get_set_other. }
    destruct Hstart as (acc0 & arr0 & -> & Hget0 & Hnd0 & Harr0 & Hother0).
    destruct (group_store_run k (Route.stores r) 0 acc0 arr0 Hget0 Hnd0)
      as (acc' & arr' & Hrun & Hget' & Hnd' & Hin & Hother).
    exists acc'. split; [exact Hrun|]. split; [|split; [|split]].
    + intros k' arr1 Hget1. destruct (string_dec k' k) as [-> | Hne].
      * rewrite Hget' in Hget1. injection Hget1 as <-. now split.
      * rewrite Hother, Hother0 in Hget1 by exact Hne. now apply (Hacc k').
    + intros k' Hne. now rewrite Hother, Hother0.
    + discriminate.
    + intros _. exists arr'. split; [exact Hget'|]. now rewrite <- Harr0.
Qed.

Lemma group_routes_run (routes : list Route.t) :
  forall (i : nat) (acc : list (string * list string)),
  grouped acc ->
  if existsb unreadable routes
  then forEach_local group_route routes i acc = Throw TypeError
  else
    exists acc',
      forEach_local group_route routes i acc = Normal acc' /\ grouped acc' /\
      forall k,
        (assoc_get k acc' = None ->
         assoc_get k acc = None /\
         forall r, In r routes -> Route.warehouseId r = k ->
                   inherited k = true) /\
        (forall arr', assoc_get k acc' = Some arr' ->
           ((exists arr, assoc_get k acc = Some arr) \/
            exists r, In r routes /\ Route.warehouseId r = k) /\
           forall x, In x arr' <->
                     In x (group_of k acc) \/
                     exists r, In r routes /\ Route.warehouseId r = k /\
                               In x (Route.stores r)).
Proof.
  induction routes as [|r routes IH]; intros i acc Hacc.
  - cbn. exists acc. split; [reflexivity|]. split; [exact Hacc|].
    intros k. split.
    + intros Hnone. split; [exact Hnone | intros r []].
    + intros arr' Hget. split; [left; now exists arr'|].
      unfold group_of. rewrite Hget. intros x. split; [tauto|].
      intros [Hx | (r & [] & _)]. exact Hx.
  - cbn [existsb forEach_local].
    pose proof (group_route_run r i acc Hacc) as Hstep.
    destruct (unreadable r) eqn:Hbad; cbn [orb].
    + now rewrite Hstep.
    + destruct Hstep as (acc1 & Hrun1 & Hacc1 & Hother & Hinh & Hown).
      rewrite Hrun1. specialize (IH (S i) acc1 Hacc1).
      destruct (existsb unreadable routes); [exact IH|].
      destruct IH as (acc' & Hrun & Hacc' & Hkeys).
      exists acc'. split; [exact Hrun|]. split; [exact Hacc'|].
      intros k. destruct (Hkeys k) as [Hnone Hsome].
      assert (Hgroup : forall x,
                 In x (group_of k acc1) <->
                 In x (group_of k acc)
                 \/ (Route.warehouseId r = k /\ In x (Route.stores r))).
      { intros x. destruct (string_dec k (Route.warehouseId r)) as [-> | Hne].
        - destruct (inherited (Route.warehouseId r)) eqn:Hk.
          + unfold group_of at 1. rewrite (Hinh eq_refl).
            assert (Hnone0 : assoc_get (Route.warehouseId r) acc = None).
            { destruct (assoc_get (Route.warehouseId r) acc) as [arr|] eqn:E;
                [|reflexivity].
              apply Hacc in E. destruct E as [_ E]. congruence. }
            unfold group_of. rewrite Hnone0.
            unfold unreadable in Hbad. rewrite Hk in Hbad. cbn in Hbad.
            apply negb_false_iff, Nat.eqb_eq, length_zero_iff_nil in Hbad.
            rewrite Hbad. simpl. tauto.
          + destruct (Hown eq_refl) as (arr1 & Hget1 & Hin1).
            unfold group_of at 1. rewrite Hget1, Hin1. tauto.
        - unfold group_of. rewrite (Hother k Hne). split; [tauto|].
          intros [Hx | [E _]]; [exact Hx | congruence]. }
      split.
      * intros Hnone'. destruct (Hnone Hnone') as [Hnone1 Hrest].
        assert (Hnone0 : assoc_get k acc = None).
        { destruct (string_dec k (Route.warehouseId r)) as [-> | Hne].
          - destruct (inherited (Route.warehouseId r)) eqn:Hk.
            + destruct (assoc_get (Route.warehouseId r) acc) as [arr|] eqn:E;
                [|reflexivity].
              apply Hacc in E. destruct E as [_ E]. congruence.
            + destruct (Hown eq_refl) as (arr1 & Hget1 & _). congruence.
          - now rewrite <- (Hother k Hne). }
        split; [exact Hnone0|].
        intros r' [<- | Hr'] Hid; [|now apply (Hrest r')].
        destruct (inherited k) eqn:Hk; [reflexivity|].
        rewrite <- Hid in Hk. destruct (Hown Hk) as (arr1 & Hget1 & _).
        rewrite Hid in Hget1. congruence.
      * intros arr' Hget'. destruct (Hsome arr' Hget') as [Hfrom Hin].
        split.
        -- destruct Hfrom as [(arr1 & Hget1) | (r' & Hr' & Hid)].
           ++ destruct (string_dec k (Route.warehouseId r)) as [-> | Hne].
              ** right. exists r. split; [now left | reflexivity].
              ** left. exists arr1. now rewrite <- (Hother k Hne).
           ++ right. exists r'. split; [now right | exact Hid].
        -- intros x. rewrite Hin, Hgroup. split.
           ++ intros [[Hx | [Hid Hx]] | (r' & Hr' & Hid & Hx)].
              ** now left.
              ** right. exists r. split; [now left | now split].
              ** right. exists r'. split; [now right | now split].
           ++ intros [Hx | (r' & [<- | Hr'] & Hid & Hx)].
              ** left. now left.
              ** left. right. now split.
              ** right. exists r'. now repeat split.
Qed.

End Grouping.

(** X22: the reports page groups the stores of the routes by warehouse in an
    object literal.  The grouping throws a [TypeError] exactly when some route
    that lists at least one store has a [warehouseId] that is the name of a
    property inherited from [Object.prototype], such as ["constructor"] or
    ["__proto__"].  Otherwise the object holds a list for exactly the
    warehouse identifiers of the routes that are no such name, and the list of
    an identifier holds, once each, the stores listed by the routes carrying
    it.  After [generateRoutes] the grouping succeeds whenever no warehouse of
    the store has such a name as identifier. *)
Theorem warehouseStores_groups (rs : list Route.t) :
  (if existsb unreadable rs
   then warehouseStores rs = Throw TypeError
   else
     exists groups,
       warehouseStores rs = Normal groups /\
       forall k,
         match JSObject.assoc_get k groups with
         | Some arr =>
             inherited k = false /\
             (exists r, In r rs /\ Route.warehouseId r = k) /\
             NoDup arr /\
             forall storeId,
               In storeId arr <->
               exists r, In r rs /\ Route.warehouseId r = k /\
                         In storeId (Route.stores r)
         | None =>
             forall r, In r rs -> Route.warehouseId r = k ->
                       inherited k = true
         end) /\
  forall (rt : Runtime) (W : World),
    rs = routes (state (snd (generateRoutes rt W))) ->
    (forall w, In w (warehouses (state W)) ->
               inherited (Warehouse.id w) = false) ->
    exists groups, warehouseStores rs = Normal groups.
Proof.
  assert (Hempty : grouped []) by (intros k arr; discriminate).
  pose proof (group_routes_run rs 0 [] Hempty) as Hrun.
  fold (warehouseStores rs) in Hrun. split.
  - destruct (existsb unreadable rs); [exact Hrun|].
    destruct Hrun as (groups & Hrun & Hgroups & Hkeys).
    exists groups. split; [exact Hrun|]. intros k.
    destruct (Hkeys k) as [Hnone Hsome].
    destruct (JSObject.assoc_get k groups) as [arr|] eqn:Hget.
    + destruct (Hgroups k arr Hget) as [Hnd Hk].
      destruct (Hsome arr eq_refl) as [Hfrom Hin].
      split; [exact Hk|]. split; [|split; [exact Hnd|]].
      * destruct Hfrom as [(arr0 & Hget0) | Hfrom]; [discriminate | exact Hfrom].
      * intros storeId. rewrite Hin. unfold group_of. cbn. tauto.
    + now apply Hnone.
  - intros rt W -> Hnames.
    destruct (existsb unreadable
                (routes (state (snd (generateRoutes rt W)))))
      eqn:Hbad.
    + exfalso. apply existsb_exists in Hbad. destruct Hbad as (r & Hr & Hbad).
      destruct (route_references rt W r Hr) as ((w & Hw & Hid) & _).
      unfold unreadable in Hbad. apply andb_true_iff in Hbad.
      destruct Hbad as [Hbad _]. rewrite <- Hid, (Hnames w Hw) in Hbad.
      discriminate.
    + destruct Hrun as (groups & Hrun & _). now exists groups.
Qed.

(** On a route under ["constructor"] the grouping of the reports page
    throws; on the routes generated from the sample data it succeeds. *)
Lemma warehouseStores_groups_witness :
  warehouseStores [Sample.misfiled] = Throw TypeError /\
  exists groups,
    warehouseStores
      (routes (state (snd (generateRoutes Sample.runtime Sample.initial))))
    = Normal groups.
Proof.
  split.
  - exact (proj1 (warehouseStores_groups [Sample.misfiled])).
  - apply (proj2 (warehouseStores_groups _) Sample.runtime Sample.initial
             eq_refl).
    intros w [<- | [<- | []]]; reflexivity.
Defined.


(* ================================================================== *)
(** * The great-circle distance *)

(** ** Opposite numbers *)

Lemma binary_round_aux_opp (s : bool) (m e : Z) (l : location) :
  binary_round_aux prec emax (negb s) m e l
  = SFopp (binary_round_aux prec emax s m e l).
Proof.
  unfold binary_round_aux.
  destruct (shr_fexp prec emax m e l) as [mrs' e'].
  destruct (shr_fexp prec emax _ e' loc_Exact) as [mrs2 e2].
  destruct (shr_m mrs2); try reflexivity.
  destruct (e2 <=? emax - prec)%Z; reflexivity.
Qed.

Lemma SFmul_opp_l (x y : spec_float) :
  SFmul prec emax (SFopp x) y = SFopp (SFmul prec emax x y).
Proof.
  destruct x as [sx|sx| |sx mx ex], y as [sy|sy| |sy my ey]; cbn [SFmul SFopp];
    try reflexivity; rewrite <- ?negb_xorb_l; try reflexivity.
  apply binary_round_aux_opp.
Qed.

Lemma SFmul_comm (x y : spec_float) :
  SFmul prec emax x y = SFmul prec emax y x.
Proof.
  destruct x as [sx|sx| |sx mx ex], y as [sy|sy| |sy my ey]; cbn [SFmul];
    try reflexivity; rewrite (xorb_comm sx sy); try reflexivity.
  now rewrite Pos.mul_comm, Z.add_comm.
Qed.

Lemma SFdiv_opp_l (x y : spec_float) :
  SFdiv prec emax (SFopp x) y = SFopp (SFdiv prec emax x y).
Proof.
  destruct x as [sx|sx| |sx mx ex], y as [sy|sy| |sy my ey]; cbn [SFdiv SFopp];
    try reflexivity; rewrite <- ?negb_xorb_l; try reflexivity.
  destruct (SFdiv_core_binary prec emax (Zpos mx) ex (Zpos my) ey)
    as [[mz ez] lz].
  apply binary_round_aux_opp.
Qed.

Lemma SFsub_swap (x y : spec_float) :
  SFsub prec emax x y = SFsub prec emax y x \/
  SFsub prec emax x y = SFopp (SFsub prec emax y x).
Proof.
  destruct x as [sx|sx| |sx mx ex], y as [sy|sy| |sy my ey]; cbn [SFsub SFopp];
    try (now left);
    try solve [destruct sx, sy; cbn; auto];
    try solve [right; now rewrite ?negb_involutive].
  rewrite (Z.min_comm ey ex).
  set (ez := Z.min ex ey).
  set (A := cond_Zopp sx (Zpos (fst (shl_align mx ex ez)))).
  set (B := cond_Zopp sy (Zpos (fst (shl_align my ey ez)))).
  replace (B - A)%Z with (- (A - B))%Z by lia.
  destruct (A - B)%Z as [|p|p]; cbn [Z.opp binary_normalize].
  - now left.
  - right. unfold binary_round.
    destruct (shl_align p ez _) as [mz e'].
    apply (binary_round_aux_opp true).
  - right. unfold binary_round.
    destruct (shl_align p ez _) as [mz e'].
    apply (binary_round_aux_opp false).
Qed.

Lemma opp_involutive (x : number) : (- - x)%float = x.
Proof.
  apply Prim2SF_inj. rewrite !FloatAxioms.opp_spec.
  destruct (Prim2SF x); cbn; now rewrite ?negb_involutive.
Qed.

Lemma mul_opp_l (x y : number) : (- x * y)%float = (- (x * y))%float.
Proof.
  apply Prim2SF_inj.
  rewrite FloatAxioms.mul_spec, !FloatAxioms.opp_spec, FloatAxioms.mul_spec.
  apply SFmul_opp_l.
Qed.

Lemma mul_comm (x y : number) : (x * y)%float = (y * x)%float.
Proof.
  apply Prim2SF_inj. rewrite !FloatAxioms.mul_spec. apply SFmul_comm.
Qed.

Lemma div_opp_l (x y : number) : (- x / y)%float = (- (x / y))%float.
Proof.
  apply Prim2SF_inj.
  rewrite FloatAxioms.div_spec, !FloatAxioms.opp_spec, FloatAxioms.div_spec.
  apply SFdiv_opp_l.
Qed.

(** [x - y] and [y - x] are opposite, or both [+0]. *)
Lemma sub_swap (x y : number) : mirrored (x - y)%float (y - x)%float.
Proof.
  destruct (SFsub_swap (Prim2SF x) (Prim2SF y)) as [H | H]; [left | right];
    apply Prim2SF_inj;
    now rewrite ?FloatAxioms.opp_spec, !FloatAxioms.sub_spec.
Qed.

Lemma mirrored_mul (a b c : number) :
  mirrored a b -> mirrored (a * c)%float (b * c)%float.
Proof. intros [-> | ->]; [now left | right; apply mul_opp_l]. Qed.

Lemma mirrored_div (a b c : number) :
  mirrored a b -> mirrored (a / c)%float (b / c)%float.
Proof. intros [-> | ->]; [now left | right; apply div_opp_l]. Qed.

Lemma mirrored_square (c a b : number) :
  mirrored a b ->
  (a * a)%float = (b * b)%float /\ (c * a * a)%float = (c * b * b)%float.
Proof.
  intros [-> | ->]; [now split|]. split.
  - now rewrite mul_opp_l, (mul_comm b), mul_opp_l, opp_involutive.
  - rewrite (mul_comm c), mul_opp_l, mul_opp_l, (mul_comm (b * c)%float),
      mul_opp_l, opp_involutive.
    now rewrite (mul_comm b c), (mul_comm b).
Qed.

(** ** Symmetry *)

(** X23: when the sine of the runtime is odd ([Math.sin(-x)] is
    [-Math.sin(x)]; ECMAScript leaves the values of [Math.sin] to the
    implementation), the great-circle distance from a point to another is, bit
    for bit, the distance back; so the two legs of a route with one stop have
    the same length, and its total distance is that length added twice to [0]. *)
Theorem distance_is_symmetric (rt : Runtime) :
  (forall x, Math_sin rt (- x)%float = (- Math_sin rt x)%float) ->
  (forall lat1 lon1 lat2 lon2,
      calculateDistance rt lat1 lon1 lat2 lon2
      = calculateDistance rt lat2 lon2 lat1 lon1) /\
  forall (stores : list Store.t) (w : Warehouse.t) (s : Store.t),
    Array_find (fun s' => String.eqb (Store.id s') (Store.id s)) stores
    = Some s ->
    totalDistance_of rt stores w [Store.id s]
    = (0 + GeoDistance rt (Warehouse.location w) (Store.location s)
       + GeoDistance rt (Warehouse.location w) (Store.location s))%float.
Proof.
  intros Hodd.
  assert (Hsin : forall a b, mirrored a b ->
                             mirrored (Math_sin rt a) (Math_sin rt b)).
  { intros a b [-> | ->]; [now left | right; apply Hodd]. }
  assert (Hsym : forall lat1 lon1 lat2 lon2,
             calculateDistance rt lat1 lon1 lat2 lon2
             = calculateDistance rt lat2 lon2 lat1 lon1).
  { intros lat1 lon1 lat2 lon2. unfold calculateDistance. cbv zeta.
    assert (Hlat : mirrored
                     (Math_sin rt ((lat2 - lat1) * Math_PI / 180 / 2))%float
                     (Math_sin rt ((lat1 - lat2) * Math_PI / 180 / 2))%float).
    { apply Hsin. do 2 apply mirrored_div. apply mirrored_mul, sub_swap. }
    assert (Hlon : mirrored
                     (Math_sin rt ((lon2 - lon1) * Math_PI / 180 / 2))%float
                     (Math_sin rt ((lon1 - lon2) * Math_PI / 180 / 2))%float).
    { apply Hsin. do 2 apply mirrored_div. apply mirrored_mul, sub_swap. }
    destruct (mirrored_square 0 _ _ Hlat) as [-> _].
    destruct (mirrored_square
                (Math_cos rt (lat1 * Math_PI / 180)
                 * Math_cos rt (lat2 * Math_PI / 180))%float _ _ Hlon)
      as [_ ->].
    now rewrite (mul_comm (Math_cos rt (lat1 * Math_PI / 180)%float)). }
  split; [exact Hsym|].
  intros stores w s Hfind. unfold totalDistance_of.
  cbn [forEach_local]. unfold add_leg. rewrite Hfind. cbn [forEach_local].
  unfold GeoDistance. f_equal. apply Hsym.
Qed.

(** On the sample data, for the runtime of short distances: from the central
    warehouse to the downtown store and back. *)
Lemma distance_is_symmetric_witness :
  GeoDistance Sample.small_angles (Warehouse.location Sample.central)
              (Store.location Sample.downtown)
  = GeoDistance Sample.small_angles (Store.location Sample.downtown)
                (Warehouse.location Sample.central).
Proof.
  destruct (distance_is_symmetric Sample.small_angles) as [Hsym _].
  - reflexivity.
  - apply Hsym.
Defined.
